(** * MikroScope: a shallow embedding of the log sidecar and its properties

    The development follows the TypeScript sources of the repository:
    the index store ([LogDatabase]), the query service ([LogQueryService]),
    the incremental indexer ([LogIndexer]), the alerting manager
    ([Alerting]), and the ingest pipeline ([Ingest], [Auth],
    [HandleRequest]).

    Conventions.
    - A JavaScript string is a Rocq [string]; the string built-ins
      ([trim], [toUpperCase], [toLowerCase], [includes]) are modelled on
      ASCII text, where they are exact.
    - A JavaScript number that holds a count, an identifier, a byte offset
      or a time in milliseconds is a [Z].
    - [JSON.parse], [JSON.stringify], the base64 decoder and [readline]
      are built-ins of the JavaScript runtime, not code of the repository:
      they are the fields of the class [Runtime], and every result below
      holds for every runtime.  [refRuntime] is a small instance used to run the model on
      concrete inputs.
    - A thrown exception is the [Throw] result of the [Outcome] monad. *)

From Stdlib Require Import ZArith Lia Bool List Ascii String.
From stdpp Require Import base option list sorting gmap strings pretty.

Local Open Scope string_scope.
Local Open Scope Z_scope.

(** ** JavaScript strings *)

Module Js.

(** White space removed by [String.prototype.trim] (ASCII range). *)
Definition isWhiteSpace (c : ascii) : bool :=
let n := N_of_ascii c in
((9 <=? n) && (n <=? 13))%N || (n =? 32)%N.

Fixpoint trimStart (s : string) : string :=
match s with
| EmptyString => EmptyString
| String c rest => if isWhiteSpace c then trimStart rest else s
end.

(** [trimEnd] keeps a character when it is no white space or when
  something remains after it. *)
Fixpoint trimEnd (s : string) : string :=
match s with
| EmptyString => EmptyString
| String c rest =>
    match trimEnd rest with
    | EmptyString => if isWhiteSpace c then EmptyString else String c EmptyString
    | kept => String c kept
    end
end.

Definition trim (s : string) : string := trimEnd (trimStart s).

Definition isUpper (c : ascii) : bool :=
let n := N_of_ascii c in ((65 <=? n) && (n <=? 90))%N.

Definition isLower (c : ascii) : bool :=
let n := N_of_ascii c in ((97 <=? n) && (n <=? 122))%N.

Definition isDigit (c : ascii) : bool :=
let n := N_of_ascii c in ((48 <=? n) && (n <=? 57))%N.

Definition upperChar (c : ascii) : ascii :=
if isLower c then ascii_of_N (N_of_ascii c - 32) else c.

Definition lowerChar (c : ascii) : ascii :=
if isUpper c then ascii_of_N (N_of_ascii c + 32) else c.

Fixpoint mapChars (f : ascii -> ascii) (s : string) : string :=
match s with
| EmptyString => EmptyString
| String c rest => String (f c) (mapChars f rest)
end.

Definition toUpperCase : string -> string := mapChars upperChar.
Definition toLowerCase : string -> string := mapChars lowerChar.

(** [haystack.includes(needle)]. *)
Fixpoint includes (needle haystack : string) : bool :=
String.prefix needle haystack ||
match haystack with
| EmptyString => false
| String _ rest => includes needle rest
end.

(** [s.indexOf(c)] for a one-character pattern; [-1] when absent. *)
Fixpoint indexOfChar (c : ascii) (s : string) : Z :=
match s with
| EmptyString => -1
| String d rest =>
    if Ascii.eqb c d then 0
    else let i := indexOfChar c rest in if i <? 0 then -1 else i + 1
end.

(** [s.split(c)] for a one-character separator: never the empty list. *)
Fixpoint splitChar (c : ascii) (s : string) : list string :=
match s with
| EmptyString => [EmptyString]
| String d rest =>
    if Ascii.eqb c d then EmptyString :: splitChar c rest
    else match splitChar c rest with
         | [] => [String d EmptyString]
         | piece :: pieces => String d piece :: pieces
         end
end.

(** [s.slice(0, n)] and [s.slice(n)] for [0 <= n]. *)
Definition sliceTo (n : Z) (s : string) : string :=
String.substring 0 (Z.to_nat n) s.
Definition sliceFrom (n : Z) (s : string) : string :=
String.substring (Z.to_nat n) (String.length s - Z.to_nat n) s.

Fixpoint allChars (p : ascii -> bool) (s : string) : bool :=
match s with
| EmptyString => true
| String c rest => p c && allChars p rest
end.

(** [s] between double quotes. *)
Definition dq : ascii := "034"%char.
Definition quoted (s : string) : string := String dq (s ++ String dq EmptyString)%string.

(** A string is truthy when it is not empty. *)
Definition nonEmpty (s : string) : bool :=
match s with EmptyString => false | _ => true end.

(** [if (x)] for an optional string: defined and not empty. *)
Definition truthy (o : option string) : option string :=
match o with
| Some s => if nonEmpty s then Some s else None
| None => None
end.

(** The decimal digits at the front of [s] as a number; nothing when [s]
  does not begin with a digit. *)
Fixpoint leadingDigits (s : string) (acc : Z) (seen : bool) : option Z :=
match s with
| String c rest =>
    if isDigit c then leadingDigits rest (acc * 10 + (Z.of_N (N_of_ascii c) - 48)) true
    else if seen then Some acc else None
| EmptyString => if seen then Some acc else None
end.

(** [Number.parseInt(s, 10)] as a mathematical integer: leading white
  space is skipped, one sign is read, then the longest run of decimal
  digits; nothing is NaN. *)
Definition parseInt (s : string) : option Z :=
match trimStart s with
| String "-" rest => option_map Z.opp (leadingDigits rest 0 false)
| String "+" rest => leadingDigits rest 0 false
| t => leadingDigits t 0 false
end.

(** [Number.isFinite] of the Number value of an integer: rounding to the
  nearest double gives Infinity from [2^1024 - 2^970] on. *)
Definition isFiniteInteger (n : Z) : bool := Z.abs n <? 2 ^ 1024 - 2 ^ 970.

End Js.

(** ** JSON values *)

#[warnings="-register-all"]
Inductive JsonValue : Type :=
| JNull
| JBool (b : bool)
| JNum (n : Z)
| JStr (s : string)
| JArr (items : list JsonValue)
| JObj (members : list (string * JsonValue)).

(** The built-ins of the runtime that the repository calls. [JSON_parse]
    is [None] where [JSON.parse] throws a [SyntaxError]. *)
Class Runtime := {
  JSON_parse : string -> option JsonValue;
  JSON_stringify : JsonValue -> string;
  (** [Buffer.from(text, "base64").toString("utf8")] *)
  base64_decode : string -> string;
  (** the lines that [readline] yields for a stream with this content *)
  readLines : string -> list string
}.

(** ** Exceptions *)

Inductive Outcome (A : Type) : Type :=
| Return (a : A)
| Throw (message : string).
Arguments Return {A} a.
Arguments Throw {A} message.

#[global] Instance Outcome_ret : MRet Outcome := @Return.
#[global] Instance Outcome_bind : MBind Outcome := fun A B k m =>
  match m with
  | Return a => k a
  | Throw e => Throw e
  end.

(** Properties of object values and the accessors JavaScript gives them. *)
Module Obj.

Fixpoint get (key : string) (members : list (string * JsonValue)) : option JsonValue :=
match members with
| [] => None
| (k, v) :: rest => if (k =? key)%string then Some v else get key rest
end.

(** [record[key] = v]: an existing key keeps its place. *)
Fixpoint set (key : string) (v : JsonValue) (members : list (string * JsonValue))
: list (string * JsonValue) :=
match members with
| [] => [(key, v)]
| (k, old) :: rest =>
    if (k =? key)%string then (k, v) :: rest else (k, old) :: set key v rest
end.

(** [value.key] on any non-null value: an object looks the key up, every
  other kind has no such property ([undefined]); reading a property of
  [null] throws a [TypeError]. The keys the repository reads
  ([timestamp], [level], [event], [message], [audit]) are no built-in
  properties of arrays, strings, numbers or booleans. *)
Definition prop (v : JsonValue) (key : string) : Outcome (option JsonValue) :=
match v with
| JNull => Throw "TypeError: Cannot read properties of null"
| JObj members => Return (get key members)
| _ => Return None
end.

Fixpoint indexed {A : Type} (i : nat) (l : list A) : list (string * A) :=
match l with
| [] => []
| a :: rest => (pretty i, a) :: indexed (S i) rest
end.

Fixpoint chars (s : string) : list JsonValue :=
match s with
| EmptyString => []
| String c rest => JStr (String c EmptyString) :: chars rest
end.

(** [Object.entries(value)]: own enumerable properties; the indices of
  an array or of a string, nothing for numbers and booleans. *)
Definition entries (v : JsonValue) : Outcome (list (string * JsonValue)) :=
match v with
| JNull => Throw "TypeError: Cannot convert undefined or null to object"
| JObj members => Return members
| JArr items => Return (indexed 0 items)
| JStr s => Return (indexed 0 (chars s))
| JNum _ | JBool _ => Return []
end.

End Obj.

(** ** interfaces/index.ts *)

Module Interfaces.

Record IndexedLogEntry := {
id : Z;
timestamp : string;
level : string;
event : string;
message : string;
data : JsonValue;
sourceFile : string;
lineNumber : Z
}.

(** [LogQueryOptions]: every member is optional. *)
Record LogQueryOptions := {
q_from : option string;
q_to : option string;
q_level : option string;
q_audit : option bool;
q_field : option string;
q_limit : option Z;
q_value : option string;
q_cursor : option string
}.

Record LogCursor := { cursor_id : Z; cursor_timestamp : string }.

Record LogQueryPage := {
entries : list IndexedLogEntry;
hasMore : bool;
limit : Z;
nextCursor : option LogCursor
}.

Inductive IndexMode := full | incremental.

(** [IndexReport], without the two wall-clock stamps [startedAt] and
  [finishedAt], which no operation reads. *)
Record IndexReport := {
filesScanned : Z;
linesScanned : Z;
recordsInserted : Z;
recordsSkipped : Z;
parseErrors : Z;
mode : IndexMode
}.

(** [LogAggregateGroupBy]: ["level" | "event" | "field" | "correlation"]. *)
Inductive LogAggregateGroupBy :=
| groupByLevel | groupByEvent | groupByField | groupByCorrelation.

Record LogAggregateBucket := { bucket_key : string; bucket_count : Z }.

End Interfaces.

(** ** infrastructure/persistence/LogDatabase.ts

    The two tables are lists of rows in insertion order; a statement is
    the function on tables that SQLite computes for it. *)

Module LogDatabase.

Record UpsertEntryInput := {
in_timestamp : string;
in_level : string;
in_event : string;
in_message : string;
isAudit : bool;
dataJson : string;
sourceFile : string;
lineNumber : Z
}.

Record UpsertEntryResult := { entryId : Z; inserted : bool }.

(** A row of [log_entries] (the column [indexed_at], which is written by
  its default and never read, is left out). *)
Record LogEntryRow := {
id : Z;
timestamp : string;
level : string;
event : string;
message : string;
is_audit : bool;
data_json : string;
source_file : string;
line_number : Z
}.

Record LogFieldRow := { entry_id : Z; key : string; value_text : string }.

(** [sqlite_sequence] is the counter of
  [INTEGER PRIMARY KEY AUTOINCREMENT]: the largest row id an insert into
  [log_entries] ever took, whether its row was stored or ignored. The
  deletions below remove the field rows of a row before the row, so
  [ON DELETE CASCADE] finds nothing more to remove. *)
Record Database := {
log_entries : list LogEntryRow;
log_fields : list LogFieldRow;
sqlite_sequence : Z
}.

Definition empty : Database :=
{| log_entries := []; log_fields := []; sqlite_sequence := 0 |}.

Definition largestId (rows : list LogEntryRow) : Z :=
fold_right (fun e acc => Z.max (id e) acc) 0 rows.

(** UNIQUE(source_file, line_number). *)
Definition sameKey (input : UpsertEntryInput) (e : LogEntryRow) : bool :=
(source_file e =? sourceFile input)%string && (line_number e =? lineNumber input).

Definition rowOf (newId : Z) (input : UpsertEntryInput) : LogEntryRow :=
{| id := newId;
   timestamp := in_timestamp input;
   level := in_level input;
   event := in_event input;
   message := in_message input;
   is_audit := isAudit input;
   data_json := dataJson input;
   source_file := sourceFile input;
   line_number := lineNumber input |}.

(** [INSERT OR IGNORE INTO log_entries ...]: the new table, the number of
  changed rows and the last inserted row id. The statement takes the
  next row id before it meets the UNIQUE conflict, and the counter of
  AUTOINCREMENT keeps that id also when the row is ignored; the last
  inserted row id is not read when nothing changed. *)
Definition insertOrIgnoreEntry (db : Database) (input : UpsertEntryInput)
: Database * Z * Z :=
let newId := Z.max (largestId (log_entries db)) (sqlite_sequence db) + 1 in
if existsb (sameKey input) (log_entries db)
then ({| log_entries := log_entries db;
         log_fields := log_fields db;
         sqlite_sequence := newId |}, 0, sqlite_sequence db)
else
  ({| log_entries := log_entries db ++ [rowOf newId input];
      log_fields := log_fields db;
      sqlite_sequence := newId |}, 1, newId).

Definition upsertEntry (db : Database) (input : UpsertEntryInput)
: Outcome (Database * UpsertEntryResult) :=
let '(db', changes, lastInsertRowid) := insertOrIgnoreEntry db input in
if 0 <? changes then
  Return (db', {| entryId := lastInsertRowid; inserted := true |})
else
  match find (sameKey input) (log_entries db') with
  | None => Throw "Could not read existing log entry after insert ignore."
  | Some existing => Return (db', {| entryId := id existing; inserted := false |})
  end.

Definition sameField (f g : LogFieldRow) : bool :=
(entry_id f =? entry_id g) && (key f =? key g)%string
&& (value_text f =? value_text g)%string.

(** [INSERT OR IGNORE INTO log_fields ...] under
  UNIQUE(entry_id, key, value_text) and
  FOREIGN KEY(entry_id) REFERENCES log_entries(id), which [node:sqlite]
  enforces: a row that is there already is ignored; a new row for an id
  that [log_entries] does not hold fails the statement. *)
Definition upsertField (db : Database) (entryId : Z) (k v : string) : Outcome Database :=
let f := {| entry_id := entryId; key := k; value_text := v |} in
if existsb (sameField f) (log_fields db) then Return db
else if existsb (Z.eqb entryId) (map id (log_entries db))
then Return {| log_entries := log_entries db;
               log_fields := log_fields db ++ [f];
               sqlite_sequence := sqlite_sequence db |}
else Throw "FOREIGN KEY constraint failed".

Record DeleteBySourceFileResult := {
del_entriesDeleted : Z;
del_fieldsDeleted : Z;
del_sourceFile : string
}.

Definition fromSource (sf : string) (e : LogEntryRow) : bool :=
(source_file e =? sf)%string.

Definition deleteEntriesForSourceFile (db : Database) (sf : string)
: Database * DeleteBySourceFileResult :=
let ids := map id (List.filter (fromSource sf) (log_entries db)) in
let doomed (f : LogFieldRow) := existsb (Z.eqb (entry_id f)) ids in
let keptFields := List.filter (fun f => negb (doomed f)) (log_fields db) in
let keptEntries := List.filter (fun e => negb (fromSource sf e)) (log_entries db) in
({| log_entries := keptEntries;
    log_fields := keptFields;
    sqlite_sequence := sqlite_sequence db |},
 {| del_sourceFile := sf;
    del_entriesDeleted := Z.of_nat (length (log_entries db)) - Z.of_nat (length keptEntries);
    del_fieldsDeleted := Z.of_nat (length (log_fields db)) - Z.of_nat (length keptFields) |}).

Record ResetResult := { reset_entriesDeleted : Z; reset_fieldsDeleted : Z }.

Definition reset (db : Database) : Database * ResetResult :=
({| log_entries := []; log_fields := []; sqlite_sequence := sqlite_sequence db |},
 {| reset_entriesDeleted := Z.of_nat (length (log_entries db));
    reset_fieldsDeleted := Z.of_nat (length (log_fields db)) |}).

(** [Math.max(1, Math.min(max, Math.trunc(input || 100)))]. *)
Definition resolveLimit (input : option Z) (max : Z) : Z :=
let given := match input with
             | Some n => if n =? 0 then 100 else n
             | None => 100
             end in
Z.max 1 (Z.min max given).

(** The WHERE clauses of [buildFilterSql], with the field join: the row
  [e] is kept when every clause that the options switch on holds. The
  join with [log_fields] on [entry_id] under [key = ?] and
  [value_text = ?], followed by SELECT DISTINCT or COUNT(DISTINCT e.id),
  keeps [e] exactly when some field row of [e] has that key and value. *)
Definition filterMatches (db : Database) (options : Interfaces.LogQueryOptions)
(e : LogEntryRow) : bool :=
match Js.truthy (Interfaces.q_from options) with
| Some from => (from <=? timestamp e)%string
| None => true
end
&& match Js.truthy (Interfaces.q_to options) with
   | Some to => (timestamp e <=? to)%string
   | None => true
   end
&& match Js.truthy (Interfaces.q_level options) with
   | Some l => (level e =? Js.toUpperCase l)%string
   | None => true
   end
&& match Interfaces.q_audit options with
   | Some a => Bool.eqb (is_audit e) a
   | None => true
   end
&& match Js.truthy (Interfaces.q_field options), Interfaces.q_value options with
   | Some k, Some v =>
       existsb (fun f => (entry_id f =? id e) && (key f =? k)%string
                         && (value_text f =? v)%string) (log_fields db)
   | _, _ => true
   end.

(** [(e.timestamp < ? OR (e.timestamp = ? AND e.id < ?))]. *)
Definition afterCursor (cursor : option Interfaces.LogCursor) (e : LogEntryRow) : bool :=
match cursor with
| None => true
| Some c =>
    (timestamp e <? Interfaces.cursor_timestamp c)%string
    || ((timestamp e =? Interfaces.cursor_timestamp c)%string
        && (id e <? Interfaces.cursor_id c))
end.

(** [ORDER BY e.timestamp DESC, e.id DESC]: [a] may stand before [b]. *)
Definition orderedBefore (a b : LogEntryRow) : bool :=
(timestamp b <? timestamp a)%string
|| ((timestamp a =? timestamp b)%string && (id b <=? id a)).

Definition OrderBy (a b : LogEntryRow) : Prop := orderedBefore a b = true.

#[global] Instance OrderBy_dec a b : Decision (OrderBy a b).
Proof. unfold OrderBy. apply _. Defined.

(** The SELECT of [queryPage] with its [LIMIT ?] argument. *)
Definition selectPage (db : Database) (options : Interfaces.LogQueryOptions)
(cursor : option Interfaces.LogCursor) (fetch : Z) : list LogEntryRow :=
take (Z.to_nat fetch)
  (merge_sort OrderBy
     (List.filter (fun e => filterMatches db options e && afterCursor cursor e)
        (log_entries db))).

Section WithRuntime.
Context `{Runtime}.

Definition mapRow (row : LogEntryRow) : Outcome Interfaces.IndexedLogEntry :=
match JSON_parse (data_json row) with
| None => Throw "SyntaxError"
| Some parsed =>
  Return {| Interfaces.id := id row;
            Interfaces.timestamp := timestamp row;
            Interfaces.level := level row;
            Interfaces.event := event row;
            Interfaces.message := message row;
            Interfaces.data := parsed;
            Interfaces.sourceFile := source_file row;
            Interfaces.lineNumber := line_number row |}
end.

Definition mapRows (rows : list LogEntryRow) : Outcome (list Interfaces.IndexedLogEntry) :=
mapM mapRow rows.

Record QueryPageResult := {
page_entries : list Interfaces.IndexedLogEntry;
page_hasMore : bool;
page_limit : Z
}.

Definition queryPage (db : Database) (options : Interfaces.LogQueryOptions)
(cursor : option Interfaces.LogCursor) : Outcome QueryPageResult :=
let limit := resolveLimit (Interfaces.q_limit options) 1000 in
let rows := selectPage db options cursor (limit + 1) in
let hasMore := limit <? Z.of_nat (length rows) in
let pageRows := if hasMore then take (Z.to_nat limit) rows else rows in
entries ← mapRows pageRows;
Return {| page_entries := entries; page_hasMore := hasMore; page_limit := limit |}.

End WithRuntime.

(** [SELECT COUNT(DISTINCT e.id) ...]. *)
Definition count (db : Database) (options : Interfaces.LogQueryOptions) : Z :=
Z.of_nat (length (List.filter (filterMatches db options) (log_entries db))).

Record PruneResult := {
normalCutoffIso : string;
auditCutoffIso : string;
normalEntriesDeleted : Z;
auditEntriesDeleted : Z;
prune_entriesDeleted : Z;
prune_fieldsDeleted : Z
}.

(** [is_audit = 0 AND timestamp < ?] and [is_audit = 1 AND timestamp < ?]. *)
Definition normalExpired (cutoff : string) (e : LogEntryRow) : bool :=
negb (is_audit e) && (timestamp e <? cutoff)%string.

Definition auditExpired (cutoff : string) (e : LogEntryRow) : bool :=
is_audit e && (timestamp e <? cutoff)%string.

(** [pruneByRetention]: the three DELETE statements in their order, each
  on the table the one before left. *)
Definition pruneByRetention (db : Database) (normalCutoff auditCutoff : string)
: Database * PruneResult :=
let ids :=
  map id (List.filter (fun e => normalExpired normalCutoff e || auditExpired auditCutoff e)
            (log_entries db)) in
let keptFields :=
  List.filter (fun f => negb (existsb (Z.eqb (entry_id f)) ids)) (log_fields db) in
let afterNormal := List.filter (fun e => negb (normalExpired normalCutoff e)) (log_entries db) in
let afterAudit := List.filter (fun e => negb (auditExpired auditCutoff e)) afterNormal in
let normalDeleted := Z.of_nat (length (log_entries db)) - Z.of_nat (length afterNormal) in
let auditDeleted := Z.of_nat (length afterNormal) - Z.of_nat (length afterAudit) in
({| log_entries := afterAudit;
    log_fields := keptFields;
    sqlite_sequence := sqlite_sequence db |},
 {| normalCutoffIso := normalCutoff;
    auditCutoffIso := auditCutoff;
    normalEntriesDeleted := normalDeleted;
    auditEntriesDeleted := auditDeleted;
    prune_entriesDeleted := normalDeleted + auditDeleted;
    prune_fieldsDeleted := Z.of_nat (length (log_fields db)) - Z.of_nat (length keptFields) |}).

Definition pruneOlderThan (db : Database) (cutoffIso : string) : Database * PruneResult :=
pruneByRetention db cutoffIso cutoffIso.

(** The values a LEFT JOIN of [log_fields] on [entry_id = e.id AND key = k]
  pairs with the row [e]; no value stands for the one row of NULLs. *)
Definition valuesOf (db : Database) (k : string) (e : LogEntryRow) : list string :=
map value_text
  (List.filter (fun f => (entry_id f =? id e) && (key f =? k)%string) (log_fields db)).

(** The group keys of the joined rows of [e]: the GROUP BY expression of
  [aggregate] for each way of grouping. *)
Definition groupKeys (db : Database) (groupBy : Interfaces.LogAggregateGroupBy)
(groupField : string) (e : LogEntryRow) : list string :=
match groupBy with
| Interfaces.groupByLevel => [level e]
| Interfaces.groupByEvent => [event e]
| Interfaces.groupByCorrelation =>
    match valuesOf db "correlationId" e with
    | [] => match valuesOf db "requestId" e with
            | [] => ["(missing)"]
            | requests => requests
            end
    | correlations => correlations
    end
| Interfaces.groupByField =>
    match valuesOf db groupField e with
    | [] => ["(missing)"]
    | values => values
    end
end.

Definition inGroup (db : Database) (groupBy : Interfaces.LogAggregateGroupBy)
(groupField : string) (k : string) (e : LogEntryRow) : bool :=
existsb (String.eqb k) (groupKeys db groupBy groupField e).

(** [ORDER BY count DESC, key ASC]: [a] may stand before [b]. *)
Definition bucketBefore (a b : Interfaces.LogAggregateBucket) : bool :=
(Interfaces.bucket_count b <? Interfaces.bucket_count a)
|| ((Interfaces.bucket_count a =? Interfaces.bucket_count b)
    && (Interfaces.bucket_key a <=? Interfaces.bucket_key b)%string).

Definition BucketOrder (a b : Interfaces.LogAggregateBucket) : Prop :=
bucketBefore a b = true.

#[global] Instance BucketOrder_dec a b : Decision (BucketOrder a b).
Proof. unfold BucketOrder. apply _. Defined.

(** The groups of the SELECT of [aggregate]: one bucket per group key,
  holding [COUNT(DISTINCT e.id)] over the rows that match the filter. *)
Definition groupsOf (db : Database) (options : Interfaces.LogQueryOptions)
(groupBy : Interfaces.LogAggregateGroupBy) (groupField : string)
: list Interfaces.LogAggregateBucket :=
let rows := List.filter (filterMatches db options) (log_entries db) in
let keys := remove_dups (flat_map (groupKeys db groupBy groupField) rows) in
map (fun k => {| Interfaces.bucket_key := k;
                 Interfaces.bucket_count :=
                   Z.of_nat (length (List.filter (inGroup db groupBy groupField k) rows)) |})
    keys.

Definition aggregate (db : Database) (options : Interfaces.LogQueryOptions)
(groupBy : Interfaces.LogAggregateGroupBy) (groupField : option string)
: Outcome (list Interfaces.LogAggregateBucket) :=
let limit := resolveLimit (Interfaces.q_limit options) 1000 in
let normalizedGroupField := Js.trim (default "" groupField) in
match groupBy with
| Interfaces.groupByField =>
    if negb (Js.nonEmpty normalizedGroupField)
    then Throw "groupField is required when groupBy=field"
    else Return (take (Z.to_nat limit)
                   (merge_sort BucketOrder (groupsOf db options groupBy normalizedGroupField)))
| _ =>
    Return (take (Z.to_nat limit)
              (merge_sort BucketOrder (groupsOf db options groupBy normalizedGroupField)))
end.

End LogDatabase.

(** ** application/services/LogQueryService.ts *)

Module LogQueryService.

Definition MAX_QUERY_LIMIT : Z := 1000.

(** [Math.max(1, Math.min(max, Math.trunc(input || fallback)))]. *)
Definition normalizeLimit (input : option Z) (fallback max : Z) : Z :=
let given := match input with
             | Some n => if n =? 0 then fallback else n
             | None => fallback
             end in
Z.max 1 (Z.min max given).

(** The cursor token is the base64url text of the JSON text of
  [{id, timestamp}]. The model keeps the token's payload: [encodeCursor]
  is the value handed to the encoder, and [decodeCursor] is the check
  the decoder makes on the parsed payload. *)
Definition encodeCursor (c : Interfaces.LogCursor) : Interfaces.LogCursor := c.

Definition decodeCursor (payload : option JsonValue) : option Interfaces.LogCursor :=
match payload with
| Some (JObj members) =>
    match Obj.get "timestamp" members, Obj.get "id" members with
    | Some (JStr ts), Some (JNum n) =>
        if n <=? 0 then None
        else Some {| Interfaces.cursor_id := n; Interfaces.cursor_timestamp := ts |}
    | _, _ => None
    end
| _ => None
end.

Section WithRuntime.
Context `{Runtime}.

(** [queryLogsPage], from the decoded cursor on. *)
Definition queryLogsPage (db : LogDatabase.Database)
(options : Interfaces.LogQueryOptions) (cursor : option Interfaces.LogCursor)
: Outcome Interfaces.LogQueryPage :=
let limit := normalizeLimit (Interfaces.q_limit options) 100 MAX_QUERY_LIMIT in
let options' :=
{| Interfaces.q_from := Interfaces.q_from options;
   Interfaces.q_to := Interfaces.q_to options;
   Interfaces.q_level := Interfaces.q_level options;
   Interfaces.q_audit := Interfaces.q_audit options;
   Interfaces.q_field := Interfaces.q_field options;
   Interfaces.q_limit := Some limit;
   Interfaces.q_value := Interfaces.q_value options;
   Interfaces.q_cursor := Interfaces.q_cursor options |} in
page ← LogDatabase.queryPage db options' cursor;
let lastEntry := last (LogDatabase.page_entries page) in
Return {| Interfaces.entries := LogDatabase.page_entries page;
        Interfaces.hasMore := LogDatabase.page_hasMore page;
        Interfaces.limit := LogDatabase.page_limit page;
        Interfaces.nextCursor :=
          match LogDatabase.page_hasMore page, lastEntry with
          | true, Some e =>
              Some (encodeCursor
                      {| Interfaces.cursor_id := Interfaces.id e;
                         Interfaces.cursor_timestamp := Interfaces.timestamp e |})
          | _, _ => None
          end |}.

Definition countLogs (db : LogDatabase.Database) (options : Interfaces.LogQueryOptions) : Z :=
LogDatabase.count db options.

End WithRuntime.

(** The object literal [{ id, timestamp }] that [encodeCursor] serializes:
  what the decoder's [JSON.parse] reads back from the token. *)
Definition cursorPayload (c : Interfaces.LogCursor) : JsonValue :=
JObj [("id", JNum (Interfaces.cursor_id c));
      ("timestamp", JStr (Interfaces.cursor_timestamp c))].

Definition withLimit (options : Interfaces.LogQueryOptions) (limit : Z)
: Interfaces.LogQueryOptions :=
{| Interfaces.q_from := Interfaces.q_from options;
   Interfaces.q_to := Interfaces.q_to options;
   Interfaces.q_level := Interfaces.q_level options;
   Interfaces.q_audit := Interfaces.q_audit options;
   Interfaces.q_field := Interfaces.q_field options;
   Interfaces.q_limit := Some limit;
   Interfaces.q_value := Interfaces.q_value options;
   Interfaces.q_cursor := Interfaces.q_cursor options |}.

Definition aggregateLogs (db : LogDatabase.Database) (options : Interfaces.LogQueryOptions)
(groupBy : Interfaces.LogAggregateGroupBy) (groupField : option string)
: Outcome (list Interfaces.LogAggregateBucket) :=
let limit := normalizeLimit (Interfaces.q_limit options) 25 MAX_QUERY_LIMIT in
LogDatabase.aggregate db (withLimit options limit) groupBy groupField.

End LogQueryService.

(** ** infrastructure/indexing/LogIndexer.ts *)

Module LogIndexer.

Import Interfaces.

(** [isScalar]: [null], a string, a number or a boolean; [undefined]
  ([None]) is none of them. *)
Definition isScalar (value : option JsonValue) : bool :=
match value with
| Some JNull | Some (JStr _) | Some (JNum _) | Some (JBool _) => true
| _ => false
end.

(** [String(value)] for a scalar. *)
Definition stringOfScalar (value : JsonValue) : string :=
match value with
| JNull => "null"
| JBool true => "true"
| JBool false => "false"
| JNum n => pretty n
| JStr s => s
| _ => "[object]"
end.

(** The path separator [sep] of [node:path] on POSIX systems. *)
Definition sep : string := "/".

Definition normalizeTimestamp (now : string) (value : option JsonValue) : string :=
match value with
| Some (JStr s) => if 0 <? Z.of_nat (String.length s) then s else now
| _ => now
end.

Definition normalizeLevel (value : option JsonValue) : string :=
match value with
| Some (JStr s) => if 0 <? Z.of_nat (String.length s) then Js.toUpperCase s else "INFO"
| _ => "INFO"
end.

Definition normalizeEvent (record : JsonValue) : Outcome string :=
ev ← Obj.prop record "event";
match ev with
| Some (JStr s) =>
    if 0 <? Z.of_nat (String.length s) then Return s
    else
      msg ← Obj.prop record "message";
      match msg with
      | Some (JStr m) => if 0 <? Z.of_nat (String.length m) then Return m else Return "log.event"
      | _ => Return "log.event"
      end
| _ =>
    msg ← Obj.prop record "message";
    match msg with
    | Some (JStr m) => if 0 <? Z.of_nat (String.length m) then Return m else Return "log.event"
    | _ => Return "log.event"
    end
end.

Definition pathHasAuditSegment (filePath : string) : bool :=
Js.includes (sep ++ "audit" ++ sep) (Js.toLowerCase filePath).

Definition normalizeAudit (record : JsonValue) (filePath : string) : Outcome bool :=
value ← Obj.prop record "audit";
match value with
| Some (JBool b) => Return b
| Some (JNum n) => Return (negb (n =? 0))
| Some (JStr s) =>
    let normalized := Js.toLowerCase (Js.trim s) in
    if (normalized =? "true")%string || (normalized =? "1")%string
       || (normalized =? "yes")%string then Return true
    else if (normalized =? "false")%string || (normalized =? "0")%string
            || (normalized =? "no")%string then Return false
    else Return (pathHasAuditSegment filePath)
| _ => Return (pathHasAuditSegment filePath)
end.

Definition createReport (m : IndexMode) : IndexReport :=
{| filesScanned := 0; linesScanned := 0; recordsInserted := 0;
   recordsSkipped := 0; parseErrors := 0; mode := m |}.

Definition setFilesScanned (n : Z) (r : IndexReport) : IndexReport :=
{| filesScanned := n; linesScanned := linesScanned r;
   recordsInserted := recordsInserted r; recordsSkipped := recordsSkipped r;
   parseErrors := parseErrors r; mode := mode r |}.
Definition incLinesScanned (r : IndexReport) : IndexReport :=
{| filesScanned := filesScanned r; linesScanned := linesScanned r + 1;
   recordsInserted := recordsInserted r; recordsSkipped := recordsSkipped r;
   parseErrors := parseErrors r; mode := mode r |}.
Definition incRecordsInserted (r : IndexReport) : IndexReport :=
{| filesScanned := filesScanned r; linesScanned := linesScanned r;
   recordsInserted := recordsInserted r + 1; recordsSkipped := recordsSkipped r;
   parseErrors := parseErrors r; mode := mode r |}.
Definition incRecordsSkipped (r : IndexReport) : IndexReport :=
{| filesScanned := filesScanned r; linesScanned := linesScanned r;
   recordsInserted := recordsInserted r; recordsSkipped := recordsSkipped r + 1;
   parseErrors := parseErrors r; mode := mode r |}.
Definition incParseErrors (r : IndexReport) : IndexReport :=
{| filesScanned := filesScanned r; linesScanned := linesScanned r;
   recordsInserted := recordsInserted r; recordsSkipped := recordsSkipped r;
   parseErrors := parseErrors r + 1; mode := mode r |}.

Record IncrementalFileState := {
byteOffset : Z;
fileSize : Z;
st_lineNumber : Z;
st_mtimeMs : Z
}.

Record FileStats := { size : Z; mtimeMs : Z }.

(** A file below the logs root as one pass sees it: its absolute path,
  its path relative to the root with [/] separators (what
  [relative(resolve(rootPath), resolve(filePath))] gives), the result of
  [stat] ([None] for ENOENT) and the bytes a read stream delivers. *)
Record LogFile := {
filePath : string;
sourceFile : string;
stat : option FileStats;
content : string
}.

(** The wall clock as a pass reads it: the ISO text of [new Date()] taken
  while the given line of the given source file is processed. *)
Definition Clock : Type := string -> Z -> string.

Record ProcessLineInput := {
pl_filePath : string;
line : string;
pl_lineNumber : Z;
report : IndexReport;
pl_sourceFile : string
}.

(** The state the indexer works on: the store and the report object
  that [processLine] updates in place. *)
Definition Store : Type := LogDatabase.Database * IndexReport.

Section WithRuntime.
Context `{Runtime}.

Definition normalizeMessage (value : option JsonValue) : string :=
match value with
| Some (JStr s) => s
| None | Some JNull => ""
| Some v => JSON_stringify v
end.

(** The loop over [Object.entries(record)]. *)
Fixpoint upsertFields (entryId : Z) (members : list (string * JsonValue))
(db : LogDatabase.Database) : Outcome LogDatabase.Database :=
match members with
| [] => Return db
| kv :: rest =>
  if isScalar (Some (snd kv))
  then
    d ← LogDatabase.upsertField db entryId (fst kv) (stringOfScalar (snd kv));
    upsertFields entryId rest d
  else upsertFields entryId rest db
end.

Definition processLine (clock : Clock) (db : LogDatabase.Database)
(input : ProcessLineInput) : Outcome Store :=
let trimmed := Js.trim (line input) in
if negb (Js.nonEmpty trimmed) then Return (db, report input)
else
match JSON_parse trimmed with
| None => Return (db, incParseErrors (report input))
| Some record =>
    ts ← Obj.prop record "timestamp";
    lv ← Obj.prop record "level";
    ev ← normalizeEvent record;
    msg ← Obj.prop record "message";
    au ← normalizeAudit record (pl_filePath input);
    '(db1, upsertResult) ← LogDatabase.upsertEntry db
       {| LogDatabase.in_timestamp :=
            normalizeTimestamp (clock (pl_sourceFile input) (pl_lineNumber input)) ts;
          LogDatabase.in_level := normalizeLevel lv;
          LogDatabase.in_event := ev;
          LogDatabase.in_message := normalizeMessage msg;
          LogDatabase.isAudit := au;
          LogDatabase.dataJson := JSON_stringify record;
          LogDatabase.sourceFile := pl_sourceFile input;
          LogDatabase.lineNumber := pl_lineNumber input |};
    if negb (LogDatabase.inserted upsertResult)
    then Return (db1, incRecordsSkipped (report input))
    else
      members ← Obj.entries record;
      db2 ← upsertFields (LogDatabase.entryId upsertResult) members db1;
      Return (db2, incRecordsInserted (report input))
end.

(** The [for await (const line of reader)] loop shared by the two
modes: [lineNumber] counts the lines consumed so far. *)
Fixpoint scanLines (clock : Clock) (file : LogFile) (lines : list string)
(lineNumber : Z) (st : Store) : Outcome (Store * Z) :=
match lines with
| [] => Return (st, lineNumber)
| l :: rest =>
  let lineNumber' := lineNumber + 1 in
  st' ← processLine clock (fst st)
         {| pl_filePath := filePath file;
            line := l;
            pl_lineNumber := lineNumber';
            report := incLinesScanned (snd st);
            pl_sourceFile := sourceFile file |};
  scanLines clock file rest lineNumber' st'
end.

Definition indexFileFull (clock : Clock) (file : LogFile) (st : Store) : Outcome Store :=
r ← scanLines clock file (readLines (content file)) 0 st;
Return (fst r).

Fixpoint forEachFile {S : Type} (step : LogFile -> S -> Outcome S)
(files : list LogFile) (s : S) : Outcome S :=
match files with
| [] => Return s
| f :: rest => s' ← step f s; forEachFile step rest s'
end.

(** [indexDirectory], from the sorted list of [.ndjson] files that
[listNdjsonFiles] found. *)
Definition indexDirectory (clock : Clock) (files : list LogFile)
(db : LogDatabase.Database) : Outcome Store :=
let report := setFilesScanned (Z.of_nat (length files)) (createReport full) in
forEachFile (indexFileFull clock) files (db, report).

Definition IncrementalState : Type := gmap string IncrementalFileState.


Definition hasValidOffset (previousState : option IncrementalFileState) : bool :=
match previousState with
| Some p => 0 <=? byteOffset p
| None => false
end.

Definition rewrittenInPlace (fileStats : FileStats)
(previousState : option IncrementalFileState) : bool :=
match previousState with
| Some p =>
  (size fileStats <? byteOffset p)
  || (negb (mtimeMs fileStats =? st_mtimeMs p) && (size fileStats =? byteOffset p))
| None => false
end.

Definition shouldResume (fileStats : FileStats)
(previousState : option IncrementalFileState) : bool :=
hasValidOffset previousState
&& negb (rewrittenInPlace fileStats previousState)
&& match previousState with
 | Some p => byteOffset p <=? size fileStats
 | None => false
 end.

(** The bytes a read stream opened at [start] delivers. *)
Definition readFrom (start : Z) (bytes : string) : string :=
Js.sliceFrom start bytes.

Definition indexFileIncremental (clock : Clock) (file : LogFile)
(s : IncrementalState * Store) : Outcome (IncrementalState * Store) :=
let '(incrementalState, (db, rep)) := s in
match stat file with
| None => Return (delete (filePath file) incrementalState, (db, rep))
| Some fileStats =>
  let previousState := incrementalState !! filePath file in
  let resume := shouldResume fileStats previousState in
  let db1 :=
    if bool_decide (is_Some previousState) && hasValidOffset previousState
       && negb resume
    then fst (LogDatabase.deleteEntriesForSourceFile db (sourceFile file))
    else db in
  let startOffset :=
    match previousState with
    | Some p => if resume then byteOffset p else 0
    | None => 0
    end in
  let lineNumber0 :=
    match previousState with
    | Some p => if resume then st_lineNumber p else 0
    | None => 0
    end in
  let chunk := readFrom startOffset (content file) in
  let bytesRead := Z.of_nat (String.length chunk) in
  r ← scanLines clock file (readLines chunk) lineNumber0 (db1, rep);
  Return (<[filePath file :=
             {| byteOffset := startOffset + bytesRead;
                fileSize := size fileStats;
                st_lineNumber := snd r;
                st_mtimeMs := mtimeMs fileStats |}]> incrementalState,
          fst r)
end.

Definition dropUnknown (files : list LogFile) (incrementalState : IncrementalState)
: IncrementalState :=
filter (fun kv => bool_decide (fst kv ∈ map filePath files)) incrementalState.

Definition indexDirectoryIncremental (clock : Clock) (files : list LogFile)
(incrementalState : IncrementalState) (db : LogDatabase.Database)
: Outcome (IncrementalState * Store) :=
let report := setFilesScanned (Z.of_nat (length files)) (createReport incremental) in
r ← forEachFile (indexFileIncremental clock) files (incrementalState, (db, report));
Return (dropUnknown files (fst r), snd r).

End WithRuntime.

End LogIndexer.

(** ** A reference runtime

    An executable instance of [Runtime], used to run the model on concrete
    inputs. It agrees with the JavaScript built-ins on the fragment it
    accepts: JSON texts whose numbers are integers and whose strings hold
    no escape sequence, and base64 texts in the standard alphabet. *)

Module Reference.

Definition dq : ascii := Js.dq.
Definition backslash : ascii := "092"%char.
Definition LF : ascii := "010"%char.
Definition CR : ascii := "013"%char.

Definition quoted : string -> string := Js.quoted.

Definition isJsonSpace (c : ascii) : bool :=
let n := N_of_ascii c in
(n =? 9)%N || (n =? 10)%N || (n =? 13)%N || (n =? 32)%N.

Fixpoint skipWs (s : string) : string :=
match s with
| EmptyString => EmptyString
| String c rest => if isJsonSpace c then skipWs rest else s
end.

Fixpoint digits (s : string) (acc : Z) (seen : bool) : option (Z * string) :=
match s with
| String c rest =>
    if Js.isDigit c then digits rest (acc * 10 + (Z.of_N (N_of_ascii c) - 48)) true
    else if seen then Some (acc, s) else None
| EmptyString => if seen then Some (acc, s) else None
end.

Fixpoint untilQuote (s : string) : option (string * string) :=
match s with
| EmptyString => None
| String c rest =>
    if Ascii.eqb c dq then Some (EmptyString, rest)
    else if Ascii.eqb c backslash || (N_of_ascii c <? 32)%N then None
    else match untilQuote rest with
         | Some (body, r) => Some (String c body, r)
         | None => None
         end
end.

Definition dropChars (n : nat) (s : string) : string :=
String.substring n (String.length s - n) s.

Definition normalizeMembers (members : list (string * JsonValue))
: list (string * JsonValue) :=
fold_left (fun acc kv => Obj.set (fst kv) (snd kv) acc) members [].

Fixpoint parseValue (fuel : nat) (text : string) : option (JsonValue * string) :=
match fuel with
| O => None
| S fuel' =>
    let s := skipWs text in
    if String.prefix "null" s then Some (JNull, dropChars 4 s)
    else if String.prefix "true" s then Some (JBool true, dropChars 4 s)
    else if String.prefix "false" s then Some (JBool false, dropChars 5 s)
    else
      match s with
      | EmptyString => None
      | String c rest =>
          if Ascii.eqb c dq then
            match untilQuote rest with
            | Some (body, r) => Some (JStr body, r)
            | None => None
            end
          else if Ascii.eqb c "-" then
            match digits rest 0 false with
            | Some (n, r) => Some (JNum (- n), r)
            | None => None
            end
          else if Js.isDigit c then
            match digits s 0 false with
            | Some (n, r) => Some (JNum n, r)
            | None => None
            end
          else if Ascii.eqb c "[" then
            match skipWs rest with
            | String "]" r => Some (JArr [], r)
            | _ => match parseItems fuel' rest with
                   | Some (items, r) => Some (JArr items, r)
                   | None => None
                   end
            end
          else if Ascii.eqb c "{" then
            match skipWs rest with
            | String "}" r => Some (JObj [], r)
            | _ => match parseMembers fuel' rest with
                   | Some (members, r) => Some (JObj (normalizeMembers members), r)
                   | None => None
                   end
            end
          else None
      end
end
with parseItems (fuel : nat) (text : string) : option (list JsonValue * string) :=
match fuel with
| O => None
| S fuel' =>
    match parseValue fuel' text with
    | None => None
    | Some (v, r) =>
        match skipWs r with
        | String "," r' =>
            match parseItems fuel' r' with
            | Some (vs, r'') => Some (v :: vs, r'')
            | None => None
            end
        | String "]" r' => Some ([v], r')
        | _ => None
        end
    end
end
with parseMembers (fuel : nat) (text : string)
: option (list (string * JsonValue) * string) :=
match fuel with
| O => None
| S fuel' =>
    match skipWs text with
    | String c rest =>
        if Ascii.eqb c dq then
          match untilQuote rest with
          | None => None
          | Some (k, afterKey) =>
              match skipWs afterKey with
              | String ":" afterColon =>
                  match parseValue fuel' afterColon with
                  | None => None
                  | Some (v, r) =>
                      match skipWs r with
                      | String "," r' =>
                          match parseMembers fuel' r' with
                          | Some (ms, r'') => Some ((k, v) :: ms, r'')
                          | None => None
                          end
                      | String "}" r' => Some ([(k, v)], r')
                      | _ => None
                      end
                  end
              | _ => None
              end
          end
        else None
    | EmptyString => None
    end
end.

Definition parse (text : string) : option JsonValue :=
match parseValue (2 * String.length text + 2) text with
| Some (v, rest) =>
    match skipWs rest with
    | EmptyString => Some v
    | _ => None
    end
| None => None
end.

Fixpoint stringify (v : JsonValue) : string :=
match v with
| JNull => "null"
| JBool true => "true"
| JBool false => "false"
| JNum n => pretty n
| JStr s => quoted s
| JArr items =>
    "[" ++ (fix go (l : list JsonValue) : string :=
              match l with
              | [] => EmptyString
              | [x] => stringify x
              | x :: rest => stringify x ++ "," ++ go rest
              end) items ++ "]"
| JObj members =>
    "{" ++ (fix go (l : list (string * JsonValue)) : string :=
              match l with
              | [] => EmptyString
              | [(k, x)] => quoted k ++ ":" ++ stringify x
              | (k, x) :: rest => quoted k ++ ":" ++ stringify x ++ "," ++ go rest
              end) members ++ "}"
end.

(** Lines end at LF, CR LF or CR; a last line with no terminator is a
  line when it is not empty. *)
Fixpoint lines (s : string) : list string :=
match s with
| EmptyString => []
| String c rest =>
    if Ascii.eqb c LF then EmptyString :: lines rest
    else if Ascii.eqb c CR then
      match rest with
      | String d rest' =>
          if Ascii.eqb d LF then EmptyString :: lines rest'
          else EmptyString :: lines rest
      | EmptyString => [EmptyString]
      end
    else match lines rest with
         | [] => [String c EmptyString]
         | l :: ls => String c l :: ls
         end
end.

Definition sextet (c : ascii) : option N :=
let n := N_of_ascii c in
if Js.isUpper c then Some (n - 65)%N
else if Js.isLower c then Some (n - 71)%N
else if Js.isDigit c then Some (n + 4)%N
else if Ascii.eqb c "+" then Some 62%N
else if Ascii.eqb c "/" then Some 63%N
else None.

Fixpoint sextets (s : string) : list N :=
match s with
| EmptyString => []
| String c rest =>
    match sextet c with
    | Some v => v :: sextets rest
    | None => sextets rest
    end
end.

Definition byte (n : N) : ascii := ascii_of_N (n mod 256).

Fixpoint octets (l : list N) : string :=
match l with
| a :: b :: c :: d :: rest =>
    String (byte (a * 4 + b / 16))
      (String (byte (b * 16 + c / 4))
         (String (byte (c * 64 + d)) (octets rest)))
| [a; b; c] =>
    String (byte (a * 4 + b / 16)) (String (byte (b * 16 + c / 4)) EmptyString)
| [a; b] => String (byte (a * 4 + b / 16)) EmptyString
| _ => EmptyString
end%N.

Definition decode64 (s : string) : string := octets (sextets s).

#[global] Instance refRuntime : Runtime := {|
JSON_parse := parse;
JSON_stringify := stringify;
base64_decode := decode64;
readLines := lines
|}.

End Reference.

(** ** usecases/alerting.ts *)

Module Alerting.

Record AlertPolicy := {
enabled : bool;
webhookUrl : option string;
intervalMs : Z;
windowMinutes : Z;
errorThreshold : Z;
noLogsThresholdMinutes : Z;
cooldownMs : Z;
webhookTimeoutMs : Z;
webhookRetryAttempts : Z;
webhookBackoffMs : Z
}.

(** [AlertState]; a time stamp is the millisecond count of its ISO text
  ([Date.parse] of [toISOString] is the identity on milliseconds). The
  members [lastRunAt], [lastSuccessAt] and [lastDurationMs] are reports
  that no operation reads back. *)
Record AlertState := {
running : bool;
runs : Z;
sent : Z;
suppressed : Z;
lastError : option string;
lastTriggerAtByRule : gmap string Z
}.

Definition createAlertState : AlertState :=
{| running := false; runs := 0; sent := 0; suppressed := 0;
   lastError := None; lastTriggerAtByRule := ∅ |}.

(** [AlertWebhookError]. *)
Record AlertWebhookError := { errorMessage : string; retryable : bool }.

(** What one call of [fetch] does: a response with its status and body,
  an abort by the timeout signal, or any other failure. *)
Inductive FetchResult :=
| Response (status : Z) (body : string)
| AbortError
| NetworkError (message : string).

(** What the environment sees of a delivery. *)
Inductive Event :=
| Fetch (rule : string) (attempt : Z)
| Sleep (durationMs : Z)
| Delivered (rule : string) (cycleNowMs sentAtMs : Z)
| Suppressed (rule : string).

Definition shouldRetryWebhookStatus (status : Z) : bool :=
(status =? 408) || (status =? 429) || (500 <=? status).

(** [response.ok] *)
Definition responseOk (status : Z) : bool := (200 <=? status) && (status <=? 299).

Definition failureOf (policy : AlertPolicy) (r : FetchResult) : AlertWebhookError :=
match r with
| Response status body =>
    let snippet := Js.sliceTo 240 body in
    {| errorMessage :=
         "Alert webhook failed (" ++ pretty status ++ ")"
         ++ (if Js.nonEmpty snippet then ": " ++ snippet else "");
       retryable := shouldRetryWebhookStatus status |}
| AbortError =>
    {| errorMessage :=
         "Alert webhook timeout after " ++ pretty (webhookTimeoutMs policy) ++ "ms";
       retryable := true |}
| NetworkError message => {| errorMessage := message; retryable := true |}
end.

(** The [for] loop of [sendAlertWebhook]: [fetch attempt] is what the
  target does at that attempt, [fuel] bounds the iterations left. The
  result is the trace of calls and sleeps and how the function ends. *)
Fixpoint attempts (rule : string) (fetch : Z -> FetchResult) (policy : AlertPolicy)
(fuel : nat) (attempt : Z) (lastError : option AlertWebhookError)
: list Event * Outcome unit :=
let giveUp :=
  Throw (match lastError with
         | Some e => errorMessage e
         | None => "Alert webhook failed after retries"
         end) in
match fuel with
| O => ([], giveUp)
| S fuel' =>
    if attempt <=? webhookRetryAttempts policy then
      match fetch attempt with
      | Response status body as r =>
          if responseOk status then ([Fetch rule attempt], Return tt)
          else
            let reason := failureOf policy r in
            if negb (retryable reason) || (webhookRetryAttempts policy <=? attempt)
            then ([Fetch rule attempt], Throw (errorMessage reason))
            else
              let delayMs := webhookBackoffMs policy * 2 ^ (attempt - 1) in
              let '(trace, result) :=
                attempts rule fetch policy fuel' (attempt + 1) (Some reason) in
              (Fetch rule attempt :: Sleep delayMs :: trace, result)
      | r =>
          let reason := failureOf policy r in
          if negb (retryable reason) || (webhookRetryAttempts policy <=? attempt)
          then ([Fetch rule attempt], Throw (errorMessage reason))
          else
            let delayMs := webhookBackoffMs policy * 2 ^ (attempt - 1) in
            let '(trace, result) :=
              attempts rule fetch policy fuel' (attempt + 1) (Some reason) in
            (Fetch rule attempt :: Sleep delayMs :: trace, result)
      end
    else ([], giveUp)
end.

Definition sendAlertWebhook (rule : string) (fetch : Z -> FetchResult)
(policy : AlertPolicy) : list Event * Outcome unit :=
attempts rule fetch policy (Z.to_nat (webhookRetryAttempts policy)) 1 None.

(** What one cycle reads from outside the manager: the clock at its
  start, the counts the query service gives for a window start (in
  milliseconds) and an optional level, the behaviour of the webhook
  target per rule and attempt, and the clock after the delivery for a
  rule. *)
Record CycleEnv := {
nowMs : Z;
countLogs : Z -> option string -> Z;
fetch : string -> Z -> FetchResult;
sentAtMs : string -> Z
}.

Record Trigger := { rule : string; severity : string }.

Definition triggersOf (policy : AlertPolicy) (env : CycleEnv) : list Trigger :=
let windowStart := nowMs env - windowMinutes policy * 60000 in
let errorCount := countLogs env windowStart (Some "ERROR") in
((if errorThreshold policy <=? errorCount
  then [{| rule := "error_threshold"; severity := "critical" |}] else [])
 ++ (if 0 <? noLogsThresholdMinutes policy
    then
      let noLogsStart := nowMs env - noLogsThresholdMinutes policy * 60000 in
      if countLogs env noLogsStart None =? 0
      then [{| rule := "no_logs"; severity := "warning" |}] else []
    else []))%list.

Definition withSuppressed (s : AlertState) : AlertState :=
{| running := running s; runs := runs s; sent := sent s;
   suppressed := suppressed s + 1; lastError := lastError s;
   lastTriggerAtByRule := lastTriggerAtByRule s |}.

Definition withSent (r : string) (at_ : Z) (s : AlertState) : AlertState :=
{| running := running s; runs := runs s; sent := sent s + 1;
   suppressed := suppressed s; lastError := lastError s;
   lastTriggerAtByRule := <[r := at_]> (lastTriggerAtByRule s) |}.

Definition inCooldown (policy : AlertPolicy) (env : CycleEnv) (s : AlertState)
(r : string) : bool :=
match lastTriggerAtByRule s !! r with
| Some lastSentMs => nowMs env - lastSentMs <? cooldownMs policy
| None => false
end.

(** The body of [for (const trigger of triggers)]. *)
Definition handleTrigger (policy : AlertPolicy) (env : CycleEnv) (s : AlertState)
(t : Trigger) : list Event * Outcome AlertState :=
if inCooldown policy env s (rule t) then ([Suppressed (rule t)], Return (withSuppressed s))
else
  match sendAlertWebhook (rule t) (fetch env (rule t)) policy with
  | (trace, Return _) =>
      ((trace ++ [Delivered (rule t) (nowMs env) (sentAtMs env (rule t))])%list,
       Return (withSent (rule t) (sentAtMs env (rule t)) s))
  | (trace, Throw e) => (trace, Throw e)
  end.

Fixpoint handleTriggers (policy : AlertPolicy) (env : CycleEnv) (s : AlertState)
(ts : list Trigger) : list Event * (AlertState * option string) :=
match ts with
| [] => ([], (s, None))
| t :: rest =>
    match handleTrigger policy env s t with
    | (trace, Return s') =>
        let '(trace', r) := handleTriggers policy env s' rest in ((trace ++ trace')%list, r)
    | (trace, Throw e) => (trace, (s, Some e))
    end
end.

(** [runCycle]: the state after the cycle and what the cycle did. *)
Definition runCycle (policy : AlertPolicy) (env : CycleEnv) (s : AlertState)
: list Event * AlertState :=
if negb (enabled policy) || negb (bool_decide (is_Some (Js.truthy (webhookUrl policy))))
then ([], s)
else if running s then ([], s)
else
  let started :=
    {| running := true; runs := runs s + 1; sent := sent s;
       suppressed := suppressed s; lastError := lastError s;
       lastTriggerAtByRule := lastTriggerAtByRule s |} in
  let '(trace, (s', failure)) :=
    handleTriggers policy env started (triggersOf policy env) in
  (trace,
   {| running := false; runs := runs s'; sent := sent s';
      suppressed := suppressed s'; lastError := failure;
      lastTriggerAtByRule := lastTriggerAtByRule s' |}).

(** A run of the scheduler: one policy and one environment per cycle. *)
Fixpoint runCycles (cycles : list (AlertPolicy * CycleEnv)) (s : AlertState)
: list Event * AlertState :=
match cycles with
| [] => ([], s)
| (policy, env) :: rest =>
    let '(trace, s') := runCycle policy env s in
    let '(trace', s'') := runCycles rest s' in
    ((trace ++ trace')%list, s'')
end.

End Alerting.

(** ** [node:path] on POSIX systems *)

Module Path.

(** The segments of a normalized path, kept in reverse while scanning:
  [.] and empty segments vanish, [..] removes the segment before it
  (at the root of an absolute path it vanishes, at the start of a
  relative path it stays). *)
Definition pushSegment (absolute : bool) (acc : list string) (seg : string) : list string :=
if (seg =? "")%string || (seg =? ".")%string then acc
else if (seg =? "..")%string then
  match acc with
  | top :: rest => if (top =? "..")%string then seg :: acc else rest
  | [] => if absolute then [] else [seg]
  end
else seg :: acc.

Definition normalize (p : string) : string :=
let absolute := String.prefix "/" p in
let segments := rev (fold_left (pushSegment absolute) (Js.splitChar "/" p) []) in
((if absolute then "/" else "") ++ String.concat "/" segments)%string.

(** [join(...parts)]: the non-empty parts joined by [/], normalized. *)
Definition join (parts : list string) : string :=
normalize (String.concat "/" (List.filter Js.nonEmpty parts)).

End Path.

(** ** usecases/auth.ts *)

Module Auth.

Record BasicAuthPolicy := {
enabled : bool;
password : option string;
username : option string
}.

(** [createBasicAuthPolicy], from the configured user name and password
  (options before the environment). *)
Definition createBasicAuthPolicy (authUsername authPassword : option string)
: Outcome BasicAuthPolicy :=
let username := Js.trim (default "" authUsername) in
let hasPassword := bool_decide (is_Some (Js.truthy authPassword)) in
if (Js.nonEmpty username && negb hasPassword) || (negb (Js.nonEmpty username) && hasPassword)
then Throw "Basic auth requires both authUsername and authPassword."
else if negb (Js.nonEmpty username) || negb hasPassword
then Return {| enabled := false; password := None; username := None |}
else Return {| enabled := true; password := authPassword; username := Some username |}.

(** [const [scheme, value] = header.split(" ")] with the scheme in lower
  case; [value] is [None] when it is missing or empty. *)
Definition schemeAndValue (header : option string) : option (string * option string) :=
match Js.truthy header with
| None => None
| Some h =>
    match Js.splitChar " " h with
    | scheme :: rest => Some (Js.toLowerCase scheme, Js.truthy (head rest))
    | [] => None
    end
end.

Definition getAuthorizationToken (authorization : option string) : option string :=
match schemeAndValue authorization with
| Some (scheme, Some token) => if (scheme =? "bearer")%string then Some token else None
| _ => None
end.

Section WithRuntime.
Context `{Runtime}.

Definition getBasicAuthCredentials (authorization : option string)
: option (string * string) :=
match schemeAndValue authorization with
| Some (scheme, Some encoded) =>
  if (scheme =? "basic")%string then
    let decoded := base64_decode encoded in
    let separator := Js.indexOfChar ":" decoded in
    if separator <=? 0 then None
    else Some (Js.sliceTo separator decoded, Js.sliceFrom (separator + 1) decoded)
  else None
| _ => None
end.

Definition getAuthenticatedBasicUsername (authorization : option string)
(policy : BasicAuthPolicy) : option string :=
match enabled policy, Js.truthy (username policy), password policy with
| true, Some policyUser, Some policyPassword =>
  match getBasicAuthCredentials authorization with
  | Some (user, pass) =>
      if negb (user =? policyUser)%string then None
      else if negb (pass =? policyPassword)%string then None
      else Some user
  | None => None
  end
| _, _, _ => None
end.

Definition resolveIngestProducerId (authorization : option string)
(basicAuth : BasicAuthPolicy) (producerByToken : gmap string string) : option string :=
match Js.truthy (getAuthenticatedBasicUsername authorization basicAuth) with
| Some basicUsername => Some basicUsername
| None =>
  match getAuthorizationToken authorization with
  | None => None
  | Some token => producerByToken !! token
  end
end.

Definition isApiAuthorized (authorization : option string) (apiToken : option string)
(basicAuth : BasicAuthPolicy) : bool :=
let hasBearerAuth := bool_decide (is_Some (Js.truthy apiToken)) in
let hasBasicAuth := enabled basicAuth in
if negb hasBearerAuth && negb hasBasicAuth then true
else if hasBearerAuth && bool_decide (getAuthorizationToken authorization = apiToken) then true
else bool_decide (is_Some (getAuthenticatedBasicUsername authorization basicAuth)).

End WithRuntime.

End Auth.

(** ** usecases/ingest.ts *)

Module Ingest.

Definition isAlnum (c : ascii) : bool := Js.isUpper c || Js.isLower c || Js.isDigit c.

Definition isIdChar (c : ascii) : bool :=
isAlnum c || Ascii.eqb c "." || Ascii.eqb c "_" || Ascii.eqb c "-".

(** [/^[A-Za-z0-9][A-Za-z0-9._-]{0,127}$/.test(s)] *)
Definition PRODUCER_ID_PATTERN (s : string) : bool :=
match s with
| EmptyString => false
| String c rest =>
    isAlnum c && (Z.of_nat (String.length rest) <=? 127) && Js.allChars isIdChar rest
end.

(** [PRODUCER_ID_PATTERN.source] *)
Definition PRODUCER_ID_PATTERN_source : string := "^[A-Za-z0-9][A-Za-z0-9._-]{0,127}$".

Definition parseMapping (mappings : gmap string string) (entry : string)
: Outcome (gmap string string) :=
let separatorIndex := Js.indexOfChar "=" entry in
if (separatorIndex <=? 0) || (separatorIndex =? Z.of_nat (String.length entry) - 1)
then Throw ("Invalid ingest producer mapping " ++ Js.quoted entry
            ++ ". Expected " ++ Js.quoted "token=producerId" ++ ".")
else
  let token := Js.trim (Js.sliceTo separatorIndex entry) in
  let producerId := Js.trim (Js.sliceFrom (separatorIndex + 1) entry) in
  if negb (Js.nonEmpty token) || negb (Js.nonEmpty producerId)
  then Throw ("Invalid ingest producer mapping " ++ Js.quoted entry
              ++ ". Expected non-empty token and producerId.")
  else if negb (PRODUCER_ID_PATTERN producerId)
  then Throw ("Invalid producerId " ++ Js.quoted producerId
              ++ ". Allowed pattern: " ++ PRODUCER_ID_PATTERN_source)
  else if bool_decide (is_Some (mappings !! token))
  then Throw "Duplicate ingest producer mapping token detected."
  else Return (<[token := producerId]> mappings).

Fixpoint parseMappings (mappings : gmap string string) (entries : list string)
: Outcome (gmap string string) :=
match entries with
| [] => Return mappings
| entry :: rest => m ← parseMapping mappings entry; parseMappings m rest
end.

Definition parseIngestProducerMappings (value : option string)
: Outcome (gmap string string) :=
match value with
| None => Return ∅
| Some v =>
    if negb (Js.nonEmpty (Js.trim v)) then Return ∅
    else parseMappings ∅ (List.filter Js.nonEmpty (map Js.trim (Js.splitChar "," v)))
end.

Record IngestAuthPolicy := {
enabled : bool;
maxBodyBytes : Z;
producerByToken : gmap string string
}.

Definition DEFAULT_INGEST_MAX_BODY_BYTES : Z := 1048576.

(** [createIngestAuthPolicy], from the configured mapping text and body
  limit (options before the environment). *)
Definition createIngestAuthPolicy (ingestProducers : option string)
(ingestMaxBodyBytes : option Z) : Outcome IngestAuthPolicy :=
producers ← parseIngestProducerMappings ingestProducers;
let given := match ingestMaxBodyBytes with
             | Some n => if n <? 0 then DEFAULT_INGEST_MAX_BODY_BYTES else n
             | None => DEFAULT_INGEST_MAX_BODY_BYTES
             end in
Return {| enabled := bool_decide (size producers ≠ 0%nat);
          maxBodyBytes := Z.max 1024 given;
          producerByToken := producers |}.

Record IngestQueuePolicy := { queueEnabled : bool; flushMs : Z }.

Definition LogObject : Type := list (string * JsonValue).

Record IngestQueueItem := { producerId : string; records : list LogObject }.

(** [IngestQueueState] without its timer handle and its two reports
  [lastError] and [lastFlushAt]. *)
Record IngestQueueState := {
batchesFlushed : Z;
batchesQueued : Z;
draining : bool;
pending : list IngestQueueItem;
pendingRecords : Z;
recordsFlushed : Z;
recordsQueued : Z
}.

Definition createIngestQueueState : IngestQueueState :=
{| batchesFlushed := 0; batchesQueued := 0; draining := false; pending := [];
   pendingRecords := 0; recordsFlushed := 0; recordsQueued := 0 |}.

Definition parseIngestPayload (payload : JsonValue) : option (list JsonValue) :=
match payload with
| JArr items => Some items
| JObj members =>
    match Obj.get "logs" members with
    | Some (JArr logs) => Some logs
    | _ => None
    end
| _ => None
end.

Definition normalizeIngestRecord (value : JsonValue) (producerId receivedAt : string)
: option LogObject :=
match value with
| JObj members =>
    let record := members in
    let record := Obj.set "producerId" (JStr producerId) record in
    let record := Obj.set "ingestedAt" (JStr receivedAt) record in
    Some record
| _ => None
end.

(** The files below the logs root: path to content. *)
Definition Disk : Type := gmap string string.

Definition appendFile (disk : Disk) (path text : string) : Disk :=
<[path := (default "" (disk !! path) ++ text)%string]> disk.

Fixpoint addToProducer (item : IngestQueueItem) (merged : list IngestQueueItem)
: list IngestQueueItem :=
match merged with
| [] => [item]
| m :: rest =>
    if (producerId m =? producerId item)%string
    then {| producerId := producerId m; records := records m ++ records item |} :: rest
    else m :: addToProducer item rest
end.

Definition mergeIngestQueueItems (items : list IngestQueueItem) : list IngestQueueItem :=
fold_left (fun merged item => addToProducer item merged) items [].

Section WithRuntime.
Context `{Runtime}.

Definition targetFileOf (logsPath producerId dayLabel : string) : string :=
let producerDirectory := Path.join [logsPath; "ingest"; producerId] in
Path.join [producerDirectory; (dayLabel ++ ".ndjson")%string].

(** [writeIngestBatch]; [logsPath] is the resolved logs root and
[dayLabel] the first ten characters of the current ISO time. *)
Definition writeIngestBatch (disk : Disk) (logsPath producerId : string)
(records : list LogObject) (dayLabel : string) : Disk :=
match records with
| [] => disk
| _ =>
  let lines := String.concat (String "010"%char EmptyString)
                 (map (fun r => JSON_stringify (JObj r)) records) in
  appendFile disk (targetFileOf logsPath producerId dayLabel)
    (lines ++ String "010"%char EmptyString)%string
end.

Definition sumRecords (items : list IngestQueueItem) : Z :=
fold_left (fun sum item => sum + Z.of_nat (length (records item))) items 0.

(** [flushIngestQueueBatch] up to the write; the incremental indexing
pass that follows it is [LogIndexer.indexDirectoryIncremental]. *)
Definition flushIngestQueueBatch (disk : Disk) (logsPath dayLabel : string)
(queue : IngestQueueState) (items : list IngestQueueItem) : Disk * IngestQueueState :=
match items with
| [] => (disk, queue)
| _ =>
  let merged := mergeIngestQueueItems items in
  let disk' :=
    fold_left (fun d item => writeIngestBatch d logsPath (producerId item)
                               (records item) dayLabel) merged disk in
  (disk',
   {| batchesFlushed := batchesFlushed queue + Z.of_nat (length merged);
      batchesQueued := batchesQueued queue;
      draining := draining queue;
      pending := pending queue;
      pendingRecords := pendingRecords queue;
      recordsFlushed := recordsFlushed queue + sumRecords merged;
      recordsQueued := recordsQueued queue |})
end.

Definition enqueueIngestQueueBatch (queue : IngestQueueState) (item : IngestQueueItem)
: IngestQueueState :=
match records item with
| [] => queue
| _ =>
  let n := Z.of_nat (length (records item)) in
  {| batchesFlushed := batchesFlushed queue;
     batchesQueued := batchesQueued queue + 1;
     draining := draining queue;
     pending := pending queue ++ [item];
     pendingRecords := pendingRecords queue + n;
     recordsFlushed := recordsFlushed queue;
     recordsQueued := recordsQueued queue + n |}
end.

Definition withPending (queue : IngestQueueState) (items : list IngestQueueItem)
(count : Z) : IngestQueueState :=
{| batchesFlushed := batchesFlushed queue;
   batchesQueued := batchesQueued queue;
   draining := draining queue;
   pending := items;
   pendingRecords := count;
   recordsFlushed := recordsFlushed queue;
   recordsQueued := recordsQueued queue |}.

Definition withDraining (queue : IngestQueueState) (flag : bool) : IngestQueueState :=
{| batchesFlushed := batchesFlushed queue;
   batchesQueued := batchesQueued queue;
   draining := flag;
   pending := pending queue;
   pendingRecords := pendingRecords queue;
   recordsFlushed := recordsFlushed queue;
   recordsQueued := recordsQueued queue |}.

(** The [while] loop of [drainIngestQueue]. A turn takes everything that
  is pending and flushes it; while the flush is awaited, requests may
  put more items on the queue. [turns] holds, for each turn after the
  first, the items that arrived during the flush before it and the day
  label of its clock; when it is used up nothing more arrives. The
  file system does not fail here, so no flush throws and the [catch]
  branch, which puts the items back, is not entered. *)
Fixpoint drainLoop (disk : Disk) (logsPath dayLabel : string) (queue : IngestQueueState)
(turns : list (list IngestQueueItem * string)) : Disk * IngestQueueState :=
match pending queue with
| [] => (disk, queue)
| pendingItems =>
  let pendingRecordCount := sumRecords pendingItems in
  let queue := withPending queue [] (pendingRecords queue - pendingRecordCount) in
  let '(disk, queue) := flushIngestQueueBatch disk logsPath dayLabel queue pendingItems in
  match turns with
  | [] => (disk, queue)
  | (arrived, nextLabel) :: turns =>
      drainLoop disk logsPath nextLabel
        (fold_left enqueueIngestQueueBatch arrived queue) turns
  end
end.

Definition drainIngestQueue (disk : Disk) (logsPath dayLabel : string)
(queue : IngestQueueState) (turns : list (list IngestQueueItem * string))
: Disk * IngestQueueState :=
if draining queue then (disk, queue)
else
  let '(disk, queue) := drainLoop disk logsPath dayLabel (withDraining queue true) turns in
  (disk, withDraining queue false).

End WithRuntime.

End Ingest.

(** ** application/server/handleRequest.ts: [POST /api/ingest] *)

Module HandleRequest.

Record RequestContext := {
ingestAuthPolicy : Ingest.IngestAuthPolicy;
basicAuth : Auth.BasicAuthPolicy;
ingestQueuePolicy : Ingest.IngestQueuePolicy;
ingestQueueState : Ingest.IngestQueueState;
logsPath : string;
disk : Ingest.Disk
}.

Record Request := { authorization : option string; rawBody : string }.

Record IngestResponse := {
accepted : Z;
queued : bool;
producerId : string;
receivedAt : string;
rejected : Z
}.

Inductive Body :=
| ErrorBody (error : string)
| IngestBody (r : IngestResponse).

Record Response := { statusCode : Z; body : Body }.

Section WithRuntime.
Context `{Runtime}.

(** [readJsonBody] on the bytes of the request body. *)
Definition readJsonBody (raw : string) (maxBodyBytes : Z) : Outcome JsonValue :=
if maxBodyBytes <? Z.of_nat (String.length raw)
then Throw ("Payload too large. Max body size is " ++ pretty maxBodyBytes ++ " bytes.")
else
let text := Js.trim raw in
if negb (Js.nonEmpty text) then Return (JArr [])
else match JSON_parse text with
     | Some v => Return v
     | None => Throw "Invalid JSON payload."
     end.

(** The loop over [logs]: the accepted records and the rejected count. *)
Fixpoint normalizeAll (logs : list JsonValue) (producerId receivedAt : string)
: list Ingest.LogObject * Z :=
match logs with
| [] => ([], 0)
| log :: rest =>
  let '(accepted, rejected) := normalizeAll rest producerId receivedAt in
  match Ingest.normalizeIngestRecord log producerId receivedAt with
  | None => (accepted, rejected + 1)
  | Some normalized => (normalized :: accepted, rejected)
  end
end.

Definition withEffects (context : RequestContext) (d : Ingest.Disk)
(q : Ingest.IngestQueueState) : RequestContext :=
{| ingestAuthPolicy := ingestAuthPolicy context;
 basicAuth := basicAuth context;
 ingestQueuePolicy := ingestQueuePolicy context;
 ingestQueueState := q;
 logsPath := logsPath context;
 disk := d |}.

(** The [/api/ingest] branch of [handleRequest]; [now] is the ISO text
of the clock when the request is handled. *)
Definition handleIngest (context : RequestContext) (req : Request) (now : string)
: RequestContext * Response :=
if negb (Ingest.enabled (ingestAuthPolicy context))
 && negb (Auth.enabled (basicAuth context))
then (context, {| statusCode := 404; body := ErrorBody "Ingest endpoint is not enabled." |})
else
match Js.truthy (Auth.resolveIngestProducerId (authorization req) (basicAuth context)
                   (Ingest.producerByToken (ingestAuthPolicy context))) with
| None => (context, {| statusCode := 401; body := ErrorBody "Unauthorized" |})
| Some producer =>
    match readJsonBody (rawBody req) (Ingest.maxBodyBytes (ingestAuthPolicy context)) with
    | Throw message =>
        (context,
         {| statusCode := if String.prefix "Payload too large" message then 413 else 400;
            body := ErrorBody message |})
    | Return payload =>
        match Ingest.parseIngestPayload payload with
        | None =>
            (context,
             {| statusCode := 400;
                body := ErrorBody "Invalid ingest payload. Expected an array or an object with a logs array." |})
        | Some logs =>
            let '(acceptedRecords, rejectedCount) := normalizeAll logs producer now in
            let item := {| Ingest.producerId := producer;
                           Ingest.records := acceptedRecords |} in
            let '(context', isQueued) :=
              match acceptedRecords with
              | [] => (context, false)
              | _ =>
                  if Ingest.queueEnabled (ingestQueuePolicy context)
                  then (withEffects context (disk context)
                          (Ingest.enqueueIngestQueueBatch (ingestQueueState context) item),
                        true)
                  else
                    let '(d, q) :=
                      Ingest.flushIngestQueueBatch (disk context) (logsPath context)
                        (Js.sliceTo 10 now) (ingestQueueState context) [item] in
                    (withEffects context d q, false)
              end in
            (context',
             {| statusCode := if isQueued then 202 else 200;
                body := IngestBody
                          {| accepted := Z.of_nat (length acceptedRecords);
                             queued := isQueued;
                             producerId := producer;
                             receivedAt := now;
                             rejected := rejectedCount |} |})
        end
    end
end.


End WithRuntime.

Definition MAX_QUERY_LIMIT : Z := 1000.

(** [toNumber(value, fallback, max)]; every call in the repository gives
a [max]. *)
Definition toNumber (value : option string) (fallback max : Z) : Z :=
match Js.truthy value with
| None => fallback
| Some v =>
    match Js.parseInt v with
    | None => fallback
    | Some parsed =>
        if negb (Js.isFiniteInteger parsed) || (parsed <=? 0) then fallback
        else Z.min max parsed
    end
end.

(** [requestUrl.searchParams]: the decoded name and value pairs of the
query string in their order; [get] gives the first value of a name. *)
Definition SearchParams : Type := list (string * string).

Fixpoint get (searchParams : SearchParams) (name : string) : option string :=
match searchParams with
| [] => None
| (n, v) :: rest => if (n =? name)%string then Some v else get rest name
end.

Definition parseQueryOptions (searchParams : SearchParams) : Interfaces.LogQueryOptions :=
let audit :=
  match get searchParams "audit" with
  | None => None
  | Some auditValue =>
      if (Js.toLowerCase auditValue =? "true")%string || (auditValue =? "1")%string
      then Some true
      else if (Js.toLowerCase auditValue =? "false")%string || (auditValue =? "0")%string
      then Some false
      else None
  end in
{| Interfaces.q_audit := audit;
   Interfaces.q_cursor := Js.truthy (get searchParams "cursor");
   Interfaces.q_field := Js.truthy (get searchParams "field");
   Interfaces.q_from := Js.truthy (get searchParams "from");
   Interfaces.q_level := Js.truthy (get searchParams "level");
   Interfaces.q_limit := Some (toNumber (get searchParams "limit") 100 MAX_QUERY_LIMIT);
   Interfaces.q_to := Js.truthy (get searchParams "to");
   Interfaces.q_value := Js.truthy (get searchParams "value") |}.

Definition parseAggregateGroupBy (raw : option string)
: option Interfaces.LogAggregateGroupBy :=
match raw with
| Some r =>
    if (r =? "level")%string then Some Interfaces.groupByLevel
    else if (r =? "event")%string then Some Interfaces.groupByEvent
    else if (r =? "field")%string then Some Interfaces.groupByField
    else if (r =? "correlation")%string then Some Interfaces.groupByCorrelation
    else None
| None => None
end.

End HandleRequest.

(** ** server.ts: the audit classification of raw log files *)

Module Server.

(** [basename(path)]: the text after the last separator. *)
Definition basename (path : string) : string :=
default "" (last (Js.splitChar "/" path)).

Definition isAuditLogFile (filePath : string) : bool :=
let normalizedPath := Js.toLowerCase filePath in
if Js.includes (LogIndexer.sep ++ "audit" ++ LogIndexer.sep)%string normalizedPath then true
else Js.includes "audit" (basename normalizedPath).

End Server.

(** ** infrastructure/frameworks/http.ts *)

Module Http.

Definition parseAllowedOrigins (value : option string) : list string :=
match Js.truthy value with
| None => ["*"]
| Some v =>
    if Z.of_nat (String.length (Js.trim v)) =? 0 then ["*"]
    else
      match List.filter (fun origin => 0 <? Z.of_nat (String.length origin))
              (map Js.trim (Js.splitChar "," v)) with
      | [] => ["*"]
      | origins => origins
      end
end.

(** The headers of a response: name to value; [setHeader] replaces. *)
Definition Headers : Type := gmap string string.

(** [setCorsHeaders]; [origin] is the [Origin] header of the request. *)
Definition setCorsHeaders (origin : option string) (headers : Headers)
(corsAllowOrigins : list string) : Headers :=
let hasWildcard := bool_decide ("*" ∈ corsAllowOrigins) in
let matchedOrigin :=
  match origin with
  | Some requestOrigin => find (fun o => (o =? requestOrigin)%string) corsAllowOrigins
  | None => None
  end in
let allowOrigin := if hasWildcard then Some "*" else matchedOrigin in
let headers :=
  match Js.truthy allowOrigin with
  | Some allowed => <["access-control-allow-origin" := allowed]> headers
  | None => headers
  end in
let headers :=
  if negb hasWildcard && bool_decide (is_Some (Js.truthy allowOrigin))
  then <["vary" := "Origin"]> headers
  else headers in
<["access-control-max-age" := "600"]>
  (<["access-control-allow-headers" := "authorization,content-type"]>
     (<["access-control-allow-methods" := "GET,POST,PUT,OPTIONS"]> headers)).

End Http.
(** ** What the spec says about webhook delivery *)

Module AlertingSpec.

Import Alerting.












(** Scenario S7: the target answers 500, 500 and then 204. *)
Definition flakyTarget (attempt : Z) : FetchResult :=
if attempt <? 3 then Response 500 "busy" else Response 204 "".

Definition defaultPolicy : AlertPolicy :=
{| enabled := true; webhookUrl := Some "http://127.0.0.1:9/hook";
   intervalMs := 30000; windowMinutes := 5; errorThreshold := 20;
   noLogsThresholdMinutes := 0; cooldownMs := 300000;
   webhookTimeoutMs := 5000; webhookRetryAttempts := 3; webhookBackoffMs := 250 |}.

(** Scenario S6: the error threshold is met in three cycles, 40 ms
  apart, under a cooldown of 500 ms. *)
Definition eagerPolicy : AlertPolicy :=
{| enabled := true; webhookUrl := Some "http://127.0.0.1:9/hook";
   intervalMs := 40; windowMinutes := 60; errorThreshold := 1;
   noLogsThresholdMinutes := 0; cooldownMs := 500;
   webhookTimeoutMs := 5000; webhookRetryAttempts := 3; webhookBackoffMs := 250 |}.

Definition cycleAt (t : Z) : CycleEnv :=
{| nowMs := t; countLogs := fun _ _ => 2;
   fetch := fun _ _ => Response 204 ""; sentAtMs := fun _ => t + 5 |}.

Definition threeCycles : list (AlertPolicy * CycleEnv) :=
[(eagerPolicy, cycleAt 1000); (eagerPolicy, cycleAt 1040); (eagerPolicy, cycleAt 1600)].

End AlertingSpec.


(** ** What the spec says about ingest *)

Module IngestSpec.

Import HandleRequest.

(** A payload element with its claimed [producerId] replaced by [claim];
  an element that claims nothing, or is no object, is left as it is. *)
Definition withClaim (claim : JsonValue) (value : JsonValue) : JsonValue :=
match value with
| JObj members =>
    match Obj.get "producerId" members with
    | Some _ => JObj (Obj.set "producerId" claim members)
    | None => value
    end
| _ => value
end.

(** Two payloads that differ at most in the [producerId] values their
  elements claim. *)
Definition SameUpToClaims (logs1 logs2 : list JsonValue) : Prop :=
map (withClaim JNull) logs1 = map (withClaim JNull) logs2.

Section WithRuntime.
Context `{Runtime}.

(** The list of log values a request body carries, when it carries one. *)
Definition payloadOf (context : RequestContext) (req : Request) : option (list JsonValue) :=
match readJsonBody (rawBody req) (Ingest.maxBodyBytes (ingestAuthPolicy context)) with
| Return payload => Ingest.parseIngestPayload payload
| Throw _ => None
end.

End WithRuntime.

(** Scenario S5: one token mapping, a bearer request, a spoofed claim. *)
Definition tokenPolicy : Ingest.IngestAuthPolicy :=
{| Ingest.enabled := true;
   Ingest.maxBodyBytes := 1048576;
   Ingest.producerByToken := {[ "tokenA" := "frontend-web" ]} |}.

Definition noBasicAuth : Auth.BasicAuthPolicy :=
{| Auth.enabled := false; Auth.password := None; Auth.username := None |}.

Definition syncContext : RequestContext :=
{| ingestAuthPolicy := tokenPolicy;
   basicAuth := noBasicAuth;
   ingestQueuePolicy := {| Ingest.queueEnabled := false; Ingest.flushMs := 25 |};
   ingestQueueState := Ingest.createIngestQueueState;
   logsPath := "/srv/logs";
   disk := ∅ |}.

Definition spoofedBody (claim : string) : string :=
("[{" ++ Js.quoted "producerId" ++ ":" ++ Js.quoted claim ++ ","
     ++ Js.quoted "level" ++ ":" ++ Js.quoted "INFO" ++ ","
     ++ Js.quoted "event" ++ ":" ++ Js.quoted "x" ++ "}]")%string.

Definition spoofedRequest (claim : string) : Request :=
{| authorization := Some "Bearer tokenA"; rawBody := spoofedBody claim |}.

Definition receivedAt0 : string := "2024-05-01T10:00:00.000Z".

(** The report of scenario S5. *)
Definition s5Report : IngestResponse :=
{| accepted := 1; queued := false; producerId := "frontend-web";
   receivedAt := receivedAt0; rejected := 0 |}.

(** A basic-auth deployment whose user name is no safe path segment. *)
Definition dottedUser : string := "../../outside".

Definition basicContext : RequestContext :=
{| ingestAuthPolicy :=
     {| Ingest.enabled := false; Ingest.maxBodyBytes := 1048576;
        Ingest.producerByToken := ∅ |};
   basicAuth := {| Auth.enabled := true; Auth.password := Some "pw";
                   Auth.username := Some dottedUser |};
   ingestQueuePolicy := {| Ingest.queueEnabled := false; Ingest.flushMs := 25 |};
   ingestQueueState := Ingest.createIngestQueueState;
   logsPath := "/srv/logs";
   disk := ∅ |}.

(** [Basic] with the base64 text of [../../outside:pw]. *)
Definition basicRequest : Request :=
{| authorization := Some "Basic Li4vLi4vb3V0c2lkZTpwdw==";
   rawBody := ("[{" ++ Js.quoted "event" ++ ":" ++ Js.quoted "x" ++ "}]")%string |}.

End IngestSpec.

(** ** What the spec says about line processing *)

Module IndexerSpec.

Import LogIndexer.

(** The value is a string and that string is not empty. *)
Definition NonEmptyString (v : option JsonValue) (s : string) : Prop :=
v = Some (JStr s) /\ s <> EmptyString.

(** The value is missing, no string, or the empty string. *)
Definition NoNonEmptyString (v : option JsonValue) : Prop :=
forall s, v = Some (JStr s) -> s = EmptyString.

(** [timestamp] as the indexer derives it: the record's value when that
  is a non-empty string, whatever the string holds; the current
  wall-clock time when the member is missing, no string or empty. *)
Definition TimestampSpec (now : string) (v : option JsonValue) (out : string) : Prop :=
(exists s, NonEmptyString v s /\ out = s) \/ (NoNonEmptyString v /\ out = now).

(** A text that begins like an ISO-8601 calendar date, [YYYY-MM-DD]: the
  least that a valid timestamp of the data model has. *)
Definition startsLikeIsoDate (s : string) : bool :=
match s with
| String y1 (String y2 (String y3 (String y4 (String "-"
    (String m1 (String m2 (String "-" (String d1 (String d2 _))))))))) =>
    forallb Js.isDigit [y1; y2; y3; y4; m1; m2; d1; d2]
| _ => false
end.

(** [timestamp] as the claim states it: the record's string, and the
  wall-clock time when the timestamp is missing or invalid. *)
Definition claimedTimestamp (now : string) (v : option JsonValue) : string :=
match v with
| Some (JStr s) => if startsLikeIsoDate s then s else now
| _ => now
end.

(** [level]: upper-cased and not empty, [INFO] by default. *)
Definition LevelSpec (v : option JsonValue) (out : string) : Prop :=
out <> EmptyString
/\ ((exists s, NonEmptyString v s /\ out = Js.toUpperCase s)
    \/ (NoNonEmptyString v /\ out = "INFO")).

(** [event]: not empty; the record's event, else its message, else the
  literal [log.event]. *)
Definition EventSpec (ev msg : option JsonValue) (out : string) : Prop :=
out <> EmptyString
/\ ((exists s, NonEmptyString ev s /\ out = s)
    \/ (NoNonEmptyString ev /\ exists m, NonEmptyString msg m /\ out = m)
    \/ (NoNonEmptyString ev /\ NoNonEmptyString msg /\ out = "log.event")).

(** [message]: the value when it is a string, the empty string when it
  is null or missing, its JSON text otherwise. *)
Definition MessageSpec `{Runtime} (v : option JsonValue) (out : string) : Prop :=
(forall s, v = Some (JStr s) -> out = s)
/\ (v = None \/ v = Some JNull -> out = EmptyString)
/\ (forall x, v = Some x -> (forall s, x <> JStr s) -> x <> JNull ->
    out = JSON_stringify x).

(** The directory segments of a path: what stands between two
  separators. *)
Definition directorySegments (path : string) : list string :=
match Js.splitChar "/" path with
| [] => []
| _ :: rest => removelast rest
end.

(** "The file path contains a path segment [audit] (case-insensitive)". *)
Definition hasAuditSegment (path : string) : bool :=
existsb (String.eqb "audit") (directorySegments (Js.toLowerCase path)).

(** "The file's basename contains [audit] (case-insensitive)". *)
Definition basenameHasAudit (path : string) : bool :=
Js.includes "audit" (Server.basename (Js.toLowerCase path)).

(** The explicit audit value as the claim reads it: a boolean, or the
  text of a boolean. *)
Definition explicitBoolean (v : option JsonValue) : option bool :=
match v with
| Some (JBool b) => Some b
| Some (JStr s) =>
    if (s =? "true")%string then Some true
    else if (s =? "false")%string then Some false
    else None
| _ => None
end.

(** [is_audit] as the claim states it. *)
Definition claimedIsAudit (members : list (string * JsonValue)) (path : string) : bool :=
match explicitBoolean (Obj.get "audit" members) with
| Some b => b
| None => hasAuditSegment path || basenameHasAudit path
end.

(** The explicit audit value as the indexer reads it: a boolean, a
  number (zero is false), or one of the texts true, 1, yes, false, 0,
  no in any case and with white space around it. *)
Definition explicitAudit (v : option JsonValue) : option bool :=
match v with
| Some (JBool b) => Some b
| Some (JNum n) => Some (negb (n =? 0))
| Some (JStr s) =>
    let word := Js.toLowerCase (Js.trim s) in
    if bool_decide (word ∈ ["true"; "1"; "yes"]) then Some true
    else if bool_decide (word ∈ ["false"; "0"; "no"]) then Some false
    else None
| _ => None
end.

(** A line that is empty once it is trimmed. *)
Definition isBlank (l : string) : bool := negb (Js.nonEmpty (Js.trim l)).

(** The table holds a row for line [ln] of source file [sf]. *)
Definition hasKey (sf : string) (ln : Z) (e : LogDatabase.LogEntryRow) : bool :=
  (LogDatabase.source_file e =? sf)%string && (LogDatabase.line_number e =? ln).

Definition keyPresent (db : LogDatabase.Database) (sf : string) (ln : Z) : Prop :=
  existsb (hasKey sf ln) (LogDatabase.log_entries db) = true.

(** Every place that holds a row in [small] holds one in [big]. *)
Definition Covers (small big : LogDatabase.Database) : Prop :=
  forall sf ln, keyPresent small sf ln -> keyPresent big sf ln.

Section Counts.
Context `{Runtime}.

(** What a pass over already indexed lines adds to the report, line by
    line: every line is scanned; a blank line counts for nothing more, a
    line that is no JSON text is a parse error, any other line is a
    duplicate. *)
Definition recount (rep : Interfaces.IndexReport) (l : string) : Interfaces.IndexReport :=
  let rep := incLinesScanned rep in
  if isBlank l then rep
  else match JSON_parse (Js.trim l) with
       | None => incParseErrors rep
       | Some _ => incRecordsSkipped rep
       end.

Definition linesOf (file : LogFile) : list string := readLines (content file).

(** The lines of a logs tree, and the blank ones among them. *)
Definition totalLines (files : list LogFile) : Z :=
  Z.of_nat (length (flat_map linesOf files)).

Definition blankLines (files : list LogFile) : Z :=
  Z.of_nat (length (List.filter isBlank (flat_map linesOf files))).

(** What a line adds to the report when its place is taken. *)
Definition countAgain (rep : Interfaces.IndexReport) (l : string) : Interfaces.IndexReport :=
  if isBlank l then rep
  else match JSON_parse (Js.trim l) with
       | None => incParseErrors rep
       | Some _ => incRecordsSkipped rep
       end.

(** The row id that the next [INSERT] into [log_entries] takes. *)
Definition nextId (db : LogDatabase.Database) : Z :=
  Z.max (LogDatabase.largestId (LogDatabase.log_entries db))
    (LogDatabase.sqlite_sequence db) + 1.

(** The store after [n] inserts in a row were ignored: the rows are as
    they were, and the counter of AUTOINCREMENT has advanced with every
    one of them. *)
Definition afterSkips (db : LogDatabase.Database) (n : Z) : LogDatabase.Database :=
  if n <=? 0 then db
  else {| LogDatabase.log_entries := LogDatabase.log_entries db;
          LogDatabase.log_fields := LogDatabase.log_fields db;
          LogDatabase.sqlite_sequence := nextId db + (n - 1) |}.

(** A line that holds a JSON text: a record for the indexer. *)
Definition isRecordLine (l : string) : bool :=
  negb (isBlank l) && bool_decide (is_Some (JSON_parse (Js.trim l))).

Definition recordLines (lines : list string) : Z :=
  Z.of_nat (length (List.filter isRecordLine lines)).

(** The store with the field row [(entryId, k, v)], unless it holds that
    row already. *)
Definition withField (db : LogDatabase.Database) (entryId : Z) (k v : string)
  : LogDatabase.Database :=
  let f := {| LogDatabase.entry_id := entryId; LogDatabase.key := k;
              LogDatabase.value_text := v |} in
  if existsb (LogDatabase.sameField f) (LogDatabase.log_fields db) then db
  else {| LogDatabase.log_entries := LogDatabase.log_entries db;
          LogDatabase.log_fields := (LogDatabase.log_fields db ++ [f])%list;
          LogDatabase.sqlite_sequence := LogDatabase.sqlite_sequence db |}.

(** The store with a field row for every scalar member of a record. *)
Definition withFields (entryId : Z) (members : list (string * JsonValue))
  (db : LogDatabase.Database) : LogDatabase.Database :=
  fold_left
    (fun d kv => if isScalar (Some (snd kv))
                 then withField d entryId (fst kv) (stringOfScalar (snd kv))
                 else d)
    members db.

(** The store after the row for [inp] and the fields of [members] are
    added. *)
Definition inserted (db : LogDatabase.Database) (inp : LogDatabase.UpsertEntryInput)
  (members : list (string * JsonValue)) : LogDatabase.Database :=
  let newId := Z.max (LogDatabase.largestId (LogDatabase.log_entries db))
                 (LogDatabase.sqlite_sequence db) + 1 in
  withFields newId members
    {| LogDatabase.log_entries :=
         (LogDatabase.log_entries db ++ [LogDatabase.rowOf newId inp])%list;
       LogDatabase.log_fields := LogDatabase.log_fields db;
       LogDatabase.sqlite_sequence := newId |}.



(** The checkpoint a pass leaves for a file it read from [startOffset]. *)
Definition checkpoint (file : LogFile) (fileStats : FileStats) (startOffset : Z)
  (lineNumber : Z) : IncrementalFileState :=
  {| byteOffset := startOffset
                   + Z.of_nat (String.length (readFrom startOffset (content file)));
     fileSize := size fileStats;
     st_lineNumber := lineNumber;
     st_mtimeMs := mtimeMs fileStats |}.

End Counts.

Definition nl : string := String "010"%char EmptyString.

Definition sampleClock : Clock := fun _ _ => "2024-05-01T10:00:00.000Z".

Definition lineInput (text : string) : ProcessLineInput :=
{| pl_filePath := "/srv/logs/app/a.ndjson";
   line := text;
   pl_lineNumber := 1;
   report := createReport Interfaces.full;
   pl_sourceFile := "app/a.ndjson" |}.

(** A well-formed line: [{"level":"warn","message":"disk low"}]. *)
Definition warnLine : string :=
("{" ++ Js.quoted "level" ++ ":" ++ Js.quoted "warn" ++ ","
     ++ Js.quoted "message" ++ ":" ++ Js.quoted "disk low" ++ "}")%string.

(** A line whose timestamp is no time: [{"timestamp":"not-a-date"}]. *)
Definition badTimestampLine : string :=
("{" ++ Js.quoted "timestamp" ++ ":" ++ Js.quoted "not-a-date" ++ "}")%string.

(** A file of two records with a blank line between them. *)
Definition gappedFile : LogFile :=
  {| filePath := "/srv/logs/app/a.ndjson";
     sourceFile := "app/a.ndjson";
     stat := Some {| size := 7; mtimeMs := 1000 |};
     content := ("{}" ++ nl ++ nl ++ "{}" ++ nl)%string |}.

(** Scenario S3: a file of one line that was indexed up to byte 31 and
    then overwritten with a shorter line. *)
Definition rewrittenFile : LogFile :=
  {| filePath := "/srv/logs/app/a.ndjson";
     sourceFile := "app/a.ndjson";
     stat := Some {| size := 14; mtimeMs := 2000 |};
     content := ("{" ++ Js.quoted "event" ++ ":" ++ Js.quoted "b" ++ "}" ++ nl)%string |}.

Definition oldCursor : IncrementalFileState :=
  {| byteOffset := 31; fileSize := 31; st_lineNumber := 1; st_mtimeMs := 1000 |}.

Definition oldStore : LogDatabase.Database :=
  {| LogDatabase.log_entries :=
       [{| LogDatabase.id := 1;
           LogDatabase.timestamp := "2024-05-01T09:00:00.000Z";
           LogDatabase.level := "INFO";
           LogDatabase.event := "a-much-longer-name";
           LogDatabase.message := "";
           LogDatabase.is_audit := false;
           LogDatabase.data_json := "old";
           LogDatabase.source_file := "app/a.ndjson";
           LogDatabase.line_number := 1 |}];
     LogDatabase.log_fields := [];
     LogDatabase.sqlite_sequence := 1 |}.

End IndexerSpec.

(** ** What the spec says about query pages *)

Module QuerySpec.

Import LogDatabase.

(** The key a page is ordered by. *)
Definition rowKey (e : LogEntryRow) : Z * string := (id e, timestamp e).

Definition entryKey (e : Interfaces.IndexedLogEntry) : Z * string :=
  (Interfaces.id e, Interfaces.timestamp e).

(** [(timestamp DESC, id DESC)]: [a] stands strictly before [b]. *)
Definition DescKey (a b : Z * string) : Prop :=
  (b.2 <? a.2)%string = true \/ (a.2 = b.2 /\ b.1 < a.1).

(** The cursor condition: the row's timestamp is below the cursor's, or
    equal with a smaller id. *)
Definition AfterKey (c : Interfaces.LogCursor) (k : Z * string) : Prop :=
  (k.2 <? Interfaces.cursor_timestamp c)%string = true
  \/ (k.2 = Interfaces.cursor_timestamp c /\ k.1 < Interfaces.cursor_id c).

(** Every row that matches the filter and the cursor, in page order: what
    the SELECT of [queryPage] gives without its LIMIT. *)
Definition listing (db : Database) (options : Interfaces.LogQueryOptions)
  (cursor : option Interfaces.LogCursor) : list LogEntryRow :=
  merge_sort OrderBy
    (List.filter (fun e => filterMatches db options e && afterCursor cursor e)
       (log_entries db)).

(** The primary key of [log_entries]. *)
Definition UniqueIds (db : Database) : Prop := NoDup (map id (log_entries db)).

Definition cursorOfRow (e : LogEntryRow) : Interfaces.LogCursor :=
  {| Interfaces.cursor_id := id e; Interfaces.cursor_timestamp := timestamp e |}.

(** Scenario S4: three entries at distinct timestamps, pages of one. *)
Definition entryAt (n : Z) (ts : string) : LogEntryRow :=
  {| id := n; timestamp := ts; level := "INFO"; event := "order.created";
     message := ""; is_audit := false; data_json := "{}";
     source_file := "app/a.ndjson"; line_number := n |}.

Definition threeEntries : Database :=
  {| log_entries := [entryAt 1 "2024-05-01T10:00:00.000Z";
                     entryAt 2 "2024-05-01T10:00:02.000Z";
                     entryAt 3 "2024-05-01T10:00:01.000Z"];
     log_fields := [];
     sqlite_sequence := 3 |}.

Definition pagesOfOne : Interfaces.LogQueryOptions :=
  {| Interfaces.q_from := None; Interfaces.q_to := None; Interfaces.q_level := None;
     Interfaces.q_audit := None; Interfaces.q_field := None;
     Interfaces.q_limit := Some 1; Interfaces.q_value := None;
     Interfaces.q_cursor := None |}.

Definition firstPage : Interfaces.LogQueryPage :=
  {| Interfaces.entries :=
       [{| Interfaces.id := 2;
           Interfaces.timestamp := "2024-05-01T10:00:02.000Z";
           Interfaces.level := "INFO";
           Interfaces.event := "order.created";
           Interfaces.message := "";
           Interfaces.data := JObj [];
           Interfaces.sourceFile := "app/a.ndjson";
           Interfaces.lineNumber := 2 |}];
     Interfaces.hasMore := true;
     Interfaces.limit := 1;
     Interfaces.nextCursor :=
       Some {| Interfaces.cursor_id := 2;
               Interfaces.cursor_timestamp := "2024-05-01T10:00:02.000Z" |} |}.

End QuerySpec.
(** ** The constraints of the index store *)

Module StoreSpec.

Import LogDatabase.

(** The place of a row: the columns of [UNIQUE(source_file, line_number)]. *)
Definition placeOf (e : LogEntryRow) : string * Z := (source_file e, line_number e).

(** What the schema of [initialize] demands of the two tables:
  [id INTEGER PRIMARY KEY AUTOINCREMENT] (distinct, positive, never above
  the counter), [UNIQUE(source_file, line_number)] and
  [UNIQUE(entry_id, key, value_text)]. *)
Record Constraints (db : Database) : Prop := {
primary_key : NoDup (map id (log_entries db));
unique_place : NoDup (map placeOf (log_entries db));
autoincrement : Forall (fun e => 0 < id e <= sqlite_sequence db) (log_entries db);
counter_start : 0 <= sqlite_sequence db;
unique_field : NoDup (log_fields db)
}.

(** [FOREIGN KEY(entry_id) REFERENCES log_entries(id) ON DELETE CASCADE]:
  every field row refers to a row. [node:sqlite] enforces it on inserts;
  before it deletes rows the code deletes their field rows itself. *)
Definition FieldsRefer (db : Database) : Prop :=
Forall (fun f => entry_id f ∈ map id (log_entries db)) (log_fields db).

(** A row that either cutoff of a retention run reaches. *)
Definition expired (normalCutoff auditCutoff : string) (e : LogEntryRow) : bool :=
normalExpired normalCutoff e || auditExpired auditCutoff e.

(** The field row belongs to one of the rows [rows]. *)
Definition fieldOf (rows : list LogEntryRow) (f : LogFieldRow) : bool :=
existsb (fun e => id e =? entry_id f) rows.

#[global] Instance LogFieldRow_eq_dec : EqDecision LogFieldRow.
Proof. solve_decision. Defined.

(** The store without the rows that [p] selects and without the field
  rows whose [entry_id] is the id of such a row: the shape of every
  deletion the store performs. *)
Definition without (p : LogEntryRow -> bool) (db : Database) : Database :=
{| log_entries := List.filter (fun e => negb (p e)) (log_entries db);
   log_fields :=
     List.filter
       (fun f => negb (existsb (Z.eqb (entry_id f)) (map id (List.filter p (log_entries db)))))
       (log_fields db);
   sqlite_sequence := sqlite_sequence db |}.

Definition countOf {A} (p : A -> bool) (l : list A) : Z :=
Z.of_nat (length (List.filter p l)).

(** A store of two normal rows and one audit row, with their fields. *)
Definition rowAt (n : Z) (ts : string) (audit : bool) (sf : string) (ln : Z) : LogEntryRow :=
{| id := n; timestamp := ts; level := "INFO"; event := "order.created";
   message := ""; is_audit := audit; data_json := "{}";
   source_file := sf; line_number := ln |}.

Definition smallStore : Database :=
{| log_entries := [rowAt 1 "2024-01-01T00:00:00.000Z" false "app/a.ndjson" 1;
                   rowAt 2 "2024-03-01T00:00:00.000Z" false "app/a.ndjson" 2;
                   rowAt 4 "2024-01-15T00:00:00.000Z" true "audit/b.ndjson" 1];
   log_fields := [{| entry_id := 1; key := "orderId"; value_text := "o-1" |};
                  {| entry_id := 2; key := "orderId"; value_text := "o-2" |};
                  {| entry_id := 4; key := "actorId"; value_text := "u-9" |}];
   sqlite_sequence := 5 |}.

Definition newInput : UpsertEntryInput :=
{| in_timestamp := "2024-04-01T00:00:00.000Z"; in_level := "WARN";
   in_event := "disk.low"; in_message := "disk low"; isAudit := false;
   dataJson := "{}"; sourceFile := "app/a.ndjson"; lineNumber := 3 |}.

End StoreSpec.
(** ** Reading a whole result through its pages *)

Module PagingSpec.

Import LogDatabase.

Section WithRuntime.
Context `{Runtime}.

(** A client that asks for the first page and then, as long as a page
  carries a [nextCursor], hands that token back for the next page: the
  entries of all pages, in the order received. [fuel] bounds the number of
  requests. *)
Fixpoint followCursors (fuel : nat) (db : Database) (options : Interfaces.LogQueryOptions)
(cursor : option Interfaces.LogCursor) : Outcome (list Interfaces.IndexedLogEntry) :=
match fuel with
| O => Throw "more pages than requests"
| S fuel' =>
    page ← LogQueryService.queryLogsPage db options cursor;
    match Interfaces.nextCursor page with
    | None => Return (Interfaces.entries page)
    | Some next =>
        rest ← followCursors fuel' db options
                 (LogQueryService.decodeCursor (Some (LogQueryService.cursorPayload next)));
        Return (Interfaces.entries page ++ rest)%list
    end
end.

(** The serialized record of every row can be parsed back. *)
Definition Readable (db : Database) : Prop :=
Forall (fun e => is_Some (JSON_parse (data_json e))) (log_entries db).

End WithRuntime.

End PagingSpec.
(** ** Aggregation buckets *)

Module AggregateSpec.

Import LogDatabase.

(** [ORDER BY count DESC, key ASC] between two groups of different keys:
  [a] stands strictly before [b]. *)
Definition BucketDesc (a b : Interfaces.LogAggregateBucket) : Prop :=
Interfaces.bucket_count b < Interfaces.bucket_count a
\/ (Interfaces.bucket_count a = Interfaces.bucket_count b
    /\ (Interfaces.bucket_key a <? Interfaces.bucket_key b)%string = true).

Definition totalOf (buckets : list Interfaces.LogAggregateBucket) : Z :=
fold_right Z.add 0 (map Interfaces.bucket_count buckets).

(** The number of groups the SELECT of [aggregate] yields before its
  LIMIT. *)
Definition groupCount (db : Database) (options : Interfaces.LogQueryOptions)
(groupBy : Interfaces.LogAggregateGroupBy) (groupField : string) : Z :=
Z.of_nat (length (remove_dups
                    (flat_map (groupKeys db groupBy groupField)
                       (List.filter (filterMatches db options) (log_entries db))))).

Definition anyQuery : Interfaces.LogQueryOptions :=
{| Interfaces.q_from := None; Interfaces.q_to := None; Interfaces.q_level := None;
   Interfaces.q_audit := None; Interfaces.q_field := None;
   Interfaces.q_limit := None; Interfaces.q_value := None;
   Interfaces.q_cursor := None |}.

Definition leveled (n : Z) (lv : string) : LogEntryRow :=
{| id := n; timestamp := "2024-05-01T10:00:00.000Z"; level := lv;
   event := "order.created"; message := ""; is_audit := false; data_json := "{}";
   source_file := "app/a.ndjson"; line_number := n |}.

(** Four rows: two errors, one warning, one info; two of them carry a
  [tenant] field. *)
Definition leveledStore : Database :=
{| log_entries := [leveled 1 "INFO"; leveled 2 "ERROR"; leveled 3 "WARN"; leveled 4 "ERROR"];
   log_fields := [{| entry_id := 1; key := "tenant"; value_text := "t-1" |};
                  {| entry_id := 2; key := "tenant"; value_text := "t-1" |}];
   sqlite_sequence := 4 |}.

End AggregateSpec.
(** ** Reports and checkpoints of index passes *)

Module PassSpec.

Import LogIndexer IndexerSpec.

Section WithRuntime.
Context `{Runtime}.

(** A line that is not blank and holds no JSON text. *)
Definition malformed (l : string) : bool :=
negb (isBlank l) && match JSON_parse (Js.trim l) with None => true | Some _ => false end.

Definition malformedLines (files : list LogFile) : Z :=
Z.of_nat (length (List.filter malformed (flat_map linesOf files))).

(** The report with the line counter and the three outcome counters
  moved on by the given amounts. *)
Definition advanced (rep : Interfaces.IndexReport) (lines inserted skipped errors : Z)
: Interfaces.IndexReport :=
{| Interfaces.filesScanned := Interfaces.filesScanned rep;
   Interfaces.linesScanned := Interfaces.linesScanned rep + lines;
   Interfaces.recordsInserted := Interfaces.recordsInserted rep + inserted;
   Interfaces.recordsSkipped := Interfaces.recordsSkipped rep + skipped;
   Interfaces.parseErrors := Interfaces.parseErrors rep + errors;
   Interfaces.mode := Interfaces.mode rep |}.

(** The file exists and its size is the length of what a read stream
  delivers. *)
Definition Sized (file : LogFile) : Prop :=
exists fileStats, stat file = Some fileStats
                  /\ size fileStats = Z.of_nat (String.length (content file)).

(** The checkpoint of a file that was read to its end. *)
Definition readToEnd (file : LogFile) (c : IncrementalFileState) : Prop :=
exists fileStats, stat file = Some fileStats
                  /\ byteOffset c = Z.of_nat (String.length (content file))
                  /\ fileSize c = size fileStats
                  /\ st_mtimeMs c = mtimeMs fileStats.

End WithRuntime.

(** A file of one record, and the same file after a second record was
  appended. *)
Definition firstLine : string :=
("{" ++ Js.quoted "event" ++ ":" ++ Js.quoted "a" ++ "}" ++ nl)%string.

Definition secondLine : string :=
("{" ++ Js.quoted "event" ++ ":" ++ Js.quoted "b" ++ "}" ++ nl)%string.

Definition shortFile : LogFile :=
{| filePath := "/srv/logs/app/a.ndjson";
   sourceFile := "app/a.ndjson";
   stat := Some {| size := 14; mtimeMs := 1000 |};
   content := firstLine |}.

Definition grownFile : LogFile :=
{| filePath := "/srv/logs/app/a.ndjson";
   sourceFile := "app/a.ndjson";
   stat := Some {| size := 28; mtimeMs := 2000 |};
   content := (firstLine ++ secondLine)%string |}.

(** Checkpoints for a file that is listed and for one that is gone. *)
Definition staleState : IncrementalState :=
<["/srv/logs/app/gone.ndjson" := oldCursor]> {[ "/srv/logs/app/a.ndjson" := oldCursor ]}.

End PassSpec.

(** ** What is said about the ingest queue *)

Module QueueSpec.

Import Ingest.

Definition producersOf (items : list IngestQueueItem) : list string :=
  map producerId items.

(** The names of a list in the order in which they first occur. *)
Fixpoint firstOccurrences (names : list string) : list string :=
  match names with
  | [] => []
  | name :: rest =>
      name :: List.filter (fun other => negb (other =? name)%string) (firstOccurrences rest)
  end.

(** The records that the items of producer [p] hold, in the order of the
    items. *)
Definition recordsFor (p : string) (items : list IngestQueueItem) : list LogObject :=
  concat (map records (List.filter (fun i => (producerId i =? p)%string) items)).

(** [typeof value === "object"], not [null], not an array. *)
Definition isRecord (value : JsonValue) : bool :=
  match value with JObj _ => true | _ => false end.

(** The count of pending records is the number of records in the pending
    items. *)
Definition Balanced (queue : IngestQueueState) : Prop :=
  pendingRecords queue = sumRecords (pending queue).

Definition oneRecord (producer : string) (n : Z) : IngestQueueItem :=
  {| producerId := producer; records := [[("n", JNum n)]] |}.

(** A queue that holds two items of two records in all. *)
Definition busyQueue : IngestQueueState :=
  {| batchesFlushed := 0; batchesQueued := 2; draining := false;
     pending := [oneRecord "a" 1; oneRecord "b" 2];
     pendingRecords := 2; recordsFlushed := 0; recordsQueued := 2 |}.

End QueueSpec.

(** ** What is said about paths below the logs root *)

Module PathSpec.

Definition noSlash (s : string) : bool :=
  Js.allChars (fun c => negb (Ascii.eqb "/" c)) s.

(** A segment that [normalize] keeps as it is: not empty, not [.] or
    [..], without separator. *)
Definition plainSegment (s : string) : bool :=
  Js.nonEmpty s && negb (s =? ".")%string && negb (s =? "..")%string && noSlash s.

(** The absolute path with these segments; the root for none. *)
Definition rooted (segments : list string) : string :=
  ("/" ++ String.concat "/" segments)%string.

End PathSpec.

(** ** What is said about an alert cycle *)

Module CycleSpec.

Import Alerting.








Definition sleepOf (e : Event) : Z :=
  match e with Sleep durationMs => durationMs | _ => 0 end.

(** The time a trace spends in sleeps. *)
Definition sleptMs (trace : list Event) : Z :=
  fold_right Z.add 0 (map sleepOf trace).

End CycleSpec.
(** * Properties *)

(** ** Webhook delivery: bounded retries *)

Module AlertingFacts.

Import Alerting AlertingSpec.







Example flaky_delivery :
sendAlertWebhook "error_threshold" flakyTarget defaultPolicy =
([Fetch "error_threshold" 1; Sleep 250; Fetch "error_threshold" 2; Sleep 500;
  Fetch "error_threshold" 3], Return tt).
Proof. reflexivity. Qed.


End AlertingFacts.

(** ** Alert cooldown *)

Module CooldownFacts.

Import Alerting AlertingSpec.
Local Open Scope list_scope.













Example three_cycles_deliver_twice :
fst (runCycles threeCycles createAlertState) =
[Fetch "error_threshold" 1; Delivered "error_threshold" 1000 1005;
 Suppressed "error_threshold";
 Fetch "error_threshold" 1; Delivered "error_threshold" 1600 1605].
Proof. vm_compute. reflexivity. Qed.


End CooldownFacts.

(** ** Ingest: the producer id is assigned by the server *)

Module IngestFacts.

Import HandleRequest IngestSpec.
Local Open Scope list_scope.

Lemma get_set_eq key v members : Obj.get key (Obj.set key v members) = Some v.
Proof.
induction members as [|[k old] rest IH]; simpl.
- by rewrite String.eqb_refl.
- destruct (String.eqb_spec k key) as [->|Hne]; simpl.
  + by rewrite String.eqb_refl.
  + by destruct (String.eqb_spec k key).
Qed.

Lemma get_set_ne key key' v members :
key <> key' -> Obj.get key (Obj.set key' v members) = Obj.get key members.
Proof.
intros Hne. induction members as [|[k old] rest IH]; simpl.
- by destruct (String.eqb_spec key' key); [congruence|].
- destruct (String.eqb_spec k key') as [->|Hk]; simpl.
  + by destruct (String.eqb_spec key' key); [congruence|].
  + by rewrite IH.
Qed.

Lemma set_set key v w members :
Obj.set key w (Obj.set key v members) = Obj.set key w members.
Proof.
induction members as [|[k old] rest IH]; simpl.
- by rewrite String.eqb_refl.
- destruct (String.eqb_spec k key) as [->|Hne]; simpl.
  + by rewrite String.eqb_refl.
  + destruct (String.eqb_spec k key); [done|]. by rewrite IH.
Qed.

Lemma normalizeIngestRecord_producerId value producer now record :
Ingest.normalizeIngestRecord value producer now = Some record ->
Obj.get "producerId" record = Some (JStr producer).
Proof.
destruct value; simpl; try done. intros [= <-].
rewrite get_set_ne by done. apply get_set_eq.
Qed.

Lemma normalizeIngestRecord_withClaim claim value producer now :
Ingest.normalizeIngestRecord (withClaim claim value) producer now =
Ingest.normalizeIngestRecord value producer now.
Proof.
destruct value as [| | | | |members]; simpl; try done.
destruct (Obj.get "producerId" members); simpl; [|done].
by rewrite set_set.
Qed.

Section WithRuntime.
Context `{Runtime}.

Lemma normalizeAll_producerId logs producer now :
Forall (fun record => Obj.get "producerId" record = Some (JStr producer))
(fst (normalizeAll logs producer now)).
Proof.
induction logs as [|log rest IH]; simpl; [constructor|].
destruct (normalizeAll rest producer now) as [acceptedRecords rejectedCount].
destruct (Ingest.normalizeIngestRecord log producer now) as [record|] eqn:Hn;
simpl in *; [|done].
constructor; [|done]. by eapply normalizeIngestRecord_producerId.
Qed.

Lemma normalizeAll_withClaim claim logs producer now :
normalizeAll (map (withClaim claim) logs) producer now =
normalizeAll logs producer now.
Proof.
induction logs as [|log rest IH]; simpl; [done|].
by rewrite IH, normalizeIngestRecord_withClaim.
Qed.

Lemma normalizeAll_same logs1 logs2 producer now :
SameUpToClaims logs1 logs2 ->
normalizeAll logs1 producer now = normalizeAll logs2 producer now.
Proof.
unfold SameUpToClaims. intros Hsame.
rewrite <- (normalizeAll_withClaim JNull logs1), <- (normalizeAll_withClaim JNull logs2).
by rewrite Hsame.
Qed.

(** C3. When a request to [POST /api/ingest] is answered with an ingest
report, the [producerId] of the report is the id the server resolved
from the request's credentials; every accepted record carries that
id in its [producerId] member, whatever the payload claimed; the
accepted records are the batch written to the producer's file or,
in queued mode, put on the queue; and a second request with the same
credentials whose payload differs at most in the claimed
[producerId] values has the same effect and the same answer. *)
Theorem C3_producer_id_is_server_assigned context req now r :
body (snd (handleIngest context req now)) = IngestBody r ->
Auth.resolveIngestProducerId (authorization req) (basicAuth context)
(Ingest.producerByToken (ingestAuthPolicy context)) = Some (producerId r)
/\ (exists acceptedRecords,
    Forall (fun record => Obj.get "producerId" record = Some (JStr (producerId r)))
      acceptedRecords
    /\ accepted r = Z.of_nat (length acceptedRecords)
    /\ if queued r
       then Ingest.pending (ingestQueueState (fst (handleIngest context req now))) =
              Ingest.pending (ingestQueueState context)
              ++ [{| Ingest.producerId := producerId r;
                     Ingest.records := acceptedRecords |}]
            /\ disk (fst (handleIngest context req now)) = disk context
       else disk (fst (handleIngest context req now)) =
              Ingest.writeIngestBatch (disk context) (logsPath context)
                (producerId r) acceptedRecords (Js.sliceTo 10 now)
            /\ Ingest.pending (ingestQueueState (fst (handleIngest context req now))) =
                 Ingest.pending (ingestQueueState context))
/\ (forall req2 logs logs2,
    authorization req2 = authorization req ->
    payloadOf context req = Some logs ->
    payloadOf context req2 = Some logs2 ->
    SameUpToClaims logs logs2 ->
    handleIngest context req2 now = handleIngest context req now).
Proof.
intros Hbody. split; [|split].
- revert Hbody. unfold handleIngest.
destruct (negb (Ingest.enabled (ingestAuthPolicy context))
          && negb (Auth.enabled (basicAuth context))); [done|].
destruct (Auth.resolveIngestProducerId _ _ _) as [producer|]; simpl; [|done].
destruct (Js.nonEmpty producer); [|done].
destruct (readJsonBody _ _) as [payload|e]; [|done].
destruct (Ingest.parseIngestPayload payload) as [logs|]; [|done].
destruct (normalizeAll logs producer now) as [acceptedRecords rejectedCount].
destruct acceptedRecords as [|record records]; simpl.
+ by intros [= <-].
+ destruct (Ingest.queueEnabled (ingestQueuePolicy context)); simpl;
    by intros [= <-].
- revert Hbody. unfold handleIngest.
destruct (negb (Ingest.enabled (ingestAuthPolicy context))
          && negb (Auth.enabled (basicAuth context))); [done|].
destruct (Auth.resolveIngestProducerId _ _ _) as [producer|]; simpl; [|done].
destruct (Js.nonEmpty producer); [|done].
destruct (readJsonBody _ _) as [payload|e]; [|done].
destruct (Ingest.parseIngestPayload payload) as [logs|]; [|done].
pose proof (normalizeAll_producerId logs producer now) as Hall.
destruct (normalizeAll logs producer now) as [acceptedRecords rejectedCount].
simpl in Hall. exists acceptedRecords.
destruct acceptedRecords as [|record records].
+ simpl in Hbody. injection Hbody as <-. simpl. done.
+ destruct (Ingest.queueEnabled (ingestQueuePolicy context)); simpl in *;
    injection Hbody as <-; simpl; done.
- intros req2 logs logs2 Hauth Hp1 Hp2 Hsame.
unfold payloadOf in Hp1, Hp2. unfold handleIngest. rewrite Hauth.
destruct (negb (Ingest.enabled (ingestAuthPolicy context))
          && negb (Auth.enabled (basicAuth context))); [done|].
destruct (Js.truthy _) as [producer|]; [|done].
destruct (readJsonBody (rawBody req) _) as [payload|e]; [|done].
destruct (readJsonBody (rawBody req2) _) as [payload2|e2]; [|done].
rewrite Hp1, Hp2.
by rewrite (normalizeAll_same logs logs2 producer now Hsame).
Qed.

End WithRuntime.

Import Reference.

Example spoofed_claim_is_overwritten :
map_to_list (disk (fst (handleIngest syncContext (spoofedRequest "spoofed") receivedAt0))) =
[("/srv/logs/ingest/frontend-web/2024-05-01.ndjson",
  stringify (JObj [("producerId", JStr "frontend-web"); ("level", JStr "INFO");
                   ("event", JStr "x"); ("ingestedAt", JStr receivedAt0)])
  ++ String LF EmptyString)%string].
Proof. vm_compute. reflexivity. Qed.

Lemma C3_producer_id_is_server_assigned_witness :
Auth.resolveIngestProducerId (authorization (spoofedRequest "spoofed"))
  (basicAuth syncContext) (Ingest.producerByToken (ingestAuthPolicy syncContext))
  = Some (producerId s5Report)
/\ (exists acceptedRecords,
      Forall (fun record => Obj.get "producerId" record = Some (JStr (producerId s5Report)))
        acceptedRecords
      /\ accepted s5Report = Z.of_nat (length acceptedRecords)
      /\ if queued s5Report
         then Ingest.pending (ingestQueueState
                (fst (handleIngest syncContext (spoofedRequest "spoofed") receivedAt0))) =
                Ingest.pending (ingestQueueState syncContext)
                ++ [{| Ingest.producerId := producerId s5Report;
                       Ingest.records := acceptedRecords |}]
              /\ disk (fst (handleIngest syncContext (spoofedRequest "spoofed") receivedAt0))
                 = disk syncContext
         else disk (fst (handleIngest syncContext (spoofedRequest "spoofed") receivedAt0)) =
                Ingest.writeIngestBatch (disk syncContext) (logsPath syncContext)
                  (producerId s5Report) acceptedRecords (Js.sliceTo 10 receivedAt0)
              /\ Ingest.pending (ingestQueueState
                   (fst (handleIngest syncContext (spoofedRequest "spoofed") receivedAt0))) =
                   Ingest.pending (ingestQueueState syncContext))
/\ (forall req2 logs logs2,
      authorization req2 = authorization (spoofedRequest "spoofed") ->
      payloadOf syncContext (spoofedRequest "spoofed") = Some logs ->
      payloadOf syncContext req2 = Some logs2 ->
      SameUpToClaims logs logs2 ->
      handleIngest syncContext req2 receivedAt0 =
      handleIngest syncContext (spoofedRequest "spoofed") receivedAt0).
Proof.
apply (C3_producer_id_is_server_assigned syncContext (spoofedRequest "spoofed")
         receivedAt0 s5Report).
vm_compute. reflexivity.
Defined.

(** The hypotheses of the last part hold for the honest and the spoofed
  request of the scenario. *)
Example spoofed_and_honest_requests_agree :
handleIngest syncContext (spoofedRequest "frontend-web") receivedAt0 =
handleIngest syncContext (spoofedRequest "spoofed") receivedAt0.
Proof. vm_compute. reflexivity. Qed.

(** C10 (the claim fails on the code). A user name that configuration
    accepts for basic auth is used as the producer id without the check
    that mapped producer ids get: with the user name [../../outside] the
    batch of an authenticated request is written outside the ingest
    directory of the logs root [/srv/logs]. *)
Theorem C10_basic_auth_user_escapes_ingest_directory :
  Auth.createBasicAuthPolicy (Some dottedUser) (Some "pw") = Return (basicAuth basicContext)
  /\ Ingest.PRODUCER_ID_PATTERN dottedUser = false
  /\ Auth.resolveIngestProducerId (authorization basicRequest) (basicAuth basicContext)
       (Ingest.producerByToken (ingestAuthPolicy basicContext)) = Some dottedUser
  /\ map fst (map_to_list (disk (fst (handleIngest basicContext basicRequest receivedAt0))))
     = ["/srv/outside/2024-05-01.ndjson"].
Proof. repeat split; vm_compute; reflexivity. Qed.

End IngestFacts.

(** ** Line processing *)

Module IndexerFacts.

Import LogIndexer IndexerSpec.
Local Open Scope list_scope.

Lemma length_pos_nonEmpty s :
(0 <? Z.of_nat (String.length s)) = true <-> s <> EmptyString.
Proof. destruct s; simpl; split; intros; try done; lia. Qed.

Lemma mapChars_nonEmpty f s : s <> EmptyString -> Js.mapChars f s <> EmptyString.
Proof. by destruct s. Qed.

Lemma normalizeTimestamp_spec now v : TimestampSpec now v (normalizeTimestamp now v).
Proof.
unfold TimestampSpec, normalizeTimestamp, NonEmptyString, NoNonEmptyString.
destruct v as [[| | |s| |]|]; try (right; split; [intros ?; congruence | done]).
destruct s as [|c s]; simpl.
- right. split; [|done]. by intros ? [= <-].
- left. eexists. split; [split|]; done.
Qed.

Lemma normalizeLevel_spec v : LevelSpec v (normalizeLevel v).
Proof.
unfold LevelSpec, normalizeLevel, NonEmptyString, NoNonEmptyString.
destruct v as [[| | |s| |]|];
  try (split; [done|]; right; split; [intros ?; congruence | done]).
destruct s as [|c s]; simpl.
- split; [done|]. right. split; [|done]. by intros ? [= <-].
- split; [done|]. left. eexists. split; [split|]; done.
Qed.

Lemma normalizeEvent_object members :
exists out, normalizeEvent (JObj members) = Return out
            /\ EventSpec (Obj.get "event" members) (Obj.get "message" members) out.
Proof.
unfold normalizeEvent, EventSpec, NonEmptyString, NoNonEmptyString. simpl.
assert (Hmsg : forall ev, (forall s, ev = Some (JStr s) -> s = EmptyString) ->
  exists out,
    match Obj.get "message" members with
    | Some (JStr m) =>
        if 0 <? Z.of_nat (String.length m) then Return m else Return "log.event"
    | _ => Return "log.event"
    end = Return out
    /\ out <> EmptyString
    /\ ((exists s, (ev = Some (JStr s) /\ s <> EmptyString) /\ out = s)
        \/ ((forall s, ev = Some (JStr s) -> s = EmptyString)
            /\ exists m, (Obj.get "message" members = Some (JStr m) /\ m <> EmptyString)
                         /\ out = m)
        \/ ((forall s, ev = Some (JStr s) -> s = EmptyString)
            /\ (forall s, Obj.get "message" members = Some (JStr s) -> s = EmptyString)
            /\ out = "log.event"))).
{ intros ev Hev.
  destruct (Obj.get "message" members) as [[| | |m| |]|];
    try (eexists; split; [done|]; split; [done|]; right; right;
         split; [done|]; split; [intros ?; congruence | done]).
  destruct m as [|c m]; simpl.
  - eexists; split; [done|]; split; [done|]. right; right.
    split; [done|]. split; [|done]. by intros ? [= <-].
  - eexists; split; [done|]; split; [done|]. right; left.
    split; [done|]. eexists. split; [split|]; done. }
destruct (Obj.get "event" members) as [[| | |s| |]|] eqn:Hev;
  try (apply Hmsg; intros ?; congruence).
destruct s as [|c s]; simpl.
- apply Hmsg. by intros ? [= <-].
- eexists; split; [done|]; split; [done|]. left. eexists. split; [split|]; done.
Qed.

Lemma normalizeAudit_object members path :
exists b, normalizeAudit (JObj members) path = Return b.
Proof.
unfold normalizeAudit. simpl.
destruct (Obj.get "audit" members) as [[| | |s| |]|]; eauto.
repeat (match goal with |- context [if ?c then _ else _] => destruct c end); eauto.
Qed.

Lemma existsb_id (i : Z) l : existsb (Z.eqb i) l = true <-> i ∈ l.
Proof.
induction l as [|j l IH]; simpl.
- split; [done|]. by intros ?%elem_of_nil.
- rewrite orb_true_iff, IH, elem_of_cons, Z.eqb_eq. tauto.
Qed.

Lemma withField_entries db i k v :
LogDatabase.log_entries (withField db i k v) = LogDatabase.log_entries db.
Proof. unfold withField. by destruct (existsb _ _). Qed.

Lemma withFields_entries entryId members db :
LogDatabase.log_entries (withFields entryId members db) = LogDatabase.log_entries db.
Proof.
unfold withFields. revert db. induction members as [|[k v] rest IH]; intros db; [done|].
cbn [fold_left fst snd]. rewrite IH. destruct (isScalar (Some v)); [|done].
apply withField_entries.
Qed.

(** For the id of a row that the table holds no insert of a field row
  fails. *)
Lemma upsertField_withField db i k v :
i ∈ map LogDatabase.id (LogDatabase.log_entries db) ->
LogDatabase.upsertField db i k v = Return (withField db i k v).
Proof.
intros Hi%existsb_id. unfold LogDatabase.upsertField, withField.
destruct (existsb _ (LogDatabase.log_fields db)); [done|]. by rewrite Hi.
Qed.

Lemma upsertFields_withFields entryId members : forall db,
entryId ∈ map LogDatabase.id (LogDatabase.log_entries db) ->
upsertFields entryId members db = Return (withFields entryId members db).
Proof.
induction members as [|[k v] rest IH]; intros db Hid; [done|].
cbn [upsertFields withFields fold_left fst snd].
destruct (isScalar (Some v)); [|by apply IH].
rewrite (upsertField_withField db entryId k _ Hid). cbn [mbind Outcome_bind].
apply IH. by rewrite withField_entries.
Qed.

Lemma no_row_no_conflict db input :
Forall (fun e => LogDatabase.source_file e <> LogDatabase.sourceFile input
                 \/ LogDatabase.line_number e <> LogDatabase.lineNumber input)
  (LogDatabase.log_entries db) ->
existsb (LogDatabase.sameKey input) (LogDatabase.log_entries db) = false.
Proof.
induction 1 as [|e l He _ IH]; simpl; [done|].
rewrite IH, orb_false_r. unfold LogDatabase.sameKey.
destruct (String.eqb_spec (LogDatabase.source_file e) (LogDatabase.sourceFile input));
  [|done].
destruct (Z.eqb_spec (LogDatabase.line_number e) (LogDatabase.lineNumber input));
  [|done].
by destruct He.
Qed.

Section WithRuntime.
Context `{Runtime}.

Lemma normalizeMessage_spec v : MessageSpec v (normalizeMessage v).
Proof.
unfold MessageSpec, normalizeMessage. repeat split.
- by intros s ->.
- by intros [-> | ->].
- intros x -> Hstr Hnull. destruct x; try done. by destruct (Hstr s).
Qed.

(** C7 (as amended). A line that parses to an object and whose place
[(sourceFile, lineNumber)] is free adds one row to [log_entries];
the row's [timestamp] is the record's value when that is a non-empty
string, kept as it is whether or not it reads as a time, and the
wall-clock time when the member is missing, no string or the empty
string; its [level] is the upper-cased non-empty string or else
[INFO], its [event] the record's non-empty event, else its non-empty
message, else [log.event], and its [message] the string value, the
empty string for null or a missing member, and the JSON text of any
other value. *)
Theorem C7_record_fields_are_normalized clock db input members :
Js.nonEmpty (Js.trim (line input)) = true ->
JSON_parse (Js.trim (line input)) = Some (JObj members) ->
Forall (fun e => LogDatabase.source_file e <> pl_sourceFile input
               \/ LogDatabase.line_number e <> pl_lineNumber input)
(LogDatabase.log_entries db) ->
exists db' row,
processLine clock db input = Return (db', incRecordsInserted (report input))
/\ LogDatabase.log_entries db' = LogDatabase.log_entries db ++ [row]
/\ TimestampSpec (clock (pl_sourceFile input) (pl_lineNumber input))
     (Obj.get "timestamp" members) (LogDatabase.timestamp row)
/\ LevelSpec (Obj.get "level" members) (LogDatabase.level row)
/\ EventSpec (Obj.get "event" members) (Obj.get "message" members)
     (LogDatabase.event row)
/\ MessageSpec (Obj.get "message" members) (LogDatabase.message row).
Proof.
intros Hline Hparse Hfree. unfold processLine. rewrite Hline, Hparse. simpl.
destruct (normalizeEvent_object members) as (ev & Hev & Hevspec).
destruct (normalizeAudit_object members (pl_filePath input)) as (au & Hau).
rewrite Hev, Hau. simpl.
unfold LogDatabase.upsertEntry, LogDatabase.insertOrIgnoreEntry.
rewrite no_row_no_conflict by done. simpl.
rewrite upsertFields_withFields
  by (cbn [LogDatabase.log_entries]; rewrite map_app; apply elem_of_app; right;
      apply list_elem_of_singleton; done).
simpl.
eexists _, _. split; [done|]. rewrite withFields_entries. simpl.
split; [done|]. simpl.
split; [apply normalizeTimestamp_spec|].
split; [apply normalizeLevel_spec|].
split; [done|]. apply normalizeMessage_spec.
Qed.

Lemma processLine_blank clock db input :
  Js.nonEmpty (Js.trim (line input)) = false ->
  processLine clock db input = Return (db, report input).
Proof. unfold processLine. by intros ->. Qed.

Lemma processLine_malformed clock db input :
  Js.nonEmpty (Js.trim (line input)) = true ->
  JSON_parse (Js.trim (line input)) = None ->
  processLine clock db input = Return (db, incParseErrors (report input)).
Proof. unfold processLine. by intros -> ->. Qed.

Lemma processLine_null clock db input :
  Js.nonEmpty (Js.trim (line input)) = true ->
  JSON_parse (Js.trim (line input)) = Some JNull ->
  processLine clock db input = Throw "TypeError: Cannot read properties of null".
Proof. unfold processLine. by intros -> ->. Qed.

(** What does hold of every line: a line that is empty after trimming
    changes neither the store nor the report; a line that is no JSON
    text is counted in [parseErrors] and changes nothing else; and the
    table of entries changes only for a line that parses to a JSON
    value other than [null]. *)
Theorem blank_and_malformed_lines clock db input :
  (Js.nonEmpty (Js.trim (line input)) = false ->
   processLine clock db input = Return (db, report input))
  /\ (Js.nonEmpty (Js.trim (line input)) = true ->
      JSON_parse (Js.trim (line input)) = None ->
      processLine clock db input = Return (db, incParseErrors (report input)))
  /\ (forall db' rep',
        processLine clock db input = Return (db', rep') ->
        LogDatabase.log_entries db' <> LogDatabase.log_entries db ->
        exists record,
          JSON_parse (Js.trim (line input)) = Some record /\ record <> JNull).
Proof.
  split; [apply processLine_blank|]. split; [apply processLine_malformed|].
  intros db' rep' Hrun Hchanged.
  destruct (Js.nonEmpty (Js.trim (line input))) eqn:Hline.
  - destruct (JSON_parse (Js.trim (line input))) as [record|] eqn:Hparse.
    + exists record. split; [done|]. intros ->.
      by rewrite processLine_null in Hrun.
    + rewrite processLine_malformed in Hrun by done. by injection Hrun as <- <-.
  - rewrite processLine_blank in Hrun by done. by injection Hrun as <- <-.
Qed.

End WithRuntime.

Import Reference.

Example warn_line_row :
option_map LogDatabase.log_entries
  (match processLine sampleClock LogDatabase.empty (lineInput warnLine) with
   | Return st => Some (fst st)
   | Throw _ => None
   end) =
Some [{| LogDatabase.id := 1;
         LogDatabase.timestamp := "2024-05-01T10:00:00.000Z";
         LogDatabase.level := "WARN";
         LogDatabase.event := "disk low";
         LogDatabase.message := "disk low";
         LogDatabase.is_audit := false;
         LogDatabase.data_json := warnLine;
         LogDatabase.source_file := "app/a.ndjson";
         LogDatabase.line_number := 1 |}].
Proof. vm_compute. reflexivity. Qed.

(** The claim as stated fails on a timestamp that is no time: the record
  [{"timestamp":"not-a-date"}] is stored with that text as its
  timestamp, where the claim has the wall-clock time. *)
Lemma C7_invalid_timestamp_is_kept :
exists db',
  processLine sampleClock LogDatabase.empty (lineInput badTimestampLine)
  = Return (db', incRecordsInserted (createReport Interfaces.full))
  /\ map LogDatabase.timestamp (LogDatabase.log_entries db') = ["not-a-date"]
  /\ normalizeTimestamp (sampleClock "app/a.ndjson" 1) (Some (JStr "not-a-date"))
     = "not-a-date"
  /\ startsLikeIsoDate "not-a-date" = false
  /\ claimedTimestamp (sampleClock "app/a.ndjson" 1) (Some (JStr "not-a-date"))
     = "2024-05-01T10:00:00.000Z".
Proof. eexists. repeat split; vm_compute; reflexivity. Qed.

Lemma C7_record_fields_are_normalized_witness :
exists db' row,
  processLine sampleClock LogDatabase.empty (lineInput warnLine)
  = Return (db', incRecordsInserted (report (lineInput warnLine)))
  /\ LogDatabase.log_entries db' = LogDatabase.log_entries LogDatabase.empty ++ [row]
  /\ TimestampSpec (sampleClock "app/a.ndjson" 1)
       (Obj.get "timestamp" [("level", JStr "warn"); ("message", JStr "disk low")])
       (LogDatabase.timestamp row)
  /\ LevelSpec (Obj.get "level" [("level", JStr "warn"); ("message", JStr "disk low")])
       (LogDatabase.level row)
  /\ EventSpec (Obj.get "event" [("level", JStr "warn"); ("message", JStr "disk low")])
       (Obj.get "message" [("level", JStr "warn"); ("message", JStr "disk low")])
       (LogDatabase.event row)
  /\ MessageSpec (Obj.get "message" [("level", JStr "warn"); ("message", JStr "disk low")])
       (LogDatabase.message row).
Proof.
apply (C7_record_fields_are_normalized sampleClock LogDatabase.empty
         (lineInput warnLine) [("level", JStr "warn"); ("message", JStr "disk low")]).
- vm_compute. reflexivity.
- vm_compute. reflexivity.
- constructor.
Defined.

(** C4 (the claim fails on the code). A line that holds the JSON number
  [42] is no parse error for [processLine]: it becomes a row, counted in
  [recordsInserted]; a line that holds [null] makes [processLine] throw a
  TypeError, which ends the pass. *)
Theorem C4_non_object_lines_are_not_parse_errors :
(exists db',
   processLine sampleClock LogDatabase.empty (lineInput "42")
     = Return (db', incRecordsInserted (createReport Interfaces.full))
   /\ map LogDatabase.data_json (LogDatabase.log_entries db') = ["42"]
   /\ Interfaces.parseErrors (incRecordsInserted (createReport Interfaces.full)) = 0)
/\ processLine sampleClock LogDatabase.empty (lineInput "null")
    = Throw "TypeError: Cannot read properties of null".
Proof. split; [eexists; split; [|split]|]; vm_compute; reflexivity. Qed.

End IndexerFacts.

(** ** The audit flag of a record *)

Module AuditFacts.

Import LogIndexer IndexerSpec.
Local Open Scope list_scope.

Lemma splitChar_cons c s : exists hd tl, Js.splitChar c s = hd :: tl.
Proof.
induction s as [|d rest (hd & tl & IH)]; simpl; [by eauto|].
destruct (Ascii.eqb c d); [by eauto|]. rewrite IH. eauto.
Qed.

Lemma prefix_nil s : String.prefix EmptyString s = true.
Proof. by destruct s. Qed.

Lemma prefix_cons a s1 b s2 :
String.prefix (String a s1) (String b s2) = Ascii.eqb a b && String.prefix s1 s2.
Proof.
cbn [String.prefix].
destruct (ascii_dec a b) as [->|Hne]; [by rewrite Ascii.eqb_refl|].
by destruct (Ascii.eqb_spec a b).
Qed.

(** The first segment is [w] and a separator follows it exactly when the
  string starts with [w] and a separator. *)
Lemma first_segment w : forall s,
Js.allChars (fun c => negb (Ascii.eqb "/" c)) w = true ->
String.prefix (w ++ "/")%string s =
match Js.splitChar "/" s with
| hd :: tl => (hd =? w)%string && negb (bool_decide (tl = []))
| [] => false
end.
Proof.
induction w as [|c w IH]; intros s Hw.
- destruct s as [|d rest]; [done|].
  change (String.append EmptyString "/") with "/".
  cbn [Js.splitChar]. rewrite prefix_cons, prefix_nil, andb_true_r.
  destruct (Ascii.eqb_spec "/" d) as [<-|Hd].
  + destruct (splitChar_cons "/" rest) as (hd & tl & ->).
    by rewrite bool_decide_eq_false_2.
  + by destruct (splitChar_cons "/" rest) as (hd & tl & ->).
- cbn [Js.allChars] in Hw. apply andb_true_iff in Hw as [Hc Hw].
  apply negb_true_iff in Hc.
  destruct s as [|d rest]; [done|].
  change (String.append (String c w) "/") with (String c (String.append w "/")).
  cbn [Js.splitChar]. rewrite prefix_cons.
  destruct (Ascii.eqb_spec "/" d) as [<-|Hd].
  + rewrite Ascii.eqb_sym, Hc. done.
  + specialize (IH rest Hw).
    destruct (splitChar_cons "/" rest) as (hd & tl & Hsplit).
    rewrite Hsplit in IH |- *. rewrite IH.
    cbn [String.eqb]. rewrite (Ascii.eqb_sym d c).
    by destruct (Ascii.eqb c d).
Qed.

Lemma segment_between_separators s :
Js.includes "/audit/" s = existsb (String.eqb "audit") (directorySegments s).
Proof.
unfold directorySegments.
induction s as [|d rest IH]; [done|].
cbn [Js.includes Js.splitChar]. rewrite prefix_cons.
destruct (Ascii.eqb_spec "/" d) as [<-|Hd].
- change (String.prefix "audit/" rest)
    with (String.prefix ("audit" ++ "/")%string rest).
  rewrite first_segment by done. rewrite IH.
  destruct (splitChar_cons "/" rest) as (hd & tl & ->).
  destruct tl as [|t tl].
  + by rewrite bool_decide_eq_true_2, andb_false_r.
  + rewrite bool_decide_eq_false_2 by done.
    cbn [negb removelast existsb]. by rewrite andb_true_r, String.eqb_sym.
- cbn [andb orb]. rewrite IH.
  by destruct (splitChar_cons "/" rest) as (hd & tl & ->).
Qed.

Lemma pathHasAuditSegment_spec path : pathHasAuditSegment path = hasAuditSegment path.
Proof. apply segment_between_separators. Qed.

(** C6 (as amended). An explicit audit value wins: a boolean, a number
  (zero is false, any other number true) or one of the words true, 1,
  yes, false, 0, no, in any case and with white space around it;
  otherwise the record is an audit record when the file path has a
  directory segment [audit] (case-insensitive), and it is none when the
  path has no such segment and the file's basename does not contain
  [audit] either. *)
Theorem C6_audit_flag_derivation members path :
exists b,
  normalizeAudit (JObj members) path = Return b
  /\ match explicitAudit (Obj.get "audit" members) with
     | Some x => b = x
     | None =>
         (hasAuditSegment path = true -> b = true)
         /\ (hasAuditSegment path = false -> basenameHasAudit path = false -> b = false)
     end.
Proof.
unfold normalizeAudit, explicitAudit. simpl.
rewrite pathHasAuditSegment_spec.
destruct (Obj.get "audit" members) as [[| | |s| |]|];
  try (eexists; split; [done|]; try done; split; congruence).
set (word := Js.toLowerCase (Js.trim s)).
destruct (String.eqb_spec word "true") as [->|H1]; [by eexists|].
destruct (String.eqb_spec word "1") as [->|H2]; [by eexists|].
destruct (String.eqb_spec word "yes") as [->|H3]; [by eexists|].
rewrite bool_decide_eq_false_2; [|rewrite !elem_of_cons, elem_of_nil; tauto].
destruct (String.eqb_spec word "false") as [->|H4]; [by eexists|].
destruct (String.eqb_spec word "0") as [->|H5]; [by eexists|].
destruct (String.eqb_spec word "no") as [->|H6]; [by eexists|].
rewrite bool_decide_eq_false_2; [|rewrite !elem_of_cons, elem_of_nil; tauto].
simpl. eexists; split; [done|]. split; congruence.
Qed.

(** The claim as stated fails where a number is the explicit value: the
  record [{"audit":0}] in a file below a directory [audit] is no audit
  record for the indexer, and one for the claim. *)
Lemma C6_number_overrides_path :
normalizeAudit (JObj [("audit", JNum 0)]) "/srv/logs/audit/a.ndjson" = Return false
/\ claimedIsAudit [("audit", JNum 0)] "/srv/logs/audit/a.ndjson" = true.
Proof. split; vm_compute; reflexivity. Qed.

(** The basename rule of [isAuditLogFile] has no counterpart in
  [normalizeAudit]. *)
Example basename_rule_differs :
Server.isAuditLogFile "/srv/logs/app/audit-2024.ndjson" = true
/\ normalizeAudit (JObj []) "/srv/logs/app/audit-2024.ndjson" = Return false.
Proof. split; vm_compute; reflexivity. Qed.

End AuditFacts.

(** ** Indexing passes *)

Module PassFacts.

Import LogIndexer IndexerSpec.
Local Open Scope list_scope.

Lemma existsb_find {A} (p : A -> bool) l :
  existsb p l = true -> exists x, find p l = Some x.
Proof.
  induction l as [|a l IH]; simpl; [done|].
  destruct (p a); [by eauto | done].
Qed.

Lemma afterSkips_zero db : afterSkips db 0 = db.
Proof. done. Qed.

Lemma afterSkips_entries db n :
  LogDatabase.log_entries (afterSkips db n) = LogDatabase.log_entries db.
Proof. unfold afterSkips. by destruct (n <=? 0). Qed.

Lemma afterSkips_fields db n :
  LogDatabase.log_fields (afterSkips db n) = LogDatabase.log_fields db.
Proof. unfold afterSkips. by destruct (n <=? 0). Qed.

Lemma afterSkips_counter db n :
  LogDatabase.sqlite_sequence (afterSkips db n)
  = if n <=? 0 then LogDatabase.sqlite_sequence db else nextId db + (n - 1).
Proof. unfold afterSkips. by destruct (n <=? 0). Qed.

(** The store that an ignored insert leaves. *)
Lemma afterSkips_one db :
  {| LogDatabase.log_entries := LogDatabase.log_entries db;
     LogDatabase.log_fields := LogDatabase.log_fields db;
     LogDatabase.sqlite_sequence :=
       Z.max (LogDatabase.largestId (LogDatabase.log_entries db))
         (LogDatabase.sqlite_sequence db) + 1 |}
  = afterSkips db 1.
Proof. unfold afterSkips, nextId. cbn. f_equal. lia. Qed.

Lemma afterSkips_add db a b :
  0 <= a -> 0 <= b -> afterSkips (afterSkips db a) b = afterSkips db (a + b).
Proof.
  intros Ha Hb. unfold afterSkips at 1 3.
  destruct (Z.leb_spec b 0) as [Hb0|Hb1].
  - replace (a + b) with a by lia. unfold afterSkips. by destruct (a <=? 0).
  - destruct (Z.leb_spec (a + b) 0) as [|_]; [lia|].
    rewrite afterSkips_entries, afterSkips_fields. f_equal.
    unfold nextId at 1. rewrite afterSkips_entries, afterSkips_counter.
    destruct (Z.leb_spec a 0) as [Ha0|Ha1].
    + replace a with 0 by lia. unfold nextId. lia.
    + unfold nextId. lia.
Qed.

Lemma keyPresent_afterSkips db n sf ln :
  keyPresent (afterSkips db n) sf ln <-> keyPresent db sf ln.
Proof. unfold keyPresent. by rewrite afterSkips_entries. Qed.

Lemma Covers_afterSkips a b n : Covers a b -> Covers a (afterSkips b n).
Proof. intros Hab sf ln Hk. apply keyPresent_afterSkips. by apply Hab. Qed.

Lemma upsertEntry_cases db inp :
  let taken := existsb (hasKey (LogDatabase.sourceFile inp) (LogDatabase.lineNumber inp))
                 (LogDatabase.log_entries db) in
  let newId := Z.max (LogDatabase.largestId (LogDatabase.log_entries db))
                 (LogDatabase.sqlite_sequence db) + 1 in
  (taken = true ->
   exists i, LogDatabase.upsertEntry db inp
             = Return (afterSkips db 1,
                       {| LogDatabase.entryId := i; LogDatabase.inserted := false |}))
  /\ (taken = false ->
      LogDatabase.upsertEntry db inp
      = Return ({| LogDatabase.log_entries :=
                     LogDatabase.log_entries db ++ [LogDatabase.rowOf newId inp];
                   LogDatabase.log_fields := LogDatabase.log_fields db;
                   LogDatabase.sqlite_sequence := newId |},
                {| LogDatabase.entryId := newId; LogDatabase.inserted := true |})).
Proof.
  intros taken newId. unfold LogDatabase.upsertEntry, LogDatabase.insertOrIgnoreEntry.
  change (existsb (LogDatabase.sameKey inp) (LogDatabase.log_entries db)) with taken.
  split; intros Htaken; rewrite Htaken.
  - destruct (existsb_find (LogDatabase.sameKey inp) _ Htaken) as (existing & Hfind).
    cbn. rewrite Hfind, afterSkips_one. eauto.
  - done.
Qed.

Lemma normalizeEvent_total record :
  record <> JNull -> exists out, normalizeEvent record = Return out.
Proof.
  intros Hnull. destruct record; try done; try (by eexists).
  destruct (IndexerFacts.normalizeEvent_object members) as (out & Hout & _). eauto.
Qed.

Lemma normalizeAudit_total record path :
  record <> JNull -> exists b, normalizeAudit record path = Return b.
Proof.
  intros Hnull. destruct record; try done; try (by eexists).
  apply IndexerFacts.normalizeAudit_object.
Qed.

Lemma prop_total record key :
  record <> JNull -> exists v, Obj.prop record key = Return v.
Proof. intros Hnull. destruct record; try done; by eexists. Qed.

Lemma entries_total record :
  record <> JNull -> exists members, Obj.entries record = Return members.
Proof. intros Hnull. destruct record; try done; by eexists. Qed.

Lemma null_or_not (v : JsonValue) : v = JNull \/ v <> JNull.
Proof. destruct v; auto. Qed.

Lemma Covers_refl db : Covers db db.
Proof. by intros sf ln. Qed.

Lemma Covers_trans a b c : Covers a b -> Covers b c -> Covers a c.
Proof. intros Hab Hbc sf ln Hk. by apply Hbc, Hab. Qed.

Section WithRuntime.
Context `{Runtime}.

(** What [processLine] does with a line that parses to a value other than
    [null]: a duplicate when its place is taken, a new row otherwise. *)
Lemma processLine_value clock db input record :
  Js.nonEmpty (Js.trim (line input)) = true ->
  JSON_parse (Js.trim (line input)) = Some record ->
  record <> JNull ->
  exists inp members,
    LogDatabase.sourceFile inp = pl_sourceFile input
    /\ LogDatabase.lineNumber inp = pl_lineNumber input
    /\ LogDatabase.dataJson inp = JSON_stringify record
    /\ processLine clock db input =
       if existsb (hasKey (pl_sourceFile input) (pl_lineNumber input))
            (LogDatabase.log_entries db)
       then Return (afterSkips db 1, incRecordsSkipped (report input))
       else Return (inserted db inp members, incRecordsInserted (report input)).
Proof.
  intros Hline Hparse Hnull. unfold processLine. rewrite Hline, Hparse. cbn [negb].
  destruct (prop_total record "timestamp" Hnull) as (ts & ->).
  destruct (prop_total record "level" Hnull) as (lv & ->).
  destruct (normalizeEvent_total record Hnull) as (ev & ->).
  destruct (prop_total record "message" Hnull) as (msg & ->).
  destruct (normalizeAudit_total record (pl_filePath input) Hnull) as (au & ->).
  destruct (entries_total record Hnull) as (members & ->).
  cbn [mbind Outcome_bind].
  match goal with
  | |- context [LogDatabase.upsertEntry db ?i] => set (inp := i)
  end.
  exists inp, members. split; [done|]. split; [done|]. split; [done|].
  destruct (upsertEntry_cases db inp) as [Htaken Hfree].
  change (LogDatabase.sourceFile inp) with (pl_sourceFile input) in Htaken, Hfree.
  change (LogDatabase.lineNumber inp) with (pl_lineNumber input) in Htaken, Hfree.
  destruct (existsb (hasKey (pl_sourceFile input) (pl_lineNumber input))
              (LogDatabase.log_entries db)).
  - destruct (Htaken eq_refl) as (i & ->). done.
  - rewrite (Hfree eq_refl). cbn [mbind Outcome_bind LogDatabase.inserted negb
                                  LogDatabase.entryId].
    rewrite IndexerFacts.upsertFields_withFields; [done|].
    cbn [LogDatabase.log_entries]. rewrite map_app. apply elem_of_app. right.
    by apply list_elem_of_singleton.
Qed.

Lemma inserted_entries db inp members :
  LogDatabase.log_entries (inserted db inp members) =
  LogDatabase.log_entries db
  ++ [LogDatabase.rowOf (Z.max (LogDatabase.largestId (LogDatabase.log_entries db))
                           (LogDatabase.sqlite_sequence db) + 1) inp].
Proof. unfold inserted. by rewrite IndexerFacts.withFields_entries. Qed.

Lemma processLine_grows clock db input db' rep' :
  processLine clock db input = Return (db', rep') ->
  Covers db db'
  /\ (isBlank (line input) = false ->
      JSON_parse (Js.trim (line input)) <> None ->
      keyPresent db' (pl_sourceFile input) (pl_lineNumber input)).
Proof.
  intros Hrun. unfold isBlank.
  destruct (Js.nonEmpty (Js.trim (line input))) eqn:Hline.
  - destruct (JSON_parse (Js.trim (line input))) as [record|] eqn:Hparse.
    + destruct (null_or_not record) as [->|Hnull].
      { unfold processLine in Hrun. by rewrite Hline, Hparse in Hrun. }
      destruct (processLine_value clock db input record Hline Hparse Hnull)
        as (inp & members & Hsf & Hln & _ & Heq).
      rewrite Heq in Hrun. unfold keyPresent.
      destruct (existsb _ _) eqn:Hkey.
      * injection Hrun as <- <-.
        split; [apply Covers_afterSkips, Covers_refl|].
        intros _ _. by apply keyPresent_afterSkips.
      * injection Hrun as <- <-. split.
        -- intros sf ln. unfold keyPresent.
           rewrite inserted_entries, existsb_app. intros ->. done.
        -- intros _ _. rewrite inserted_entries, existsb_app. simpl.
           unfold hasKey. simpl. rewrite Hsf, Hln, String.eqb_refl, Z.eqb_refl.
           by rewrite orb_true_r.
    + unfold processLine in Hrun. rewrite Hline, Hparse in Hrun.
      injection Hrun as <- <-. split; [apply Covers_refl | done].
  - unfold processLine in Hrun. rewrite Hline in Hrun.
    injection Hrun as <- <-. split; [apply Covers_refl | done].
Qed.

Lemma processLine_again clock1 clock2 dbA dbB input stA repB :
  processLine clock1 dbA input = Return stA ->
  (isBlank (line input) = false ->
   JSON_parse (Js.trim (line input)) <> None ->
   keyPresent dbB (pl_sourceFile input) (pl_lineNumber input)) ->
  processLine clock2 dbB
    {| pl_filePath := pl_filePath input; line := line input;
       pl_lineNumber := pl_lineNumber input; report := repB;
       pl_sourceFile := pl_sourceFile input |}
  = Return (afterSkips dbB (if isRecordLine (line input) then 1 else 0),
            countAgain repB (line input)).
Proof.
  intros Hrun Hkey. unfold isRecordLine, countAgain, isBlank in *.
  destruct (Js.nonEmpty (Js.trim (line input))) eqn:Hline; cbn [negb andb] in *.
  - destruct (JSON_parse (Js.trim (line input))) as [record|] eqn:Hparse.
    + destruct (null_or_not record) as [->|Hnull].
      { unfold processLine in Hrun. by rewrite Hline, Hparse in Hrun. }
      match goal with |- processLine _ _ ?i = _ => set (input2 := i) end.
      destruct (processLine_value clock2 dbB input2 record Hline Hparse Hnull)
        as (inp & members & _ & _ & _ & Heq).
      rewrite Heq. subst input2. cbn [pl_sourceFile pl_lineNumber report].
      unfold keyPresent in Hkey. rewrite Hkey by done.
      by rewrite bool_decide_eq_true_2.
    + unfold processLine. cbn [line]. rewrite Hline, Hparse.
      rewrite bool_decide_eq_false_2 by (by intros []). done.
  - unfold processLine. cbn [line]. by rewrite Hline.
Qed.

Lemma recordLines_cons l rest :
  recordLines (l :: rest) = (if isRecordLine l then 1 else 0) + recordLines rest.
Proof.
  unfold recordLines. cbn [List.filter]. destruct (isRecordLine l); cbn [length]; lia.
Qed.

Lemma recordLines_app l1 l2 : recordLines (l1 ++ l2) = recordLines l1 + recordLines l2.
Proof. unfold recordLines. rewrite List.filter_app, length_app. lia. Qed.

Lemma recordLines_nonneg lines : 0 <= recordLines lines.
Proof. unfold recordLines. lia. Qed.

Lemma recount_countAgain rep l : recount rep l = countAgain (incLinesScanned rep) l.
Proof. done. Qed.

Lemma scanLines_again clock1 clock2 file lines :
  forall n dbA repA stA' n',
    scanLines clock1 file lines n (dbA, repA) = Return (stA', n') ->
    Covers dbA (fst stA')
    /\ forall dbB repB,
         Covers (fst stA') dbB ->
         scanLines clock2 file lines n (dbB, repB)
         = Return ((afterSkips dbB (recordLines lines), fold_left recount lines repB), n').
Proof.
  induction lines as [|l rest IH]; intros n dbA repA stA' n' Hrun.
  - injection Hrun as <- <-. split; [apply Covers_refl | done].
  - cbn [scanLines fst snd] in Hrun.
    destruct (processLine clock1 dbA _) as [[db1 rep1]|e] eqn:Hline; [|done].
    cbn [mbind Outcome_bind] in Hrun.
    destruct (IH _ _ _ _ _ Hrun) as [Hcov Hagain].
    destruct (processLine_grows _ _ _ _ _ Hline) as [Hgrow Hkey].
    split; [by eapply Covers_trans|].
    intros dbB repB HB. cbn [scanLines fst snd].
    assert (Hpresent : isBlank l = false -> JSON_parse (Js.trim l) <> None ->
                       keyPresent dbB (sourceFile file) (n + 1)).
    { intros Hb Hp. apply HB, Hcov. by apply Hkey. }
    pose proof (processLine_again clock1 clock2 dbA dbB _ _ (incLinesScanned repB)
                  Hline Hpresent) as Hline2.
    cbn [pl_filePath line pl_lineNumber pl_sourceFile] in Hline2. rewrite Hline2.
    cbn [mbind Outcome_bind fold_left]. rewrite recount_countAgain.
    rewrite (Hagain (afterSkips dbB (if isRecordLine l then 1 else 0)))
      by (by apply Covers_afterSkips).
    rewrite afterSkips_add, recordLines_cons;
      [done | by destruct (isRecordLine l) | apply recordLines_nonneg].
Qed.

Lemma indexFileFull_again clock1 clock2 file dbA repA db1 rep1 :
  indexFileFull clock1 file (dbA, repA) = Return (db1, rep1) ->
  Covers dbA db1
  /\ forall dbB repB,
       Covers db1 dbB ->
       indexFileFull clock2 file (dbB, repB)
       = Return (afterSkips dbB (recordLines (linesOf file)),
                 fold_left recount (linesOf file) repB).
Proof.
  unfold indexFileFull, linesOf. intros Hrun.
  destruct (scanLines clock1 file _ 0 (dbA, repA)) as [[st n1]|e] eqn:Hscan; [|done].
  injection Hrun as Hst.
  destruct (scanLines_again clock1 clock2 file _ _ _ _ _ _ Hscan) as [Hgrow Hscan2].
  rewrite Hst in Hgrow, Hscan2. cbn [fst] in *.
  split; [done|]. intros dbB repB HB. by rewrite (Hscan2 dbB repB HB).
Qed.

Lemma forEachFile_again clock1 clock2 files :
  forall dbA repA dbA' repA',
    forEachFile (indexFileFull clock1) files (dbA, repA) = Return (dbA', repA') ->
    Covers dbA dbA'
    /\ forall dbB repB,
         Covers dbA' dbB ->
         forEachFile (indexFileFull clock2) files (dbB, repB)
         = Return (afterSkips dbB (recordLines (flat_map linesOf files)),
                   fold_left recount (flat_map linesOf files) repB).
Proof.
  induction files as [|f rest IH]; intros dbA repA dbA' repA' Hrun.
  - injection Hrun as <- <-. split; [apply Covers_refl | done].
  - cbn [forEachFile] in Hrun.
    destruct (indexFileFull clock1 f (dbA, repA)) as [[db1 rep1]|e] eqn:Hfile; [|done].
    cbn [mbind Outcome_bind] in Hrun.
    destruct (IH _ _ _ _ Hrun) as [Hcov Hagain].
    destruct (indexFileFull_again clock1 clock2 f _ _ _ _ Hfile) as [Hgrow Hfile2].
    split; [by eapply Covers_trans|].
    intros dbB repB HB. cbn [forEachFile].
    rewrite (Hfile2 dbB repB) by (by eapply Covers_trans).
    cbn [mbind Outcome_bind flat_map]. rewrite fold_left_app.
    rewrite (Hagain (afterSkips dbB (recordLines (linesOf f))))
      by (by apply Covers_afterSkips).
    rewrite afterSkips_add, recordLines_app; [done | apply recordLines_nonneg..].
Qed.

Lemma recount_totals lines : forall rep,
  let rep' := fold_left recount lines rep in
  Interfaces.recordsInserted rep' = Interfaces.recordsInserted rep
  /\ Interfaces.linesScanned rep' = Interfaces.linesScanned rep + Z.of_nat (length lines)
  /\ Interfaces.recordsSkipped rep' + Interfaces.parseErrors rep'
     = Interfaces.recordsSkipped rep + Interfaces.parseErrors rep
       + Z.of_nat (length lines) - Z.of_nat (length (List.filter isBlank lines))
  /\ Interfaces.recordsSkipped rep' = Interfaces.recordsSkipped rep + recordLines lines.
Proof.
  induction lines as [|l rest IH]; intros rep; cbn [fold_left].
  - unfold recordLines. cbn. lia.
  - specialize (IH (recount rep l)). cbn zeta in IH.
    destruct IH as (H1 & H2 & H3 & H4). rewrite H1, H2, H3, H4. clear H1 H2 H3 H4.
    rewrite recordLines_cons. unfold recount, isRecordLine. cbn [List.filter length].
    destruct (isBlank l); [cbn; lia|].
    destruct (JSON_parse (Js.trim l)); cbn; lia.
Qed.

(** C5 (as amended). When a full pass over a logs tree has returned, a
    second full pass over the same tree returns as well and changes no
    stored entry and no stored field, so every query gives the same
    result; the one thing that changes in the store is the counter of
    AUTOINCREMENT, which every ignored insert advances. The report of the
    second pass has [recordsInserted = 0], counts every line in
    [linesScanned], and has
    [recordsSkipped = totalLines - blankLines - parseErrors]: a line that
    is empty after trimming is scanned and counted in none of the other
    counters. *)
Theorem C5_second_full_pass_changes_nothing clock1 clock2 files db0 db1 rep1 :
  indexDirectory clock1 files db0 = Return (db1, rep1) ->
  exists db2 rep2,
    indexDirectory clock2 files db1 = Return (db2, rep2)
    /\ LogDatabase.log_entries db2 = LogDatabase.log_entries db1
    /\ LogDatabase.log_fields db2 = LogDatabase.log_fields db1
    /\ db2 = afterSkips db1 (Interfaces.recordsSkipped rep2)
    /\ Interfaces.recordsInserted rep2 = 0
    /\ Interfaces.linesScanned rep2 = totalLines files
    /\ Interfaces.recordsSkipped rep2
       = totalLines files - blankLines files - Interfaces.parseErrors rep2.
Proof.
  unfold indexDirectory. intros Hrun.
  destruct (forEachFile_again clock1 clock2 files _ _ _ _ Hrun) as [_ Hagain].
  eexists _, _. split; [apply Hagain, Covers_refl|].
  match goal with
  | |- context [fold_left recount ?ls ?r] =>
      destruct (recount_totals ls r) as (H1 & H2 & H3 & H4)
  end.
  cbn zeta in *. unfold totalLines, blankLines.
  cbn [Interfaces.recordsInserted Interfaces.linesScanned Interfaces.recordsSkipped
       Interfaces.parseErrors setFilesScanned createReport] in H1, H2, H3, H4.
  split; [apply afterSkips_entries|]. split; [apply afterSkips_fields|].
  split; [by rewrite H4|]. repeat split; lia.
Qed.

End WithRuntime.

Import Reference.

(** The claim as stated fails on a file with a blank line: the second pass
    scans three lines, finds no parse error and skips two records. It
    changes no row; the counter goes from 2 to 4. *)
Lemma C5_blank_line_is_not_skipped_record :
  exists db1 rep1 db2 rep2,
    indexDirectory sampleClock [gappedFile] LogDatabase.empty = Return (db1, rep1)
    /\ indexDirectory sampleClock [gappedFile] db1 = Return (db2, rep2)
    /\ LogDatabase.log_entries db2 = LogDatabase.log_entries db1
    /\ (LogDatabase.sqlite_sequence db1, LogDatabase.sqlite_sequence db2) = (2, 4)
    /\ Interfaces.recordsInserted rep2 = 0
    /\ Interfaces.recordsSkipped rep2 = 2
    /\ Interfaces.linesScanned rep2 - Interfaces.parseErrors rep2 = 3.
Proof.
  eexists _, _, _, _. split; [vm_compute; reflexivity|].
  split; [vm_compute; reflexivity|]. repeat split.
Qed.

Lemma C5_second_full_pass_changes_nothing_witness :
  exists db2 rep2,
    indexDirectory sampleClock [gappedFile]
      (match indexDirectory sampleClock [gappedFile] LogDatabase.empty with
       | Return st => fst st
       | Throw _ => LogDatabase.empty
       end)
    = Return (db2, rep2)
    /\ LogDatabase.log_entries db2
       = LogDatabase.log_entries
           (match indexDirectory sampleClock [gappedFile] LogDatabase.empty with
            | Return st => fst st
            | Throw _ => LogDatabase.empty
            end)
    /\ Interfaces.recordsInserted rep2 = 0
    /\ Interfaces.linesScanned rep2 = totalLines [gappedFile]
    /\ Interfaces.recordsSkipped rep2
       = totalLines [gappedFile] - blankLines [gappedFile] - Interfaces.parseErrors rep2.
Proof.
  destruct (C5_second_full_pass_changes_nothing sampleClock sampleClock [gappedFile]
           LogDatabase.empty
           (match indexDirectory sampleClock [gappedFile] LogDatabase.empty with
            | Return st => fst st
            | Throw _ => LogDatabase.empty
            end)
           (match indexDirectory sampleClock [gappedFile] LogDatabase.empty with
            | Return st => snd st
            | Throw _ => createReport Interfaces.full
            end))
    as (db2 & rep2 & Hrun & Hentries & _ & _ & Hins & Hlines & Hskipped).
  { vm_compute. reflexivity. }
  exists db2, rep2. repeat split; assumption.
Defined.

End PassFacts.

(** ** Incremental passes: files rewritten in place *)

Module IncrementalFacts.

Import LogIndexer IndexerSpec.
Local Open Scope list_scope.

Lemma substring_all s : String.substring 0 (String.length s) s = s.
Proof. induction s as [|c s IH]; simpl; [done | by rewrite IH]. Qed.

Lemma readFrom_start bytes : readFrom 0 bytes = bytes.
Proof.
  unfold readFrom, Js.sliceFrom. change (Z.to_nat 0) with 0%nat.
  rewrite Nat.sub_0_r. apply substring_all.
Qed.



Section WithRuntime.
Context `{Runtime}.



End WithRuntime.

Import Reference.

Example rewritten_file_pass :
  match indexFileIncremental sampleClock rewrittenFile
          ({[ "/srv/logs/app/a.ndjson" := oldCursor ]},
           (oldStore, createReport Interfaces.incremental)) with
  | Return (st, (db, rep)) =>
      (map LogDatabase.event (LogDatabase.log_entries db),
       Interfaces.recordsInserted rep, Interfaces.recordsSkipped rep,
       st !! "/srv/logs/app/a.ndjson")
  | Throw _ => ([], 0, 0, None)
  end
  = (["b"], 1, 0,
     Some {| byteOffset := 14; fileSize := 14; st_lineNumber := 1; st_mtimeMs := 2000 |}).
Proof. vm_compute. reflexivity. Qed.


End IncrementalFacts.

(** ** Query pages *)

Module QueryFacts.

Import LogDatabase QuerySpec.
Local Open Scope list_scope.

(** *** The order of timestamps *)

Lemma ascii_compare_refl a : Ascii.compare a a = Eq.
Proof. unfold Ascii.compare. apply N.compare_refl. Qed.

Lemma compare_refl s : String.compare s s = Eq.
Proof. induction s as [|a s IH]; simpl; [done|]. by rewrite ascii_compare_refl. Qed.

Lemma compare_lt_trans a : forall b c,
  String.compare a b = Lt -> String.compare b c = Lt -> String.compare a c = Lt.
Proof.
  induction a as [|x a IH]; intros [|y b] [|z c]; simpl; try done.
  unfold Ascii.compare.
  destruct (N.compare_spec (N_of_ascii x) (N_of_ascii y)) as [Hxy|Hxy|Hxy];
    destruct (N.compare_spec (N_of_ascii y) (N_of_ascii z)) as [Hyz|Hyz|Hyz];
    try done; intros H1 H2.
  - rewrite Hxy, Hyz, N.compare_refl. by eapply IH.
  - by rewrite (proj2 (N.compare_lt_iff _ _)) by lia.
  - by rewrite (proj2 (N.compare_lt_iff _ _)) by lia.
  - by rewrite (proj2 (N.compare_lt_iff _ _)) by lia.
Qed.

Lemma ltb_lt a b : (a <? b)%string = true <-> String.compare a b = Lt.
Proof. unfold String.ltb. by destruct (String.compare a b). Qed.

Lemma ltb_irrefl a : (a <? a)%string = false.
Proof. unfold String.ltb. by rewrite compare_refl. Qed.

Lemma ltb_trans a b c :
  (a <? b)%string = true -> (b <? c)%string = true -> (a <? c)%string = true.
Proof. rewrite !ltb_lt. apply compare_lt_trans. Qed.

Lemma ltb_asym a b : (a <? b)%string = true -> (b <? a)%string = false.
Proof.
  intros Hab. destruct (b <? a)%string eqn:Hba; [|done].
  pose proof (ltb_trans _ _ _ Hab Hba) as Haa. by rewrite ltb_irrefl in Haa.
Qed.

Lemma ltb_total a b : (a <? b)%string = true \/ a = b \/ (b <? a)%string = true.
Proof.
  rewrite !ltb_lt. rewrite (String.compare_antisym b a).
  destruct (String.compare a b) eqn:Hc; simpl; auto.
  right; left. by apply String.compare_eq_iff.
Qed.

(** *** The page order *)

Lemma OrderBy_iff a b :
  OrderBy a b <->
  (timestamp b <? timestamp a)%string = true
  \/ (timestamp a = timestamp b /\ id b <= id a).
Proof.
  unfold OrderBy, orderedBefore.
  rewrite orb_true_iff, andb_true_iff, String.eqb_eq, Z.leb_le. tauto.
Qed.

#[local] Instance OrderBy_total : Total OrderBy.
Proof.
  intros a b. rewrite !OrderBy_iff.
  destruct (ltb_total (timestamp a) (timestamp b)) as [H|[H|H]]; auto.
  destruct (Z.le_ge_cases (id a) (id b)); [right; right | left; right]; split;
    congruence || lia.
Qed.

#[local] Instance OrderBy_trans : Transitive OrderBy.
Proof.
  intros a b c. rewrite !OrderBy_iff.
  intros [H1|[E1 L1]] [H2|[E2 L2]].
  - left. by eapply ltb_trans.
  - left. by rewrite E2 in H1.
  - left. by rewrite E1.
  - right. split; [congruence | lia].
Qed.

Lemma OrderBy_antisym a b :
  OrderBy a b -> OrderBy b a -> timestamp a = timestamp b /\ id a = id b.
Proof.
  rewrite !OrderBy_iff. intros [H1|[E1 L1]] [H2|[E2 L2]].
  - by rewrite (ltb_asym _ _ H1) in H2.
  - by rewrite E2, ltb_irrefl in H1.
  - by rewrite E1, ltb_irrefl in H2.
  - split; [done | lia].
Qed.

Lemma afterCursor_iff c e :
  afterCursor (Some c) e = true <-> AfterKey c (rowKey e).
Proof.
  unfold afterCursor, AfterKey. cbn [rowKey fst snd].
  rewrite orb_true_iff, andb_true_iff, String.eqb_eq, Z.ltb_lt. tauto.
Qed.

(** A row that may stand before [l] is not after the cursor of [l]. *)
Lemma before_not_after l x :
  OrderBy x l -> afterCursor (Some (cursorOfRow l)) x = false.
Proof.
  intros Hord. apply not_true_is_false. rewrite afterCursor_iff.
  apply OrderBy_iff in Hord. unfold AfterKey. cbn.
  intros [H1|[E1 L1]]; destruct Hord as [H2|[E2 L2]].
  - by rewrite (ltb_asym _ _ H1) in H2.
  - by rewrite E2, ltb_irrefl in H1.
  - by rewrite E1, ltb_irrefl in H2.
  - lia.
Qed.

(** A row with another id that may stand after [l] is after its cursor. *)
Lemma behind_is_after l x :
  OrderBy l x -> id x <> id l -> afterCursor (Some (cursorOfRow l)) x = true.
Proof.
  intros Hord Hne. rewrite afterCursor_iff. apply OrderBy_iff in Hord.
  unfold AfterKey. cbn. destruct Hord as [H|[E L]]; [by left|].
  right. split; [done | lia].
Qed.

Lemma after_trans cursor l x :
  afterCursor cursor l = true ->
  afterCursor (Some (cursorOfRow l)) x = true ->
  afterCursor cursor x = true.
Proof.
  destruct cursor as [c|]; [|done].
  rewrite !afterCursor_iff. unfold AfterKey. cbn.
  intros [H1|[E1 L1]] [H2|[E2 L2]].
  - left. by eapply ltb_trans.
  - left. by rewrite E2.
  - left. by rewrite <- E1.
  - right. split; [congruence | lia].
Qed.

(** *** Lists *)

Lemma filter_Permutation {A} (f : A -> bool) l l' :
  l ≡ₚ l' -> List.filter f l ≡ₚ List.filter f l'.
Proof.
  induction 1 as [|x l l' _ IH|x y l|l l' l'' _ IH1 _ IH2]; simpl.
  - done.
  - destruct (f x); [by constructor | done].
  - destruct (f x), (f y); try done. apply perm_swap.
  - by etrans.
Qed.

Lemma filter_filter {A} (f g : A -> bool) l :
  List.filter f (List.filter g l) = List.filter (fun x => g x && f x) l.
Proof.
  induction l as [|x l IH]; simpl; [done|].
  destruct (g x); simpl; [|done]. destruct (f x); by rewrite IH.
Qed.

Lemma filter_none {A} (f : A -> bool) l :
  Forall (fun x => f x = false) l -> List.filter f l = [].
Proof. induction 1 as [|x l Hx _ IH]; simpl; [done|]. by rewrite Hx. Qed.

Lemma filter_all {A} (f : A -> bool) l :
  Forall (fun x => f x = true) l -> List.filter f l = l.
Proof. induction 1 as [|x l Hx _ IH]; simpl; [done|]. by rewrite Hx, IH. Qed.

Lemma NoDup_filter_bool {A} (f : A -> bool) l : NoDup l -> NoDup (List.filter f l).
Proof.
  induction 1 as [|x l Hx _ IH]; simpl; [constructor|].
  destruct (f x); [|done]. constructor; [|done].
  rewrite list_elem_of_In, filter_In, <- list_elem_of_In. tauto.
Qed.

Lemma In_elem_of {A} (x : A) l : In x l <-> x ∈ l.
Proof. symmetry. apply list_elem_of_In. Qed.

(** *** The listing *)

Section Listing.
Context (db : Database) (options : Interfaces.LogQueryOptions).
Context (Hids : UniqueIds db).

Lemma same_id_same_row x y :
  x ∈ log_entries db -> y ∈ log_entries db -> id x = id y -> x = y.
Proof.
  unfold UniqueIds in Hids. intros Hx Hy Hid.
  apply list_elem_of_lookup in Hx as [i Hi]. apply list_elem_of_lookup in Hy as [j Hj].
  assert (i = j) as ->; [|congruence].
  eapply (NoDup_lookup (map id (log_entries db))); [done| |].
  - change (map id (log_entries db)) with (id <$> log_entries db).
    by rewrite list_lookup_fmap, Hi.
  - change (map id (log_entries db)) with (id <$> log_entries db).
    by rewrite list_lookup_fmap, Hj, Hid.
Qed.

Lemma listing_sorted cursor : StronglySorted OrderBy (listing db options cursor).
Proof. apply StronglySorted_merge_sort; apply _. Qed.

Lemma listing_Permutation cursor :
  listing db options cursor
  ≡ₚ List.filter (fun e => filterMatches db options e && afterCursor cursor e)
       (log_entries db).
Proof. apply merge_sort_Permutation. Qed.

Lemma listing_elem cursor x :
  x ∈ listing db options cursor ->
  x ∈ log_entries db /\ filterMatches db options x = true /\ afterCursor cursor x = true.
Proof.
  rewrite (listing_Permutation cursor), <- In_elem_of, filter_In, andb_true_iff, In_elem_of.
  tauto.
Qed.

Lemma listing_ids_differ cursor i j x y :
  listing db options cursor !! i = Some x ->
  listing db options cursor !! j = Some y ->
  i <> j -> id x <> id y.
Proof.
  intros Hi Hj Hne Hid.
  assert (x = y) as <-.
  { apply same_id_same_row; [| |done].
    - by eapply listing_elem, list_elem_of_lookup_2.
    - by eapply listing_elem, list_elem_of_lookup_2. }
  assert (Hnodup : NoDup (listing db options cursor)).
  { rewrite (listing_Permutation cursor). apply NoDup_filter_bool.
    unfold UniqueIds in Hids. by eapply (NoDup_fmap_1 id). }
  apply Hne. by eapply NoDup_lookup.
Qed.

(** The rows after the cursor of the row at position [k] are the rows
    behind position [k]. *)
Lemma filter_after_drop cursor k l :
  listing db options cursor !! k = Some l ->
  List.filter (afterCursor (Some (cursorOfRow l))) (listing db options cursor)
  = drop (S k) (listing db options cursor).
Proof.
  intros Hk. pose proof (listing_sorted cursor) as Hsorted.
  pose proof (listing_ids_differ cursor) as Hdiff.
  set (L := listing db options cursor) in *.
  rewrite <- (take_drop_middle L k l Hk) in Hsorted.
  rewrite <- (take_drop_middle L k l Hk) at 1.
  rewrite List.filter_app. cbn [List.filter].
  rewrite before_not_after by (apply OrderBy_iff; right; split; [done | lia]).
  apply StronglySorted_app in Hsorted as (Hcross & _ & Htail).
  apply StronglySorted_cons in Htail as [Hbehind _].
  rewrite filter_none, filter_all; [done| |].
  - rewrite Forall_forall in Hbehind |- *. intros x Hx.
    apply behind_is_after; [by apply Hbehind|].
    apply list_elem_of_lookup in Hx as [j Hj]. rewrite lookup_drop in Hj.
    eapply Hdiff; [exact Hj | exact Hk | lia].
  - apply Forall_forall. intros x Hx. apply before_not_after.
    apply Hcross; [done | by left].
Qed.

(** The listing after the cursor of a listed row is the rest of the
    listing behind that row. *)
Lemma next_listing cursor k l :
  listing db options cursor !! k = Some l ->
  listing db options (Some (cursorOfRow l)) = drop (S k) (listing db options cursor).
Proof.
  intros Hk.
  assert (Hl : afterCursor cursor l = true).
  { by eapply listing_elem, list_elem_of_lookup_2. }
  apply (StronglySorted_unique_strong OrderBy).
  - intros x y Hx Hy Hxy Hyx.
    apply same_id_same_row.
    + by eapply listing_elem.
    + eapply listing_elem. by eapply subseteq_drop.
    + by apply OrderBy_antisym.
  - apply listing_sorted.
  - pose proof (listing_sorted cursor) as Hsorted.
    rewrite <- (take_drop (S k) (listing db options cursor)) in Hsorted.
    by apply StronglySorted_app_1_r in Hsorted.
  - rewrite <- (filter_after_drop cursor k l Hk).
    rewrite (listing_Permutation (Some (cursorOfRow l))).
    rewrite (filter_Permutation _ _ _ (listing_Permutation cursor)).
    rewrite filter_filter. apply Permutation_refl'.
    apply filter_ext_in. intros x _.
    destruct (filterMatches db options x); [|done]. cbn [andb].
    destruct (afterCursor (Some (cursorOfRow l)) x) eqn:Hafter; [|by rewrite andb_false_r].
    by rewrite (after_trans cursor l x Hl Hafter).
Qed.

Lemma listing_strict cursor :
  StronglySorted DescKey (map rowKey (listing db options cursor)).
Proof.
  pose proof (listing_sorted cursor) as Hsorted.
  pose proof (listing_ids_differ cursor) as Hdiff.
  induction Hsorted as [|x l Hl IH Hx]; [constructor|].
  cbn [map]. constructor.
  - apply IH. intros i j a b Hi Hj Hne.
    apply (Hdiff (S i) (S j) a b); [done | done | lia].
  - rewrite Forall_forall in Hx. apply Forall_forall. intros k Hk.
    apply list_elem_of_In, in_map_iff in Hk as (y & <- & Hy).
    apply list_elem_of_In in Hy as Hy'.
    specialize (Hx y Hy'). apply OrderBy_iff in Hx.
    apply list_elem_of_lookup in Hy' as [j Hj].
    assert (id x <> id y) by (apply (Hdiff 0%nat (S j) x y); [done | done | lia]).
    unfold DescKey. cbn. destruct Hx as [Hlt|[Heq Hle]]; [by left|].
    right. split; [done | lia].
Qed.

End Listing.

Lemma DescKey_irrefl k : ~ DescKey k k.
Proof. unfold DescKey. rewrite ltb_irrefl. intros [|[]]; [done | lia]. Qed.

Lemma strict_NoDup (l : list (Z * string)) : StronglySorted DescKey l -> NoDup l.
Proof.
  induction 1 as [|x l _ IH Hx]; constructor; [|done].
  intros Hin. rewrite Forall_forall in Hx. by apply (DescKey_irrefl x), Hx.
Qed.

Lemma strict_take (l : list (Z * string)) n :
  StronglySorted DescKey l -> StronglySorted DescKey (take n l).
Proof.
  intros Hs. rewrite <- (take_drop n l) in Hs. by apply StronglySorted_app_1_l in Hs.
Qed.

Lemma resolveLimit_bounds input : 1 <= resolveLimit input 1000 <= 1000.
Proof. unfold resolveLimit. lia. Qed.

Lemma normalizeLimit_bounds input fallback :
  1 <= LogQueryService.normalizeLimit input fallback 1000 <= 1000.
Proof. unfold LogQueryService.normalizeLimit. lia. Qed.

Lemma resolveLimit_fixed n : 1 <= n <= 1000 -> resolveLimit (Some n) 1000 = n.
Proof.
  intros Hn. unfold resolveLimit. destruct (Z.eqb_spec n 0); lia.
Qed.

Section WithRuntime.
Context `{Runtime}.

Lemma mapRows_keys rows : forall entries,
  mapRows rows = Return entries -> map entryKey entries = map rowKey rows.
Proof.
  unfold mapRows. induction rows as [|row rows IH]; intros entries; cbn [mapM].
  - by intros [= <-].
  - destruct (mapRow row) as [entry|e] eqn:Hrow; cbn [mbind Outcome_bind]; [|done].
    destruct (mapM mapRow rows) as [rest|e]; cbn [mbind Outcome_bind]; [|done].
    cbn [mret Outcome_ret]. intros [= <-].
    cbn [map]. rewrite (IH rest eq_refl). f_equal.
    unfold mapRow in Hrow. destruct (JSON_parse (data_json row)); [|done].
    by injection Hrow as <-.
Qed.

(** What [queryPage] returns, in terms of the listing. *)
Lemma queryPage_listing db options cursor page :
  queryPage db options cursor = Return page ->
  let limit := resolveLimit (Interfaces.q_limit options) 1000 in
  let fetched := selectPage db options cursor (limit + 1) in
  page_limit page = limit
  /\ fetched = take (Z.to_nat (limit + 1)) (listing db options cursor)
  /\ page_hasMore page = (limit <? Z.of_nat (length fetched))
  /\ page_hasMore page = (limit <? Z.of_nat (length (listing db options cursor)))
  /\ map entryKey (page_entries page)
     = map rowKey (take (Z.to_nat limit) (listing db options cursor)).
Proof.
  intros Hrun limit fetched. unfold queryPage in Hrun.
  fold limit in Hrun. fold fetched in Hrun.
  pose proof (resolveLimit_bounds (Interfaces.q_limit options)) as Hlimit.
  fold limit in Hlimit.
  assert (Hfetched : fetched = take (Z.to_nat (limit + 1)) (listing db options cursor))
    by done.
  assert (Hmore : (limit <? Z.of_nat (length fetched))
                  = (limit <? Z.of_nat (length (listing db options cursor)))).
  { rewrite Hfetched, length_take.
    destruct (Z.ltb_spec limit (Z.of_nat (length (listing db options cursor))));
      [apply Z.ltb_lt | apply Z.ltb_ge]; lia. }
  assert (Hrows : (if limit <? Z.of_nat (length fetched)
                   then take (Z.to_nat limit) fetched else fetched)
                  = take (Z.to_nat limit) (listing db options cursor)).
  { rewrite Hmore, Hfetched.
    destruct (Z.ltb_spec limit (Z.of_nat (length (listing db options cursor)))).
    - rewrite take_take. f_equal. lia.
    - rewrite !take_ge; [done | lia | lia]. }
  rewrite Hrows in Hrun.
  destruct (mapRows _) as [entries|e] eqn:Hmap; [|done].
  injection Hrun as <-. cbn [page_limit page_hasMore page_entries].
  repeat split; try done. by apply mapRows_keys.
Qed.

(** What [queryLogsPage] returns, in terms of the listing. *)
Lemma queryLogsPage_listing db options cursor page :
  LogQueryService.queryLogsPage db options cursor = Return page ->
  let limit := LogQueryService.normalizeLimit (Interfaces.q_limit options) 100 1000 in
  let L := listing db options cursor in
  Interfaces.limit page = limit
  /\ Interfaces.hasMore page
     = (limit <? Z.of_nat (length (take (Z.to_nat (limit + 1)) L)))
  /\ Interfaces.hasMore page = (limit <? Z.of_nat (length L))
  /\ map entryKey (Interfaces.entries page) = map rowKey (take (Z.to_nat limit) L)
  /\ Interfaces.nextCursor page
     = (if Interfaces.hasMore page
        then cursorOfRow <$> L !! pred (Z.to_nat limit)
        else None).
Proof.
  intros Hrun limit L.
  unfold LogQueryService.queryLogsPage, LogQueryService.MAX_QUERY_LIMIT in Hrun.
  fold limit in Hrun.
  pose proof (normalizeLimit_bounds (Interfaces.q_limit options) 100) as Hlimit.
  fold limit in Hlimit.
  destruct (queryPage db _ cursor) as [p|e] eqn:Hpage; [|done].
  apply queryPage_listing in Hpage. cbn zeta in Hpage.
  cbn [Interfaces.q_limit] in Hpage. rewrite resolveLimit_fixed in Hpage by done.
  change (listing db _ cursor) with L in Hpage.
  destruct Hpage as (Hl & Hfetched & Hmore1 & Hmore2 & Hkeys).
  rewrite Hfetched in Hmore1.
  injection Hrun as <-.
  cbn [Interfaces.limit Interfaces.hasMore Interfaces.entries Interfaces.nextCursor].
  repeat split; try done.
  destruct (page_hasMore p) eqn:Hm; [|done].
  symmetry in Hmore2. apply Z.ltb_lt in Hmore2.
  assert (Hlast : entryKey <$> last (page_entries p)
                  = rowKey <$> L !! pred (Z.to_nat limit)).
  { rewrite <- fmap_last. change (entryKey <$> page_entries p) with
      (map entryKey (page_entries p)).
    rewrite Hkeys. change (map rowKey (take (Z.to_nat limit) L))
      with (rowKey <$> take (Z.to_nat limit) L).
    rewrite fmap_last, last_lookup, length_take.
    replace (Z.to_nat limit `min` length L)%nat with (Z.to_nat limit) by lia.
    by rewrite lookup_take_lt by lia. }
  destruct (last (page_entries p)) as [e|], (L !! pred (Z.to_nat limit)) as [l|];
    try done. cbn in Hlast. injection Hlast as Hid Hts.
  cbn. unfold LogQueryService.encodeCursor, cursorOfRow. by rewrite Hid, Hts.
Qed.

(** C1. A page of [queryLogsPage] holds the first [limit] rows of the
    listing of the rows that match the filter and the cursor, the listing
    being in the order [(timestamp DESC, id DESC)]: its keys are strictly
    sorted in that order, every row is after the cursor when there is one,
    the store is asked for [limit + 1] rows and [hasMore] says that more
    than [limit] came back; and when the page has a [nextCursor], the page
    that this cursor gives holds the next [limit] rows of the same listing,
    so that the two pages have no row in common and together are the first
    [2 * limit] rows. *)
Theorem C1_pages_are_ordered_and_adjacent db options cursor page :
  UniqueIds db ->
  LogQueryService.queryLogsPage db options cursor = Return page ->
  let limit := LogQueryService.normalizeLimit (Interfaces.q_limit options) 100 1000 in
  let L := listing db options cursor in
  let keys := map entryKey (Interfaces.entries page) in
  (1 <= limit <= 1000 /\ Interfaces.limit page = limit)
  /\ keys = map rowKey (take (Z.to_nat limit) L)
  /\ Z.of_nat (length keys) <= limit
  /\ StronglySorted DescKey keys
  /\ (forall c, cursor = Some c -> Forall (AfterKey c) keys)
  /\ Interfaces.hasMore page
     = (limit <? Z.of_nat (length (take (Z.to_nat (limit + 1)) L)))
  /\ match Interfaces.nextCursor page with
     | None => Interfaces.hasMore page = false
     | Some next =>
         Interfaces.hasMore page = true
         /\ forall page2,
              LogQueryService.queryLogsPage db options (Some next) = Return page2 ->
              let keys2 := map entryKey (Interfaces.entries page2) in
              keys2 = map rowKey (take (Z.to_nat limit) (drop (Z.to_nat limit) L))
              /\ keys ++ keys2 = map rowKey (take (Z.to_nat (2 * limit)) L)
              /\ NoDup (keys ++ keys2)
     end.
Proof.
  intros Hids Hrun limit L keys.
  pose proof (normalizeLimit_bounds (Interfaces.q_limit options) 100) as Hlimit.
  fold limit in Hlimit.
  destruct (queryLogsPage_listing db options cursor page Hrun)
    as (Hl & Hmore1 & Hmore2 & Hkeys & Hnext).
  fold limit in Hl, Hmore1, Hmore2, Hkeys, Hnext. fold L in Hmore1, Hmore2, Hkeys, Hnext.
  fold keys in Hkeys.
  pose proof (listing_strict db options Hids cursor) as Hstrict. fold L in Hstrict.
  split; [done|]. split; [done|]. split.
  { rewrite Hkeys, length_map, length_take. lia. }
  split.
  { rewrite Hkeys. change (map rowKey (take (Z.to_nat limit) L))
      with (rowKey <$> take (Z.to_nat limit) L).
    rewrite fmap_take. by apply strict_take. }
  split.
  { intros c ->. rewrite Hkeys. apply Forall_forall. intros k Hk.
    apply list_elem_of_In, in_map_iff in Hk as (x & <- & Hx).
    apply afterCursor_iff. eapply (listing_elem db options (Some c)).
    apply list_elem_of_In in Hx. by eapply subseteq_take. }
  split; [done|].
  rewrite Hnext. destruct (Interfaces.hasMore page) eqn:Hm; [|done].
  symmetry in Hmore2. apply Z.ltb_lt in Hmore2.
  destruct (L !! pred (Z.to_nat limit)) as [l|] eqn:Hl'.
  2:{ apply lookup_ge_None in Hl'. lia. }
  cbn [fmap option_fmap option_map]. split; [done|].
  intros page2 Hrun2. set (keys2 := map entryKey (Interfaces.entries page2)).
  destruct (queryLogsPage_listing db options _ page2 Hrun2) as (_ & _ & _ & Hkeys2 & _).
  fold limit in Hkeys2. fold keys2 in Hkeys2.
  rewrite (next_listing db options Hids cursor _ l Hl') in Hkeys2.
  replace (S (pred (Z.to_nat limit))) with (Z.to_nat limit) in Hkeys2 by lia.
  fold L in Hkeys2.
  assert (Hboth : keys ++ keys2 = map rowKey (take (Z.to_nat (2 * limit)) L)).
  { rewrite Hkeys, Hkeys2, <- map_app, take_take_drop. do 2 f_equal. lia. }
  split; [done|]. split; [done|].
  rewrite Hboth. apply strict_NoDup.
  change (map rowKey (take (Z.to_nat (2 * limit)) L))
    with (rowKey <$> take (Z.to_nat (2 * limit)) L).
  rewrite fmap_take. by apply strict_take.
Qed.

End WithRuntime.

Import Reference.

Example first_page_of_three :
  option_map (fun p => (map Interfaces.id (Interfaces.entries p), Interfaces.hasMore p,
                        Interfaces.nextCursor p))
    (match LogQueryService.queryLogsPage threeEntries pagesOfOne None with
     | Return p => Some p
     | Throw _ => None
     end)
  = Some ([2], true,
          Some {| Interfaces.cursor_id := 2;
                  Interfaces.cursor_timestamp := "2024-05-01T10:00:02.000Z" |}).
Proof. vm_compute. reflexivity. Qed.

Example second_and_third_page :
  match LogQueryService.queryLogsPage threeEntries pagesOfOne
          (Interfaces.nextCursor firstPage) with
  | Return p2 =>
      match LogQueryService.queryLogsPage threeEntries pagesOfOne
              (Interfaces.nextCursor p2) with
      | Return p3 =>
          (map Interfaces.id (Interfaces.entries p2), Interfaces.hasMore p2,
           map Interfaces.id (Interfaces.entries p3), Interfaces.hasMore p3)
      | Throw _ => ([], false, [], false)
      end
  | Throw _ => ([], false, [], false)
  end
  = ([3], true, [1], false).
Proof. vm_compute. reflexivity. Qed.

Lemma C1_pages_are_ordered_and_adjacent_witness :
  let limit := LogQueryService.normalizeLimit (Interfaces.q_limit pagesOfOne) 100 1000 in
  let L := listing threeEntries pagesOfOne None in
  let keys := map entryKey (Interfaces.entries firstPage) in
  (1 <= limit <= 1000 /\ Interfaces.limit firstPage = limit)
  /\ keys = map rowKey (take (Z.to_nat limit) L)
  /\ Z.of_nat (length keys) <= limit
  /\ StronglySorted DescKey keys
  /\ (forall c, None = Some c -> Forall (AfterKey c) keys)
  /\ Interfaces.hasMore firstPage
     = (limit <? Z.of_nat (length (take (Z.to_nat (limit + 1)) L)))
  /\ match Interfaces.nextCursor firstPage with
     | None => Interfaces.hasMore firstPage = false
     | Some next =>
         Interfaces.hasMore firstPage = true
         /\ forall page2,
              LogQueryService.queryLogsPage threeEntries pagesOfOne (Some next)
              = Return page2 ->
              let keys2 := map entryKey (Interfaces.entries page2) in
              keys2 = map rowKey (take (Z.to_nat limit) (drop (Z.to_nat limit) L))
              /\ keys ++ keys2 = map rowKey (take (Z.to_nat (2 * limit)) L)
              /\ NoDup (keys ++ keys2)
     end.
Proof.
  apply (C1_pages_are_ordered_and_adjacent threeEntries pagesOfOne None firstPage).
  - unfold UniqueIds. apply (bool_decide_unpack _). vm_compute. exact I.
  - vm_compute. reflexivity.
Defined.

End QueryFacts.
(** ** The index store keeps its constraints *)

Module StoreFacts.

Import LogDatabase StoreSpec.
Local Open Scope list_scope.

Lemma elem_of_filter_bool {A} (f : A -> bool) l x :
  x ∈ List.filter f l <-> f x = true /\ x ∈ l.
Proof. rewrite !list_elem_of_In, filter_In. tauto. Qed.

Lemma NoDup_map_filter {A B} (g : A -> B) (f : A -> bool) l :
  NoDup (map g l) -> NoDup (map g (List.filter f l)).
Proof.
  induction l as [|x l IH]; simpl; [done|].
  rewrite NoDup_cons. intros [Hx Hl]. destruct (f x); simpl; [|by apply IH].
  apply NoDup_cons. split; [|by apply IH].
  intros Hin. apply Hx.
  apply list_elem_of_fmap in Hin as (y & -> & Hy).
  apply elem_of_filter_bool in Hy as [_ Hy].
  apply list_elem_of_fmap. eauto.
Qed.

Lemma largestId_bound rows :
  0 <= largestId rows /\ Forall (fun e => id e <= largestId rows) rows.
Proof.
  induction rows as [|e rows [IH0 IH]]; simpl; [split; [lia | constructor]|].
  split; [lia|]. constructor; [lia|].
  eapply Forall_impl; [exact IH|]. simpl. intros; lia.
Qed.

Lemma sameKey_place input e :
  sameKey input e = true <-> placeOf e = (sourceFile input, lineNumber input).
Proof.
  unfold sameKey, placeOf. rewrite andb_true_iff, String.eqb_eq, Z.eqb_eq.
  split; [intros [-> ->]; done | intros [= -> ->]; done].
Qed.

Lemma existsb_elem_of {A} (p : A -> bool) l :
  existsb p l = true <-> exists x, x ∈ l /\ p x = true.
Proof.
  rewrite existsb_exists. split; intros (x & Hx & Hp); exists x.
  - by rewrite list_elem_of_In.
  - by rewrite <- list_elem_of_In.
Qed.

Lemma find_elem_of {A} (p : A -> bool) l x :
  find p l = Some x -> x ∈ l /\ p x = true.
Proof.
  intros Hfind. apply find_some in Hfind as [Hin Hp].
  by rewrite list_elem_of_In.
Qed.

Lemma insert_constraints db input :
  Constraints db ->
  existsb (sameKey input) (log_entries db) = false ->
  let newId := Z.max (largestId (log_entries db)) (sqlite_sequence db) + 1 in
  (forall e, e ∈ log_entries db -> placeOf e <> (sourceFile input, lineNumber input))
  /\ sqlite_sequence db < newId
  /\ Constraints {| log_entries := log_entries db ++ [rowOf newId input];
                    log_fields := log_fields db;
                    sqlite_sequence := newId |}.
Proof.
  intros [Hpk Hplace Hauto Hstart Hfield] Htaken newId.
  destruct (largestId_bound (log_entries db)) as [Hl0 Hlargest].
  assert (Hfree : forall e, e ∈ log_entries db ->
                    placeOf e <> (sourceFile input, lineNumber input)).
  { intros e He Hp. apply sameKey_place in Hp.
    assert (existsb (sameKey input) (log_entries db) = true)
      by (apply existsb_elem_of; eauto).
    congruence. }
  split; [exact Hfree|]. split; [subst newId; lia|].
  constructor; cbn.
  - rewrite map_app. apply NoDup_app. split; [done|]. split.
    + cbn. intros i Hi. rewrite list_elem_of_singleton. intros ->.
      apply list_elem_of_fmap in Hi as (e & He & Hin).
      rewrite Forall_forall in Hlargest. specialize (Hlargest e Hin).
      simpl in Hlargest. lia.
    + cbn. apply NoDup_singleton.
  - rewrite map_app. apply NoDup_app. split; [done|]. split.
    + cbn. intros p Hp. rewrite list_elem_of_singleton. intros ->.
      apply list_elem_of_fmap in Hp as (e & He & Hin).
      by apply (Hfree e Hin).
    + cbn. apply NoDup_singleton.
  - apply Forall_app. split.
    + eapply Forall_impl; [exact Hauto|]. simpl. intros; lia.
    + constructor; [|constructor]. cbn. lia.
  - lia.
  - done.
Qed.

Lemma largestId_counter db :
  Constraints db -> Z.max (largestId (log_entries db)) (sqlite_sequence db) = sqlite_sequence db.
Proof.
  intros [_ _ Hauto Hstart _].
  assert (largestId (log_entries db) <= sqlite_sequence db); [|lia].
  induction Hauto as [|e rows He _ IH]; simpl; lia.
Qed.

(** An ignored insert advances the counter and keeps the constraints. *)
Lemma ignored_constraints db :
  Constraints db ->
  Constraints {| log_entries := log_entries db;
                 log_fields := log_fields db;
                 sqlite_sequence :=
                   Z.max (largestId (log_entries db)) (sqlite_sequence db) + 1 |}.
Proof.
  intros Hok. rewrite (largestId_counter db Hok).
  destruct Hok as [Hpk Hplace Hauto Hstart Hfield]. constructor; cbn; try done.
  - eapply Forall_impl; [exact Hauto|]. simpl. intros; lia.
  - lia.
Qed.

(** X1. Under the constraints of the schema [upsertEntry] always returns.
    Its result names a row of the table that stands at the place given;
    the constraints hold afterwards. In either case the statement takes
    the next row id, so the counter advances by one. When it reports an
    insertion, the table grew by exactly the row for the input, whose id
    is the new counter and so above every id given before; when it
    reports none, a row stood at that place already and no row and no
    field row has changed: the counter alone has. *)
Theorem upsertEntry_keeps_constraints db input :
  Constraints db ->
  exists db' r,
    upsertEntry db input = Return (db', r)
    /\ Constraints db'
    /\ sqlite_sequence db' = sqlite_sequence db + 1
    /\ (exists row, row ∈ log_entries db' /\ id row = entryId r
                    /\ placeOf row = (sourceFile input, lineNumber input))
    /\ (inserted r = true ->
        (forall e, e ∈ log_entries db -> placeOf e <> (sourceFile input, lineNumber input))
        /\ log_entries db' = log_entries db ++ [rowOf (entryId r) input]
        /\ log_fields db' = log_fields db
        /\ sqlite_sequence db < entryId r
        /\ sqlite_sequence db' = entryId r)
    /\ (inserted r = false ->
        log_entries db' = log_entries db
        /\ log_fields db' = log_fields db
        /\ exists e, e ∈ log_entries db /\ id e = entryId r
                     /\ placeOf e = (sourceFile input, lineNumber input)).
Proof.
  intros Hok.
  pose proof (largestId_counter db Hok) as Hcounter.
  unfold upsertEntry, insertOrIgnoreEntry.
  destruct (existsb (sameKey input) (log_entries db)) eqn:Htaken.
  - apply PassFacts.existsb_find in Htaken as Hfind. destruct Hfind as (existing & Hfind).
    cbn. rewrite Hfind.
    apply find_elem_of in Hfind as [Hin Hkey]. apply sameKey_place in Hkey.
    eexists _, _. split; [reflexivity|]. cbn.
    split; [by apply ignored_constraints|]. split; [lia|].
    split; [by eauto|]. split; [done|].
    intros _. split; [done|]. split; [done|]. eauto.
  - cbn.
    destruct (insert_constraints db input Hok Htaken) as (Hfree & Hfresh & Hok').
    eexists _, _. split; [reflexivity|]. cbn.
    split; [exact Hok'|]. split; [lia|]. split; [|split; [|done]].
    + match goal with |- context [rowOf ?n input] => exists (rowOf n input) end.
      split; [|done].
      apply elem_of_app. right. by apply list_elem_of_singleton.
    + intros _. repeat split; try done.
Qed.

Lemma upsertEntry_keeps_constraints_witness :
  Constraints smallStore
  /\ exists db' r,
       upsertEntry smallStore newInput = Return (db', r)
       /\ Constraints db' /\ entryId r = 6 /\ inserted r = true.
Proof.
  assert (Hok : Constraints smallStore).
  { constructor; apply (bool_decide_unpack _); vm_compute; exact I. }
  split; [exact Hok|].
  destruct (upsertEntry_keeps_constraints smallStore newInput Hok)
    as (db' & r & Hrun & Hok' & _).
  exists db', r. split; [exact Hrun|]. split; [exact Hok'|].
  vm_compute in Hrun. injection Hrun as <- <-. split; reflexivity.
Defined.

(** *** Deletions *)

Lemma length_filter_negb {A} (p : A -> bool) l :
  Z.of_nat (length l) - Z.of_nat (length (List.filter (fun x => negb (p x)) l))
  = countOf p l.
Proof.
  unfold countOf. pose proof (filter_length p l). lia.
Qed.

Lemma existsb_ids (rows : list LogEntryRow) f :
  existsb (Z.eqb (entry_id f)) (map id rows) = fieldOf rows f.
Proof.
  unfold fieldOf. induction rows as [|e rows IH]; simpl; [done|].
  by rewrite IH, (Z.eqb_sym (entry_id f)).
Qed.

Lemma fieldOf_elem_of rows f :
  fieldOf rows f = true <-> entry_id f ∈ map id rows.
Proof.
  unfold fieldOf. rewrite existsb_elem_of, list_elem_of_fmap. split.
  - intros (e & He & Hid). apply Z.eqb_eq in Hid. eauto.
  - intros (e & Hid & He). exists e. split; [done|]. by apply Z.eqb_eq.
Qed.

Lemma row_of_id_unique db x y :
  NoDup (map id (log_entries db)) ->
  x ∈ log_entries db -> y ∈ log_entries db -> id x = id y -> x = y.
Proof.
  intros Hpk Hx Hy Hid.
  apply list_elem_of_lookup in Hx as (i & Hi). apply list_elem_of_lookup in Hy as (j & Hj).
  assert (i = j) as ->; [|congruence].
  eapply NoDup_lookup; [exact Hpk | |].
  - rewrite list_lookup_fmap, Hi. done.
  - rewrite list_lookup_fmap, Hj. simpl. by rewrite Hid.
Qed.

Section Removal.
Context (p : LogEntryRow -> bool) (db : Database).

Lemma without_fields :
  log_fields (without p db)
  = List.filter (fun f => negb (fieldOf (List.filter p (log_entries db)) f)) (log_fields db).
Proof.
  unfold without; cbn. apply filter_ext. intros f. by rewrite existsb_ids.
Qed.

Lemma without_constraints : Constraints db -> Constraints (without p db).
Proof.
  intros [Hpk Hplace Hauto Hstart Hfield]. constructor; cbn.
  - by apply NoDup_map_filter.
  - by apply NoDup_map_filter.
  - rewrite Forall_forall in Hauto. apply Forall_forall. intros e He.
    apply elem_of_filter_bool in He as [_ He]. by apply Hauto.
  - done.
  - by apply QueryFacts.NoDup_filter_bool.
Qed.

Lemma without_refer :
  Constraints db -> FieldsRefer db ->
  FieldsRefer (without p db)
  /\ log_fields (without p db)
     = List.filter (fieldOf (log_entries (without p db))) (log_fields db).
Proof.
  intros Hok Hrefer.
  assert (Hkeep : forall f, f ∈ log_fields db ->
            negb (fieldOf (List.filter p (log_entries db)) f)
            = fieldOf (List.filter (fun e => negb (p e)) (log_entries db)) f).
  { intros f Hf. unfold FieldsRefer in Hrefer. rewrite Forall_forall in Hrefer.
    specialize (Hrefer f Hf). apply list_elem_of_fmap in Hrefer as (e & Hid & He).
    destruct (p e) eqn:Hp.
    - assert (H1 : fieldOf (List.filter p (log_entries db)) f = true).
      { apply fieldOf_elem_of, list_elem_of_fmap. exists e. split; [done|].
        by apply elem_of_filter_bool. }
      rewrite H1. cbn. symmetry. apply not_true_is_false. intros H2.
      apply fieldOf_elem_of, list_elem_of_fmap in H2 as (e' & Hid' & He').
      apply elem_of_filter_bool in He' as [Hp' He'].
      assert (e = e') as <-.
      { apply (row_of_id_unique db); [apply Hok | done | done | congruence]. }
      rewrite Hp in Hp'. done.
    - assert (H2 : fieldOf (List.filter (fun e => negb (p e)) (log_entries db)) f = true).
      { apply fieldOf_elem_of, list_elem_of_fmap. exists e. split; [done|].
        apply elem_of_filter_bool. by rewrite Hp. }
      rewrite H2. apply negb_true_iff, not_true_is_false. intros H1.
      apply fieldOf_elem_of, list_elem_of_fmap in H1 as (e' & Hid' & He').
      apply elem_of_filter_bool in He' as [Hp' He'].
      assert (e = e') as <-.
      { apply (row_of_id_unique db); [apply Hok | done | done | congruence]. }
      rewrite Hp in Hp'. done. }
  assert (Heq : log_fields (without p db)
                = List.filter (fieldOf (log_entries (without p db))) (log_fields db)).
  { rewrite without_fields. cbn.
    revert Hkeep. generalize (log_fields db). intros fields Hkeep.
    induction fields as [|f fields IH]; simpl; [done|].
    rewrite Hkeep by (apply elem_of_cons; by left).
    rewrite IH; [done|]. intros g Hg. apply Hkeep. apply elem_of_cons. by right. }
  split; [|exact Heq].
  unfold FieldsRefer. rewrite Heq. apply Forall_forall. intros f Hf.
  apply elem_of_filter_bool in Hf as [Hf _]. by apply fieldOf_elem_of.
Qed.

Lemma without_again : without p (without p db) = without p db.
Proof.
  unfold without; cbn.
  assert (Hnone : List.filter p (List.filter (fun e => negb (p e)) (log_entries db)) = []).
  { apply QueryFacts.filter_none, Forall_forall. intros e He.
    apply elem_of_filter_bool in He as [He _]. by apply negb_true_iff. }
  rewrite Hnone. cbn. f_equal.
  - apply QueryFacts.filter_all, Forall_forall. intros e He.
    by apply elem_of_filter_bool in He as [He _].
  - by apply QueryFacts.filter_all, Forall_forall.
Qed.

End Removal.

Lemma prune_without db normalCutoff auditCutoff :
  (pruneByRetention db normalCutoff auditCutoff).1
  = without (expired normalCutoff auditCutoff) db.
Proof.
  unfold pruneByRetention, without; cbn. f_equal.
  rewrite QueryFacts.filter_filter. apply filter_ext. intros e.
  unfold expired. by rewrite negb_orb.
Qed.

Lemma delete_without db sf :
  (deleteEntriesForSourceFile db sf).1 = without (fromSource sf) db.
Proof. done. Qed.

Lemma expired_split normalCutoff auditCutoff (rows : list LogEntryRow) :
  countOf (auditExpired auditCutoff)
    (List.filter (fun e => negb (normalExpired normalCutoff e)) rows)
  = countOf (auditExpired auditCutoff) rows.
Proof.
  unfold countOf. rewrite QueryFacts.filter_filter. do 2 f_equal.
  apply filter_ext. intros e. unfold normalExpired, auditExpired.
  destruct (is_audit e); simpl; [done|]. by rewrite andb_false_r.
Qed.

Lemma prune_nothing db normalCutoff auditCutoff :
  Forall (fun e => expired normalCutoff auditCutoff e = false) (log_entries db) ->
  pruneByRetention db normalCutoff auditCutoff
  = (db, {| normalCutoffIso := normalCutoff;
            auditCutoffIso := auditCutoff;
            normalEntriesDeleted := 0;
            auditEntriesDeleted := 0;
            prune_entriesDeleted := 0;
            prune_fieldsDeleted := 0 |}).
Proof.
  intros Hnone. rewrite Forall_forall in Hnone.
  assert (H1 : List.filter (fun e => negb (normalExpired normalCutoff e)) (log_entries db)
               = log_entries db).
  { apply QueryFacts.filter_all, Forall_forall. intros e He.
    specialize (Hnone e He). unfold expired in Hnone.
    apply orb_false_iff in Hnone as [-> _]. done. }
  assert (H2 : List.filter (fun e => negb (auditExpired auditCutoff e)) (log_entries db)
               = log_entries db).
  { apply QueryFacts.filter_all, Forall_forall. intros e He.
    specialize (Hnone e He). unfold expired in Hnone.
    apply orb_false_iff in Hnone as [_ ->]. done. }
  assert (H3 : List.filter (fun e => normalExpired normalCutoff e || auditExpired auditCutoff e)
                 (log_entries db) = []).
  { apply QueryFacts.filter_none, Forall_forall. intros e He. by apply Hnone. }
  unfold pruneByRetention. rewrite H1, H2, H3. cbn.
  rewrite QueryFacts.filter_all by (by apply Forall_forall).
  rewrite !Z.sub_diag. by destruct db.
Qed.

(** X2. What a retention run removes. The rows left are, in their order,
    the rows that neither cutoff reaches: a normal row is left when its
    timestamp is not below the normal cutoff, an audit row when it is not
    below the audit cutoff. The field rows left are those whose entry is
    none of the rows removed. The result counts the normal rows and the
    audit rows removed, their sum, and the field rows removed; a second
    run with the same cutoffs removes nothing. [pruneOlderThan] is the run
    with one cutoff for both kinds. *)
Theorem pruneByRetention_removes_expired db normalCutoff auditCutoff :
  let db' := (pruneByRetention db normalCutoff auditCutoff).1 in
  let res := (pruneByRetention db normalCutoff auditCutoff).2 in
  let gone := List.filter (expired normalCutoff auditCutoff) (log_entries db) in
  log_entries db'
  = List.filter (fun e => negb (expired normalCutoff auditCutoff e)) (log_entries db)
  /\ Forall (fun e => (timestamp e <? (if is_audit e then auditCutoff else normalCutoff))%string
                      = false) (log_entries db')
  /\ log_fields db' = List.filter (fun f => negb (fieldOf gone f)) (log_fields db)
  /\ sqlite_sequence db' = sqlite_sequence db
  /\ normalEntriesDeleted res = countOf (normalExpired normalCutoff) (log_entries db)
  /\ auditEntriesDeleted res = countOf (auditExpired auditCutoff) (log_entries db)
  /\ prune_entriesDeleted res = Z.of_nat (length gone)
  /\ prune_entriesDeleted res
     = Z.of_nat (length (log_entries db)) - Z.of_nat (length (log_entries db'))
  /\ prune_fieldsDeleted res = countOf (fieldOf gone) (log_fields db)
  /\ (pruneByRetention db' normalCutoff auditCutoff).1 = db'
  /\ prune_entriesDeleted (pruneByRetention db' normalCutoff auditCutoff).2 = 0
  /\ prune_fieldsDeleted (pruneByRetention db' normalCutoff auditCutoff).2 = 0
  /\ forall cutoff,
       log_entries (pruneOlderThan db cutoff).1
       = List.filter (fun e => negb (timestamp e <? cutoff)%string) (log_entries db).
Proof.
  intros db' res gone.
  assert (Hdb' : db' = without (expired normalCutoff auditCutoff) db)
    by apply prune_without.
  assert (Hnormal : normalEntriesDeleted res
                    = countOf (normalExpired normalCutoff) (log_entries db)).
  { subst res. unfold pruneByRetention; cbn. apply length_filter_negb. }
  assert (Haudit : auditEntriesDeleted res
                   = countOf (auditExpired auditCutoff) (log_entries db)).
  { subst res. unfold pruneByRetention; cbn.
    rewrite length_filter_negb. apply expired_split. }
  assert (Hsum : prune_entriesDeleted res
                 = normalEntriesDeleted res + auditEntriesDeleted res) by done.
  assert (Hlen : prune_entriesDeleted res
                 = Z.of_nat (length (log_entries db)) - Z.of_nat (length (log_entries db'))).
  { subst res db'. unfold pruneByRetention; cbn. lia. }
  assert (Hentries : log_entries db'
            = List.filter (fun e => negb (expired normalCutoff auditCutoff e))
                (log_entries db)) by (by rewrite Hdb').
  assert (Hfields : prune_fieldsDeleted res = countOf (fieldOf gone) (log_fields db)).
  { subst res. unfold pruneByRetention; cbn.
    rewrite <- length_filter_negb. do 3 f_equal.
    apply filter_ext. intros f. by rewrite existsb_ids. }
  assert (Hagain : pruneByRetention db' normalCutoff auditCutoff
                   = (db', {| normalCutoffIso := normalCutoff;
                              auditCutoffIso := auditCutoff;
                              normalEntriesDeleted := 0;
                              auditEntriesDeleted := 0;
                              prune_entriesDeleted := 0;
                              prune_fieldsDeleted := 0 |})).
  { apply prune_nothing. rewrite Hentries. apply Forall_forall. intros e He.
    apply elem_of_filter_bool in He as [He _]. by apply negb_true_iff in He. }
  split; [exact Hentries|]. split.
  { rewrite Hentries. apply Forall_forall. intros e He.
    apply elem_of_filter_bool in He as [He _]. apply negb_true_iff in He.
    unfold expired, normalExpired, auditExpired in He.
    destruct (is_audit e); simpl in He; [done|]. by rewrite orb_false_r in He. }
  split; [by rewrite Hdb', without_fields|].
  split; [by rewrite Hdb'|].
  split; [exact Hnormal|]. split; [exact Haudit|].
  split.
  { rewrite Hlen, Hentries. subst gone. rewrite length_filter_negb. done. }
  split; [exact Hlen|]. split; [exact Hfields|].
  rewrite Hagain. cbn. split; [done|]. split; [done|]. split; [done|].
  intros cutoff. rewrite QueryFacts.filter_filter.
  apply filter_ext. intros e. unfold normalExpired, auditExpired.
  by destruct (is_audit e), (timestamp e <? cutoff)%string.
Qed.

(** X3. Every deletion of the store ([pruneByRetention],
    [pruneOlderThan], [deleteEntriesForSourceFile], [reset]) keeps the
    constraints of the schema, and it keeps the foreign key: when every
    field row refers to a row before the deletion, every field row
    refers to a row after it, and the field rows left are exactly those
    of the rows left. The deletion removes the field rows of a row
    itself, before the row. *)
Theorem deletions_keep_constraints db :
  Constraints db ->
  forall db',
    (exists normalCutoff auditCutoff, db' = (pruneByRetention db normalCutoff auditCutoff).1)
    \/ (exists cutoff, db' = (pruneOlderThan db cutoff).1)
    \/ (exists sf, db' = (deleteEntriesForSourceFile db sf).1)
    \/ db' = (reset db).1 ->
    Constraints db'
    /\ sqlite_sequence db' = sqlite_sequence db
    /\ (FieldsRefer db ->
        FieldsRefer db'
        /\ log_fields db' = List.filter (fieldOf (log_entries db')) (log_fields db)).
Proof.
  intros Hok db' Hcase.
  assert (Hwithout : forall p, Constraints (without p db)
            /\ sqlite_sequence (without p db) = sqlite_sequence db
            /\ (FieldsRefer db ->
                FieldsRefer (without p db)
                /\ log_fields (without p db)
                   = List.filter (fieldOf (log_entries (without p db))) (log_fields db))).
  { intros p. split; [by apply without_constraints|]. split; [done|].
    intros Hrefer. by apply without_refer. }
  destruct Hcase as [(n & a & ->) | [(c & ->) | [(sf & ->) | ->]]].
  - rewrite prune_without. apply Hwithout.
  - unfold pruneOlderThan. rewrite prune_without. apply Hwithout.
  - rewrite delete_without. apply Hwithout.
  - unfold reset; cbn. split; [|split; [done|]].
    + destruct Hok. constructor; cbn; try done; constructor.
    + intros _. split; [constructor|].
      symmetry. by apply QueryFacts.filter_none, Forall_forall.
Qed.

Example prune_small_store :
  let run := pruneByRetention smallStore "2024-02-01T00:00:00.000Z" "2024-01-10T00:00:00.000Z" in
  (map id (log_entries run.1), map entry_id (log_fields run.1),
   normalEntriesDeleted run.2, auditEntriesDeleted run.2, prune_fieldsDeleted run.2)
  = ([2; 4], [2; 4], 1, 0, 1).
Proof. vm_compute. reflexivity. Qed.

Lemma deletions_keep_constraints_witness :
  Constraints smallStore /\ FieldsRefer smallStore
  /\ let db' := (pruneOlderThan smallStore "2024-02-01T00:00:00.000Z").1 in
     map id (log_entries db') = [2]
     /\ Constraints db' /\ FieldsRefer db'
     /\ log_fields db' = List.filter (fieldOf (log_entries db')) (log_fields smallStore).
Proof.
  assert (Hok : Constraints smallStore).
  { constructor; apply (bool_decide_unpack _); vm_compute; exact I. }
  assert (Hrefer : FieldsRefer smallStore).
  { apply (bool_decide_unpack _); vm_compute; exact I. }
  split; [exact Hok|]. split; [exact Hrefer|]. split; [reflexivity|].
  destruct (deletions_keep_constraints smallStore Hok
              (pruneOlderThan smallStore "2024-02-01T00:00:00.000Z").1) as (Hok' & _ & Hkept).
  { right; left. by eexists. }
  split; [exact Hok'|]. exact (Hkept Hrefer).
Defined.

End StoreFacts.
(** ** Index passes keep the store consistent *)

Module ConsistencyFacts.

Import LogDatabase LogIndexer IndexerSpec StoreSpec.
Local Open Scope list_scope.

Lemma sameField_eq f g : sameField f g = true <-> f = g.
Proof.
  unfold sameField. rewrite !andb_true_iff, Z.eqb_eq, !String.eqb_eq.
  destruct f, g; cbn. split; [intros [[-> ->] ->]; done | intros [= -> -> ->]; done].
Qed.

Lemma withField_constraints db i k v :
  Constraints db -> Constraints (withField db i k v).
Proof.
  intros Hok. unfold withField.
  destruct (existsb _ _) eqn:Hthere; [done|].
  destruct Hok as [Hpk Hplace Hauto Hstart Hfield]. constructor; cbn; try done.
  apply NoDup_app. split; [done|]. split; [|apply NoDup_singleton].
  intros f Hf. rewrite list_elem_of_singleton. intros ->.
  assert (existsb (sameField {| entry_id := i; key := k; value_text := v |})
            (log_fields db) = true); [|congruence].
  apply StoreFacts.existsb_elem_of. eexists. split; [exact Hf|]. by apply sameField_eq.
Qed.

Lemma withField_refer db i k v :
  FieldsRefer db -> i ∈ map id (log_entries db) -> FieldsRefer (withField db i k v).
Proof.
  intros Hrefer Hi. unfold withField.
  destruct (existsb _ _); [done|]. unfold FieldsRefer; cbn.
  apply Forall_app. split; [done|]. by repeat constructor.
Qed.

(** What [upsertField] does: it fails exactly for a new field row whose
    id the table does not hold; otherwise it keeps the constraints and
    the foreign key. *)
Lemma upsertField_keeps db i k v :
  Constraints db -> FieldsRefer db ->
  match upsertField db i k v with
  | Return db' => Constraints db' /\ FieldsRefer db' /\ log_entries db' = log_entries db
  | Throw _ => i ∉ map id (log_entries db)
  end.
Proof.
  intros Hok Hrefer. unfold upsertField.
  destruct (existsb _ (log_fields db)) eqn:Hthere; [done|].
  destruct (existsb (Z.eqb i) _) eqn:Hid.
  - apply IndexerFacts.existsb_id in Hid.
    pose proof (withField_constraints db i k v Hok) as Hok'.
    pose proof (withField_refer db i k v Hrefer Hid) as Hrefer'.
    unfold withField in Hok', Hrefer'. rewrite Hthere in Hok', Hrefer'. done.
  - intros Hin%IndexerFacts.existsb_id. congruence.
Qed.

Lemma afterSkips_constraints db n : Constraints db -> Constraints (afterSkips db n).
Proof.
  intros Hok. pose proof (StoreFacts.largestId_counter db Hok) as Hcounter.
  unfold afterSkips, nextId. destruct (Z.leb_spec n 0); [done|].
  destruct Hok as [Hpk Hplace Hauto Hstart Hfield]. constructor; cbn; try done.
  - eapply Forall_impl; [exact Hauto|]. simpl. intros; lia.
  - lia.
Qed.

Lemma afterSkips_refer db n : FieldsRefer db -> FieldsRefer (afterSkips db n).
Proof.
  unfold FieldsRefer. by rewrite PassFacts.afterSkips_entries, PassFacts.afterSkips_fields.
Qed.

Section WithRuntime.
Context `{Runtime}.

Lemma withFields_keeps i members : forall db,
  Constraints db -> FieldsRefer db -> i ∈ map id (log_entries db) ->
  Constraints (withFields i members db) /\ FieldsRefer (withFields i members db).
Proof.
  unfold withFields.
  induction members as [|[k v] rest IH]; intros db Hok Hrefer Hi; [done|].
  cbn [fold_left fst snd]. destruct (isScalar (Some v)); [|by apply IH].
  apply IH.
  - by apply withField_constraints.
  - by apply withField_refer.
  - by rewrite IndexerFacts.withField_entries.
Qed.

Lemma processLine_keeps clock db input db' rep' :
  processLine clock db input = Return (db', rep') ->
  Constraints db -> FieldsRefer db ->
  Constraints db' /\ FieldsRefer db'.
Proof.
  intros Hrun Hok Hrefer.
  destruct (Js.nonEmpty (Js.trim (line input))) eqn:Hne.
  2:{ rewrite IndexerFacts.processLine_blank in Hrun by done. by injection Hrun as <- <-. }
  destruct (JSON_parse (Js.trim (line input))) as [record|] eqn:Hparse.
  2:{ rewrite IndexerFacts.processLine_malformed in Hrun by done.
      by injection Hrun as <- <-. }
  destruct (PassFacts.null_or_not record) as [->|Hnull].
  { by rewrite IndexerFacts.processLine_null in Hrun. }
  destruct (PassFacts.processLine_value clock db input record Hne Hparse Hnull)
    as (inp & members & Hsf & Hln & _ & Heq).
  rewrite Heq in Hrun. clear Heq.
  destruct (existsb _ _) eqn:Htaken; injection Hrun as <- <-;
    [split; [by apply afterSkips_constraints | by apply afterSkips_refer]|].
  assert (Hfree : existsb (sameKey inp) (log_entries db) = false).
  { rewrite <- Htaken. unfold IndexerSpec.hasKey, sameKey. by rewrite Hsf, Hln. }
  destruct (StoreFacts.insert_constraints db inp Hok Hfree) as (_ & _ & Hok1).
  unfold IndexerSpec.inserted. apply withFields_keeps.
  - exact Hok1.
  - unfold FieldsRefer in *; cbn. eapply Forall_impl; [exact Hrefer|].
    intros f Hf. rewrite map_app. apply elem_of_app. by left.
  - cbn. rewrite map_app. apply elem_of_app. right. cbn. by apply list_elem_of_singleton.
Qed.

Lemma scanLines_keeps clock file lines : forall n db rep db' rep' n',
  scanLines clock file lines n (db, rep) = Return ((db', rep'), n') ->
  Constraints db -> FieldsRefer db ->
  Constraints db' /\ FieldsRefer db'.
Proof.
  induction lines as [|l rest IH]; intros n db rep db' rep' n' Hrun Hok Hrefer.
  - by injection Hrun as <- <- <-.
  - cbn [scanLines fst snd] in Hrun.
    destruct (processLine clock db _) as [[db1 rep1]|err] eqn:Hline; [|done].
    cbn [mbind Outcome_bind] in Hrun.
    destruct (processLine_keeps _ _ _ _ _ Hline Hok Hrefer) as [Hok1 Hrefer1].
    by eapply IH.
Qed.

Lemma indexFileFull_keeps clock file db rep db' rep' :
  indexFileFull clock file (db, rep) = Return (db', rep') ->
  Constraints db -> FieldsRefer db ->
  Constraints db' /\ FieldsRefer db'.
Proof.
  unfold indexFileFull. intros Hrun Hok Hrefer.
  destruct (scanLines _ _ _ _ _) as [[[db1 rep1] n1]|err] eqn:Hscan; [|done].
  cbn in Hrun. injection Hrun as <- <-. by eapply scanLines_keeps.
Qed.

Lemma indexFileIncremental_keeps clock file incrementalState db rep st' db' rep' :
  indexFileIncremental clock file (incrementalState, (db, rep)) = Return (st', (db', rep')) ->
  Constraints db -> FieldsRefer db ->
  Constraints db' /\ FieldsRefer db'.
Proof.
  unfold indexFileIncremental. intros Hrun Hok Hrefer.
  destruct (stat file) as [fileStats|]; [|by injection Hrun as <- <- <-].
  match type of Hrun with
  | context [scanLines _ _ _ _ (?d, _)] => set (db1 := d) in Hrun
  end.
  assert (Hdb1 : Constraints db1 /\ FieldsRefer db1).
  { subst db1. destruct (_ && _); [|done].
    rewrite StoreFacts.delete_without. split.
    - by apply StoreFacts.without_constraints.
    - by apply StoreFacts.without_refer. }
  destruct (scanLines _ _ _ _ _) as [[[db2 rep2] n2]|err] eqn:Hscan; [|done].
  cbn in Hrun. injection Hrun as <- <- <-.
  destruct Hdb1. by eapply scanLines_keeps.
Qed.

Lemma forEachFile_keeps {S} (step : LogFile -> S -> Outcome S) (P : S -> Prop) :
  (forall f s s', step f s = Return s' -> P s -> P s') ->
  forall files s s', forEachFile step files s = Return s' -> P s -> P s'.
Proof.
  intros Hstep. induction files as [|f rest IH]; intros s s' Hrun Hs.
  - by injection Hrun as <-.
  - cbn in Hrun. destruct (step f s) as [s1|err] eqn:Hf; [|done].
    cbn in Hrun. eapply IH; [exact Hrun|]. by eapply Hstep.
Qed.

(** X4. Index passes keep the store consistent: when the store satisfies
    the constraints of the schema and every field row refers to a row,
    the same holds of the store that a full pass or an incremental pass
    returns, whatever the files hold and whatever checkpoints the
    incremental pass starts from. In particular the ids of the rows stay
    distinct. *)
Theorem index_passes_keep_constraints clock files db :
  Constraints db -> FieldsRefer db ->
  (forall db' rep',
     indexDirectory clock files db = Return (db', rep') ->
     Constraints db' /\ FieldsRefer db' /\ QuerySpec.UniqueIds db')
  /\ (forall incrementalState st' db' rep',
        indexDirectoryIncremental clock files incrementalState db
        = Return (st', (db', rep')) ->
        Constraints db' /\ FieldsRefer db' /\ QuerySpec.UniqueIds db').
Proof.
  intros Hok Hrefer. split.
  - intros db' rep' Hrun. unfold indexDirectory in Hrun.
    assert (Constraints db' /\ FieldsRefer db') as [Hok' Hrefer'].
    { eapply (forEachFile_keeps (indexFileFull clock)
                (fun st => Constraints st.1 /\ FieldsRefer st.1)) in Hrun; [exact Hrun| |done].
      intros f [d r] [d' r'] Hf [Hd1 Hd2]. by eapply indexFileFull_keeps. }
    split; [done|]. split; [done|]. apply Hok'.
  - intros incrementalState st' db' rep' Hrun. unfold indexDirectoryIncremental in Hrun.
    destruct (forEachFile _ _ _) as [[st1 [db1 rep1]]|err] eqn:Hpass; [|done].
    cbn in Hrun. injection Hrun as <- <- <-.
    assert (Constraints db1 /\ FieldsRefer db1) as [Hok' Hrefer'].
    { eapply (forEachFile_keeps (indexFileIncremental clock)
                (fun s => Constraints s.2.1 /\ FieldsRefer s.2.1)) in Hpass;
        [exact Hpass| |done].
      intros f [i [d r]] [i' [d' r']] Hf [Hd1 Hd2]. by eapply indexFileIncremental_keeps. }
    split; [done|]. split; [done|]. apply Hok'.
Qed.

End WithRuntime.

Import Reference.

Lemma index_passes_keep_constraints_witness :
  Constraints LogDatabase.empty /\ FieldsRefer LogDatabase.empty
  /\ exists db' rep',
       indexDirectory IndexerSpec.sampleClock [IndexerSpec.gappedFile] LogDatabase.empty
       = Return (db', rep')
       /\ map id (log_entries db') = [1; 2]
       /\ Constraints db' /\ FieldsRefer db' /\ QuerySpec.UniqueIds db'.
Proof.
  assert (Hok : Constraints LogDatabase.empty).
  { constructor; apply (bool_decide_unpack _); vm_compute; exact I. }
  assert (Hrefer : FieldsRefer LogDatabase.empty) by constructor.
  split; [exact Hok|]. split; [exact Hrefer|].
  destruct (indexDirectory IndexerSpec.sampleClock [IndexerSpec.gappedFile] LogDatabase.empty)
    as [[db' rep']|err] eqn:Hrun; [|vm_compute in Hrun; discriminate].
  exists db', rep'. split; [reflexivity|]. split.
  { vm_compute in Hrun. by injection Hrun as <- <-. }
  apply (proj1 (index_passes_keep_constraints IndexerSpec.sampleClock
                  [IndexerSpec.gappedFile] LogDatabase.empty Hok Hrefer) db' rep').
  exact Hrun.
Defined.

End ConsistencyFacts.
(** ** Pages, counts and whole results *)

Module PagingFacts.

Import LogDatabase QuerySpec StoreSpec PagingSpec.
Local Open Scope list_scope.

Lemma decode_payload c :
  LogQueryService.decodeCursor (Some (LogQueryService.cursorPayload c))
  = if Interfaces.cursor_id c <=? 0 then None else Some c.
Proof. destruct c as [i ts]. cbn. by destruct (i <=? 0). Qed.

Section WithRuntime.
Context `{Runtime}.

Lemma count_listing db options :
  count db options = Z.of_nat (length (listing db options None)).
Proof.
  unfold count. rewrite (QueryFacts.listing_Permutation db options None).
  do 2 f_equal. apply filter_ext. intros e. cbn. by rewrite andb_true_r.
Qed.

Lemma mapRows_total rows :
  Forall (fun e => is_Some (JSON_parse (data_json e))) rows ->
  exists entries, mapRows rows = Return entries.
Proof.
  unfold mapRows. induction 1 as [|row rows [v Hv] _ (rest & IH)]; cbn [mapM].
  - by eexists.
  - assert (Hrow : exists entry, mapRow row = Return entry)
      by (unfold mapRow; rewrite Hv; by eexists).
    destruct Hrow as (entry & ->). cbn [mbind Outcome_bind]. rewrite IH.
    cbn. by eexists.
Qed.

Lemma queryLogsPage_total db options cursor :
  Readable db -> exists page, LogQueryService.queryLogsPage db options cursor = Return page.
Proof.
  intros Hread. unfold LogQueryService.queryLogsPage, queryPage.
  match goal with
  | |- context [mapRows ?rows] =>
      destruct (mapRows_total rows) as (entries & ->); [|cbn; by eexists]
  end.
  assert (Hsub : forall fetch o, Forall (fun e => is_Some (JSON_parse (data_json e)))
                           (selectPage db o cursor fetch)).
  { intros fetch o. unfold selectPage. apply Forall_take.
    apply Forall_forall. intros e He.
    apply (QueryFacts.listing_elem db o cursor) in He as [He _].
    unfold Readable in Hread. rewrite Forall_forall in Hread. by apply Hread. }
  destruct (_ <? _); [apply Forall_take|]; apply Hsub.
Qed.

(** X5. The first page and the count agree: for a query without cursor,
    [hasMore] is true exactly when [countLogs] for the same filter exceeds
    the page limit, the page holds [min limit count] entries, and it
    carries a [nextCursor] exactly when it says [hasMore]. *)
Theorem first_page_agrees_with_count db options page :
  LogQueryService.queryLogsPage db options None = Return page ->
  let limit := LogQueryService.normalizeLimit (Interfaces.q_limit options) 100 1000 in
  let total := LogQueryService.countLogs db options in
  Interfaces.hasMore page = (limit <? total)
  /\ Z.of_nat (length (Interfaces.entries page)) = Z.min limit total
  /\ (is_Some (Interfaces.nextCursor page) <-> Interfaces.hasMore page = true).
Proof.
  intros Hrun limit total.
  pose proof (QueryFacts.normalizeLimit_bounds (Interfaces.q_limit options) 100) as Hlimit.
  fold limit in Hlimit.
  apply QueryFacts.queryLogsPage_listing in Hrun. cbn zeta in Hrun. fold limit in Hrun.
  destruct Hrun as (_ & _ & Hmore & Hkeys & Hnext).
  assert (Htotal : total = Z.of_nat (length (listing db options None)))
    by apply count_listing.
  rewrite <- Htotal in Hmore.
  split; [exact Hmore|]. split.
  - apply (f_equal (@length _)) in Hkeys. rewrite !length_map, length_take in Hkeys.
    rewrite Hkeys. lia.
  - rewrite Hnext. destruct (Interfaces.hasMore page) eqn:Hm.
    + split; [done|]. intros _.
      symmetry in Hmore. apply Z.ltb_lt in Hmore.
      destruct (lookup_lt_is_Some_2 (listing db options None) (pred (Z.to_nat limit)))
        as [l Hl]; [lia|].
      rewrite Hl. by eexists.
    + split; [by intros [? ?] | done].
Qed.

Lemma followCursors_listing db options :
  Constraints db -> Readable db ->
  forall fuel cursor,
    (length (listing db options cursor) < fuel)%nat ->
    exists all,
      followCursors fuel db options cursor = Return all
      /\ map entryKey all = map rowKey (listing db options cursor).
Proof.
  intros Hok Hread.
  pose proof (QueryFacts.normalizeLimit_bounds (Interfaces.q_limit options) 100) as Hlimit.
  set (limit := LogQueryService.normalizeLimit (Interfaces.q_limit options) 100 1000) in *.
  induction fuel as [|fuel IH]; intros cursor Hfuel; [lia|].
  cbn [followCursors].
  destruct (queryLogsPage_total db options cursor Hread) as (page & Hpage).
  rewrite Hpage. cbn [mbind Outcome_bind].
  apply QueryFacts.queryLogsPage_listing in Hpage. cbn zeta in Hpage. fold limit in Hpage.
  destruct Hpage as (_ & _ & Hmore & Hkeys & Hnext).
  set (L := listing db options cursor) in *.
  rewrite Hnext. destruct (Interfaces.hasMore page) eqn:Hm.
  - symmetry in Hmore. apply Z.ltb_lt in Hmore.
    destruct (lookup_lt_is_Some_2 L (pred (Z.to_nat limit))) as [l Hl]; [lia|].
    rewrite Hl. cbn [fmap option_fmap option_map].
    rewrite decode_payload.
    assert (Hin : l ∈ log_entries db).
    { eapply (QueryFacts.listing_elem db options cursor), list_elem_of_lookup_2, Hl. }
    assert (Hpos : 0 < id l).
    { destruct Hok as [_ _ Hauto _ _]. rewrite Forall_forall in Hauto.
      by apply Hauto. }
    cbn [cursorOfRow Interfaces.cursor_id].
    destruct (id l <=? 0) eqn:Hle; [apply Z.leb_le in Hle; lia|].
    pose proof (QueryFacts.next_listing db options (primary_key db Hok) cursor _ l Hl)
      as Hrest.
    fold L in Hrest.
    replace (S (pred (Z.to_nat limit))) with (Z.to_nat limit) in Hrest by lia.
    destruct (IH (Some (cursorOfRow l))) as (rest & Hrun & Hrestkeys).
    { rewrite Hrest, length_drop. lia. }
    rewrite Hrun. cbn [mbind Outcome_bind].
    eexists. split; [reflexivity|].
    rewrite map_app, Hkeys, Hrestkeys, Hrest, <- map_app. by rewrite take_drop.
  - eexists. split; [reflexivity|].
    symmetry in Hmore. apply Z.ltb_ge in Hmore.
    rewrite Hkeys, take_ge; [done | lia].
Qed.

(** X6. A client that follows [nextCursor] from the first page reads the
    whole result: on a store that satisfies the constraints of the schema
    and whose serialized records parse, with more requests allowed than
    [countLogs] gives matches, the loop ends, and the entries received
    are the rows that match the filter, each once, in the order
    [(timestamp DESC, id DESC)]; their number is [countLogs]. The cursor
    handed back is the one decoded from the token's payload. *)
Theorem following_cursors_reads_every_match db options fuel :
  Constraints db -> Readable db ->
  LogQueryService.countLogs db options < Z.of_nat fuel ->
  exists all,
    followCursors fuel db options None = Return all
    /\ map entryKey all ≡ₚ map rowKey (List.filter (filterMatches db options) (log_entries db))
    /\ StronglySorted DescKey (map entryKey all)
    /\ NoDup (map Interfaces.id all)
    /\ Z.of_nat (length all) = LogQueryService.countLogs db options.
Proof.
  intros Hok Hread Hfuel.
  unfold LogQueryService.countLogs in *. rewrite count_listing in *.
  destruct (followCursors_listing db options Hok Hread fuel None) as (all & Hrun & Hkeys);
    [lia|].
  exists all. split; [exact Hrun|].
  assert (Hperm : listing db options None
                  ≡ₚ List.filter (filterMatches db options) (log_entries db)).
  { rewrite (QueryFacts.listing_Permutation db options None).
    apply Permutation_refl'. apply filter_ext. intros e. cbn. by rewrite andb_true_r. }
  split; [by rewrite Hkeys, Hperm|].
  split; [rewrite Hkeys; apply QueryFacts.listing_strict, Hok|].
  split.
  - assert (Hids : map Interfaces.id all = map id (listing db options None)).
    { apply (f_equal (map fst)) in Hkeys. by rewrite !map_map in Hkeys. }
    rewrite Hids, Hperm. apply StoreFacts.NoDup_map_filter, Hok.
  - apply (f_equal (@length _)) in Hkeys. rewrite !length_map in Hkeys. by rewrite Hkeys.
Qed.

End WithRuntime.

Import Reference.

Example three_pages_of_one :
  match followCursors 4 threeEntries pagesOfOne None with
  | Return all => map Interfaces.id all
  | Throw _ => []
  end = [2; 3; 1].
Proof. vm_compute. reflexivity. Qed.

Lemma first_page_agrees_with_count_witness :
  Interfaces.hasMore firstPage = true
  /\ Z.of_nat (length (Interfaces.entries firstPage)) = 1
  /\ LogQueryService.countLogs threeEntries pagesOfOne = 3.
Proof.
  destruct (first_page_agrees_with_count threeEntries pagesOfOne firstPage)
    as (Hmore & Hlen & _).
  { vm_compute. reflexivity. }
  split; [exact Hmore|]. split; [exact Hlen|]. reflexivity.
Defined.

Lemma following_cursors_reads_every_match_witness :
  Constraints threeEntries /\ Readable threeEntries
  /\ exists all,
       followCursors 4 threeEntries pagesOfOne None = Return all
       /\ map Interfaces.id all = [2; 3; 1]
       /\ Z.of_nat (length all) = LogQueryService.countLogs threeEntries pagesOfOne.
Proof.
  assert (Hok : Constraints threeEntries).
  { constructor; apply (bool_decide_unpack _); vm_compute; exact I. }
  assert (Hread : Readable threeEntries).
  { unfold Readable. repeat constructor; by eexists. }
  split; [exact Hok|]. split; [exact Hread|].
  destruct (following_cursors_reads_every_match threeEntries pagesOfOne 4 Hok Hread)
    as (all & Hrun & _ & _ & _ & Hlen).
  { vm_compute. reflexivity. }
  exists all. split; [exact Hrun|]. split; [|exact Hlen].
  vm_compute in Hrun. by injection Hrun as <-.
Defined.

End PagingFacts.
(** ** Aggregation *)

Module AggregateFacts.

Import LogDatabase StoreSpec AggregateSpec.
Local Open Scope list_scope.

Lemma leb_iff a b : (a <=? b)%string = true <-> (a <? b)%string = true \/ a = b.
Proof.
  unfold String.leb, String.ltb.
  destruct (String.compare a b) eqn:Hc.
  - apply String.compare_eq_iff in Hc. tauto.
  - tauto.
  - split; [done|]. intros [?| ->]; [done|].
    by rewrite QueryFacts.compare_refl in Hc.
Qed.

Lemma BucketOrder_iff a b :
  BucketOrder a b
  <-> Interfaces.bucket_count b < Interfaces.bucket_count a
      \/ (Interfaces.bucket_count a = Interfaces.bucket_count b
          /\ ((Interfaces.bucket_key a <? Interfaces.bucket_key b)%string = true
              \/ Interfaces.bucket_key a = Interfaces.bucket_key b)).
Proof.
  unfold BucketOrder, bucketBefore.
  rewrite orb_true_iff, andb_true_iff, Z.ltb_lt, Z.eqb_eq, leb_iff. tauto.
Qed.

#[local] Instance BucketOrder_total : Total BucketOrder.
Proof.
  intros a b. rewrite !BucketOrder_iff.
  destruct (Z.lt_total (Interfaces.bucket_count a) (Interfaces.bucket_count b))
    as [?|[?|?]]; [right; left; lia | | left; left; lia].
  destruct (QueryFacts.ltb_total (Interfaces.bucket_key a) (Interfaces.bucket_key b))
    as [?|[?|?]]; [left | left | right]; right; split; auto.
Qed.

#[local] Instance BucketOrder_trans : Transitive BucketOrder.
Proof.
  intros a b c. rewrite !BucketOrder_iff.
  intros [?|[Hab Hkab]] [?|[Hbc Hkbc]]; [left; lia | left; lia | left; lia |].
  right. split; [lia|].
  destruct Hkab as [Hkab|Hkab], Hkbc as [Hkbc|Hkbc].
  - left. by eapply QueryFacts.ltb_trans.
  - left. by rewrite <- Hkbc.
  - left. by rewrite Hkab.
  - right. congruence.
Qed.

Lemma sorted_strict (l : list Interfaces.LogAggregateBucket) :
  StronglySorted BucketOrder l -> NoDup (map Interfaces.bucket_key l) ->
  StronglySorted BucketDesc l.
Proof.
  induction 1 as [|x l Hl IH Hx]; cbn [map]; [constructor|].
  rewrite NoDup_cons. intros [Hnew Hnodup]. constructor; [by apply IH|].
  rewrite Forall_forall in Hx. apply Forall_forall. intros y Hy.
  specialize (Hx y Hy). apply BucketOrder_iff in Hx. unfold BucketDesc.
  destruct Hx as [?|[? [?|Heq]]]; [by left | by right |].
  exfalso. apply Hnew. rewrite Heq. by apply list_elem_of_fmap_2.
Qed.

Lemma totalOf_Permutation a b : a ≡ₚ b -> totalOf a = totalOf b.
Proof.
  unfold totalOf. induction 1; cbn; lia.
Qed.

(** Rows that each have one key: the sizes of the groups add up to the
    number of rows. *)
Lemma single_key_partition {A} (f : A -> string) (rows : list A) : forall keys,
  NoDup keys -> (forall e, e ∈ rows -> f e ∈ keys) ->
  fold_right Z.add 0
    (map (fun k => Z.of_nat (length (List.filter (fun e => (k =? f e)%string) rows))) keys)
  = Z.of_nat (length rows).
Proof.
  induction rows as [|e rows IH]; intros keys Hnodup Hkeys.
  - cbn. induction keys as [|k keys IHk]; cbn; [done|].
    rewrite IHk; [done | by apply NoDup_cons in Hnodup as [_ ?] | ].
    intros e He. by apply elem_of_nil in He.
  - specialize (IH keys Hnodup).
    assert (Hone : forall ks, NoDup ks ->
      fold_right Z.add 0
        (map (fun k => Z.of_nat (length (List.filter (fun x => (k =? f x)%string) (e :: rows))))
             ks)
      = fold_right Z.add 0
          (map (fun k => Z.of_nat (length (List.filter (fun x => (k =? f x)%string) rows))) ks)
        + (if bool_decide (f e ∈ ks) then 1 else 0)).
    { induction ks as [|k ks IHk]; intros Hks; cbn [map fold_right].
      - rewrite bool_decide_eq_false_2; [lia | apply not_elem_of_nil].
      - apply NoDup_cons in Hks as [Hk Hks]. rewrite (IHk Hks).
        cbn [List.filter].
        destruct (String.eqb_spec k (f e)) as [->|Hne].
        + rewrite (bool_decide_eq_true_2 (f e ∈ f e :: ks)) by (apply elem_of_cons; by left).
          rewrite (bool_decide_eq_false_2 (f e ∈ ks)) by done. cbn [length]. lia.
        + destruct (bool_decide (f e ∈ ks)) eqn:Hin.
          * apply bool_decide_eq_true in Hin.
            rewrite (bool_decide_eq_true_2 (f e ∈ k :: ks)) by (apply elem_of_cons; by right).
            lia.
          * apply bool_decide_eq_false in Hin.
            rewrite (bool_decide_eq_false_2 (f e ∈ k :: ks)); [lia|].
            rewrite elem_of_cons. intros [?|?]; [congruence | done]. }
    rewrite (Hone keys Hnodup), IH.
    + rewrite bool_decide_eq_true_2; [cbn [length]; lia|].
      apply Hkeys, elem_of_cons. by left.
    + intros x Hx. apply Hkeys, elem_of_cons. by right.
Qed.

Section Groups.
Context (db : Database) (options : Interfaces.LogQueryOptions).
Context (groupBy : Interfaces.LogAggregateGroupBy) (field : string).

Let rows := List.filter (filterMatches db options) (log_entries db).
Let keys := remove_dups (flat_map (groupKeys db groupBy field) rows).

Lemma groupsOf_keys :
  map Interfaces.bucket_key (groupsOf db options groupBy field) = keys.
Proof. unfold groupsOf. rewrite map_map. cbn. apply map_id. Qed.

Lemma key_has_row k :
  k ∈ keys <-> exists e, e ∈ rows /\ inGroup db groupBy field k e = true.
Proof.
  unfold keys. rewrite elem_of_remove_dups, list_elem_of_In, in_flat_map.
  unfold inGroup. split.
  - intros (e & He & Hk). exists e. split; [by apply list_elem_of_In|].
    apply existsb_exists. exists k. split; [done | apply String.eqb_refl].
  - intros (e & He & Hk). exists e. split; [by apply list_elem_of_In|].
    apply existsb_exists in Hk as (k' & Hk' & Heq). by apply String.eqb_eq in Heq as ->.
Qed.

Lemma groupsOf_counts :
  Forall (fun b => 1 <= Interfaces.bucket_count b
                   /\ Interfaces.bucket_count b
                      = countOf (inGroup db groupBy field (Interfaces.bucket_key b)) rows)
    (groupsOf db options groupBy field).
Proof.
  unfold groupsOf. apply Forall_forall. intros b Hb.
  apply list_elem_of_fmap in Hb as (k & -> & Hk). cbn. split; [|done].
  apply key_has_row in Hk as (e & He & Hin).
  assert (Hthere : e ∈ List.filter (inGroup db groupBy field k) rows)
    by (by apply StoreFacts.elem_of_filter_bool).
  fold rows. destruct (List.filter _ rows); [by apply elem_of_nil in Hthere | cbn; lia].
Qed.

Lemma sorted_groups n :
  let buckets := take n (merge_sort BucketOrder (groupsOf db options groupBy field)) in
  (length buckets <= n)%nat
  /\ StronglySorted BucketDesc buckets
  /\ NoDup (map Interfaces.bucket_key buckets)
  /\ Forall (fun b => 1 <= Interfaces.bucket_count b
                      /\ Interfaces.bucket_count b
                         = countOf (inGroup db groupBy field (Interfaces.bucket_key b)) rows)
       buckets
  /\ (forall b, b ∈ buckets -> Interfaces.bucket_key b ∈ keys)
  /\ ((length keys <= n)%nat ->
      buckets ≡ₚ groupsOf db options groupBy field
      /\ forall k, k ∈ keys -> k ∈ map Interfaces.bucket_key buckets).
Proof.
  intros buckets. set (G := groupsOf db options groupBy field) in *.
  pose proof (merge_sort_Permutation BucketOrder G) as Hperm.
  assert (Hnodup : NoDup (map Interfaces.bucket_key (merge_sort BucketOrder G))).
  { change (NoDup (Interfaces.bucket_key <$> merge_sort BucketOrder G)).
    rewrite Hperm. change (NoDup (map Interfaces.bucket_key G)).
    unfold G. rewrite groupsOf_keys. apply NoDup_remove_dups. }
  assert (Hsorted : StronglySorted BucketDesc (merge_sort BucketOrder G)).
  { apply sorted_strict; [|done]. apply StronglySorted_merge_sort; apply _. }
  split; [subst buckets; rewrite length_take; lia|].
  split.
  { rewrite <- (take_drop n (merge_sort BucketOrder G)) in Hsorted.
    by apply StronglySorted_app_1_l in Hsorted. }
  split.
  { change (NoDup (Interfaces.bucket_key <$> buckets)). subst buckets.
    rewrite fmap_take. eapply sublist_NoDup; [exact Hnodup | apply sublist_take]. }
  split.
  { apply Forall_take. rewrite Hperm. apply groupsOf_counts. }
  split.
  { intros b Hb. rewrite <- groupsOf_keys. fold G.
    apply list_elem_of_fmap_2. rewrite <- Hperm.
    eapply subseteq_take, Hb. }
  intros Hall.
  assert (Hlen : length (merge_sort BucketOrder G) = length keys).
  { rewrite Hperm. unfold G. rewrite <- groupsOf_keys. by rewrite length_map. }
  assert (Hwhole : buckets = merge_sort BucketOrder G).
  { subst buckets. apply take_ge. lia. }
  split; [by rewrite Hwhole|].
  intros k Hk. rewrite Hwhole.
  change (k ∈ Interfaces.bucket_key <$> merge_sort BucketOrder G).
  rewrite Hperm. change (k ∈ map Interfaces.bucket_key G).
  unfold G. by rewrite groupsOf_keys.
Qed.

End Groups.

Lemma one_key_total db options groupBy field (f : LogEntryRow -> string) :
  (forall e, groupKeys db groupBy field e = [f e]) ->
  totalOf (groupsOf db options groupBy field) = count db options.
Proof.
  intros Hone. unfold totalOf, groupsOf, count. rewrite map_map. cbn.
  set (rows := List.filter (filterMatches db options) (log_entries db)).
  erewrite map_ext.
  - apply (single_key_partition f rows); [apply NoDup_remove_dups|].
    intros e He. apply elem_of_remove_dups, list_elem_of_In, in_flat_map.
    exists e. split; [by apply list_elem_of_In|]. rewrite Hone. by left.
  - intros k. cbn. do 2 f_equal. apply filter_ext. intros e.
    unfold inGroup. rewrite Hone. cbn. by rewrite orb_false_r.
Qed.

Lemma aggregateLogs_unfold db options groupBy groupField :
  let limit := LogQueryService.normalizeLimit (Interfaces.q_limit options) 25 1000 in
  let field := Js.trim (default "" groupField) in
  LogQueryService.aggregateLogs db options groupBy groupField
  = match groupBy with
    | Interfaces.groupByField =>
        if negb (Js.nonEmpty field)
        then Throw "groupField is required when groupBy=field"
        else Return (take (Z.to_nat limit)
                       (merge_sort BucketOrder (groupsOf db options groupBy field)))
    | _ => Return (take (Z.to_nat limit)
                     (merge_sort BucketOrder (groupsOf db options groupBy field)))
    end.
Proof.
  intros limit field.
  pose proof (QueryFacts.normalizeLimit_bounds (Interfaces.q_limit options) 25) as Hlimit.
  fold limit in Hlimit.
  unfold LogQueryService.aggregateLogs, LogQueryService.MAX_QUERY_LIMIT, aggregate.
  fold limit. fold field. cbn [LogQueryService.withLimit Interfaces.q_limit].
  rewrite QueryFacts.resolveLimit_fixed by done.
  change (groupsOf db (LogQueryService.withLimit options limit) groupBy field)
    with (groupsOf db options groupBy field).
  done.
Qed.

(** X7. The buckets of an aggregation. Grouping by field with a group
    field that is missing or blank throws; every other call returns. The
    buckets returned number at most the limit (25 by default, 1000 at
    most), have distinct keys, stand in the order count descending then
    key ascending, and each counts the rows that match the filter and
    carry its key, at least one. When the limit does not cut groups off,
    every key of a matching row has its bucket, and for grouping by level
    or by event the counts add up to [countLogs] for the same filter. *)
Theorem aggregateLogs_buckets db options groupBy groupField :
  let limit := LogQueryService.normalizeLimit (Interfaces.q_limit options) 25 1000 in
  let field := Js.trim (default "" groupField) in
  let rows := List.filter (filterMatches db options) (log_entries db) in
  (groupBy = Interfaces.groupByField /\ field = "" ->
   LogQueryService.aggregateLogs db options groupBy groupField
   = Throw "groupField is required when groupBy=field")
  /\ (groupBy <> Interfaces.groupByField \/ field <> "" ->
      exists buckets,
        LogQueryService.aggregateLogs db options groupBy groupField = Return buckets
        /\ Z.of_nat (length buckets) <= limit
        /\ StronglySorted BucketDesc buckets
        /\ NoDup (map Interfaces.bucket_key buckets)
        /\ Forall (fun b =>
                     1 <= Interfaces.bucket_count b
                     /\ Interfaces.bucket_count b
                        = countOf (inGroup db groupBy field (Interfaces.bucket_key b)) rows)
             buckets
        /\ (groupCount db options groupBy field <= limit ->
            (forall e k, e ∈ rows -> inGroup db groupBy field k e = true ->
                         k ∈ map Interfaces.bucket_key buckets)
            /\ (groupBy = Interfaces.groupByLevel \/ groupBy = Interfaces.groupByEvent ->
                totalOf buckets = LogQueryService.countLogs db options))).
Proof.
  intros limit field rows.
  pose proof (QueryFacts.normalizeLimit_bounds (Interfaces.q_limit options) 25) as Hlimit.
  fold limit in Hlimit.
  pose proof (aggregateLogs_unfold db options groupBy groupField) as Hrun.
  cbn zeta in Hrun. fold limit in Hrun. fold field in Hrun.
  split.
  - intros [-> Hblank]. rewrite Hrun, Hblank. done.
  - intros Hcase.
    exists (take (Z.to_nat limit)
              (merge_sort BucketOrder (groupsOf db options groupBy field))).
    split.
    { rewrite Hrun. destruct groupBy; try done.
      destruct field; [by destruct Hcase | done]. }
    destruct (sorted_groups db options groupBy field (Z.to_nat limit))
      as (Hlen & Hsorted & Hnodup & Hcounts & _ & Hall).
    split; [lia|]. split; [done|]. split; [done|]. split; [done|].
    intros Hfits. unfold groupCount in Hfits.
    destruct Hall as [Hperm Hkeys]; [lia|]. split.
    + intros e k He Hk. apply Hkeys. apply key_has_row. eauto.
    + intros Hsingle. rewrite (totalOf_Permutation _ _ Hperm).
      unfold LogQueryService.countLogs.
      destruct Hsingle as [-> | ->].
      * by apply (one_key_total db options _ field level).
      * by apply (one_key_total db options _ field event).
Qed.

Example aggregate_by_level :
  LogQueryService.aggregateLogs leveledStore anyQuery Interfaces.groupByLevel None
  = Return [{| Interfaces.bucket_key := "ERROR"; Interfaces.bucket_count := 2 |};
            {| Interfaces.bucket_key := "INFO"; Interfaces.bucket_count := 1 |};
            {| Interfaces.bucket_key := "WARN"; Interfaces.bucket_count := 1 |}].
Proof. vm_compute. reflexivity. Qed.

Example aggregate_by_field :
  LogQueryService.aggregateLogs leveledStore anyQuery Interfaces.groupByField (Some " tenant ")
  = Return [{| Interfaces.bucket_key := "(missing)"; Interfaces.bucket_count := 2 |};
            {| Interfaces.bucket_key := "t-1"; Interfaces.bucket_count := 2 |}].
Proof. vm_compute. reflexivity. Qed.

End AggregateFacts.
(** ** What a pass reports *)

Module ReportFacts.

Import LogIndexer IndexerSpec PassSpec.
Local Open Scope list_scope.

Section WithRuntime.
Context `{Runtime}.

(** The four things [processLine] can do with a line when it returns. *)
Lemma processLine_cases clock db input db' rep' :
  processLine clock db input = Return (db', rep') ->
  (isBlank (line input) = true /\ db' = db /\ rep' = report input)
  \/ (malformed (line input) = true /\ db' = db /\ rep' = incParseErrors (report input))
  \/ (isBlank (line input) = false /\ malformed (line input) = false
      /\ keyPresent db (pl_sourceFile input) (pl_lineNumber input)
      /\ db' = afterSkips db 1 /\ rep' = incRecordsSkipped (report input))
  \/ (isBlank (line input) = false /\ malformed (line input) = false
      /\ ~ keyPresent db (pl_sourceFile input) (pl_lineNumber input)
      /\ rep' = incRecordsInserted (report input)
      /\ exists inp members,
           LogDatabase.sourceFile inp = pl_sourceFile input
           /\ LogDatabase.lineNumber inp = pl_lineNumber input
           /\ db' = inserted db inp members).
Proof.
  intros Hrun. unfold malformed, isBlank.
  destruct (Js.nonEmpty (Js.trim (line input))) eqn:Hne; cbn [negb andb].
  2:{ rewrite IndexerFacts.processLine_blank in Hrun by done.
      injection Hrun as <- <-. by left. }
  destruct (JSON_parse (Js.trim (line input))) as [record|] eqn:Hparse.
  2:{ rewrite IndexerFacts.processLine_malformed in Hrun by done.
      injection Hrun as <- <-. right; left. done. }
  destruct (PassFacts.null_or_not record) as [->|Hnull].
  { by rewrite IndexerFacts.processLine_null in Hrun. }
  destruct (PassFacts.processLine_value clock db input record Hne Hparse Hnull)
    as (inp & members & Hsf & Hln & _ & Heq).
  rewrite Heq in Hrun. clear Heq. unfold keyPresent.
  destruct (existsb _ _) eqn:Htaken; injection Hrun as <- <-.
  - right; right; left. done.
  - right; right; right. repeat split; try done. eauto.
Qed.

(** The store of [processLine] does not depend on the report it is
    given. *)
Lemma processLine_any_report clock db input db' rep' rep2 :
  processLine clock db input = Return (db', rep') ->
  exists rep2',
    processLine clock db
      {| pl_filePath := pl_filePath input; line := line input;
         pl_lineNumber := pl_lineNumber input; report := rep2;
         pl_sourceFile := pl_sourceFile input |}
    = Return (db', rep2').
Proof.
  unfold processLine. cbn [line report pl_filePath pl_lineNumber pl_sourceFile].
  destruct (negb _); [intros [= <- <-]; by eexists|].
  destruct (JSON_parse _) as [record|]; [|intros [= <- <-]; by eexists].
  destruct (Obj.prop record "timestamp"); [|done]. cbn [mbind Outcome_bind].
  destruct (Obj.prop record "level"); [|done]. cbn [mbind Outcome_bind].
  destruct (normalizeEvent record); [|done]. cbn [mbind Outcome_bind].
  destruct (Obj.prop record "message"); [|done]. cbn [mbind Outcome_bind].
  destruct (normalizeAudit record _); [|done]. cbn [mbind Outcome_bind].
  destruct (LogDatabase.upsertEntry _ _) as [[db1 r]|]; [|done]. cbn [mbind Outcome_bind].
  destruct (negb _); [intros [= <- <-]; by eexists|].
  destruct (Obj.entries record); [|done]. cbn [mbind Outcome_bind].
  destruct (upsertFields _ _ _); [|done]. cbn [mbind Outcome_bind].
  intros [= <- <-]. by eexists.
Qed.

Lemma inserted_length db inp members :
  length (LogDatabase.log_entries (inserted db inp members))
  = S (length (LogDatabase.log_entries db)).
Proof. rewrite PassFacts.inserted_entries, length_app. cbn. lia. Qed.

(** What [scanLines] adds to the report, and how the table grows. *)
Lemma scanLines_report clock file lines : forall n db rep db' rep' n',
  scanLines clock file lines n (db, rep) = Return ((db', rep'), n') ->
  n' = n + Z.of_nat (length lines)
  /\ exists added : list LogDatabase.LogEntryRow,
       LogDatabase.log_entries db' = LogDatabase.log_entries db ++ added
       /\ Forall (fun e => LogDatabase.source_file e = sourceFile file
                           /\ n < LogDatabase.line_number e <= n') added
       /\ exists skipped,
            0 <= skipped
            /\ rep' = advanced rep (Z.of_nat (length lines)) (Z.of_nat (length added)) skipped
                        (Z.of_nat (length (List.filter malformed lines)))
            /\ Z.of_nat (length added) + skipped
               + Z.of_nat (length (List.filter malformed lines))
               + Z.of_nat (length (List.filter isBlank lines))
               = Z.of_nat (length lines)
            /\ (Forall (fun e => LogDatabase.source_file e = sourceFile file ->
                                 LogDatabase.line_number e <= n)
                  (LogDatabase.log_entries db) ->
                skipped = 0).
Proof.
  induction lines as [|l rest IH]; intros n db rep db' rep' n' Hrun.
  - injection Hrun as <- <- <-. split; [cbn; lia|].
    exists []. rewrite app_nil_r. split; [done|]. split; [constructor|].
    exists 0. split; [lia|]. split; [|cbn; split; [lia | done]].
    destruct rep; unfold advanced; cbn. f_equal; lia.
  - cbn [scanLines fst snd] in Hrun.
    destruct (processLine clock db _) as [[db1 rep1]|err] eqn:Hline; [|done].
    cbn [mbind Outcome_bind] in Hrun.
    destruct (IH _ _ _ _ _ _ Hrun)
      as (-> & added & Hadded & Hplaces & skipped & Hs0 & -> & Hsum & Hfresh).
    split; [cbn [length]; lia|].
    apply processLine_cases in Hline.
    cbn [line report pl_sourceFile pl_lineNumber] in Hline.
    assert (Hlater : Forall (fun e => LogDatabase.source_file e = sourceFile file
                        /\ n < LogDatabase.line_number e
                           <= n + 1 + Z.of_nat (length rest)) added).
    { eapply Forall_impl; [exact Hplaces|]. cbn. intros e [? ?]. split; [done | lia]. }
    destruct Hline as [(Hb & -> & ->) | [(Hm & -> & ->) | [(Hb & Hm & Htaken & -> & ->)
                      | (Hb & Hm & _ & -> & inp & members & Hsf & Hln & ->)]]].
    + exists added. split; [done|]. split; [done|].
      exists skipped. split; [done|]. cbn [List.filter length]. rewrite Hb.
      assert (malformed l = false) as -> by (unfold malformed; by rewrite Hb).
      split; [|split; [cbn [length]; lia|]].
      * destruct rep; unfold advanced, incLinesScanned; cbn. f_equal; lia.
      * intros Hfree. apply Hfresh. eapply Forall_impl; [exact Hfree|].
        cbn. intros e He Hsf'. specialize (He Hsf'). lia.
    + exists added. split; [done|]. split; [done|].
      exists skipped. split; [done|]. cbn [List.filter length]. rewrite Hm.
      assert (isBlank l = false) as ->.
      { unfold malformed in Hm. by destruct (isBlank l). }
      split; [|split; [cbn [length]; lia|]].
      * destruct rep; unfold advanced, incLinesScanned, incParseErrors; cbn. f_equal; lia.
      * intros Hfree. apply Hfresh. eapply Forall_impl; [exact Hfree|].
        cbn. intros e He Hsf'. specialize (He Hsf'). lia.
    + rewrite PassFacts.afterSkips_entries in Hadded, Hfresh.
      exists added. split; [done|]. split; [done|].
      exists (skipped + 1). split; [lia|]. cbn [List.filter length]. rewrite Hm, Hb.
      split; [|split; [lia|]].
      * destruct rep; unfold advanced, incLinesScanned, incRecordsSkipped; cbn.
        f_equal; lia.
      * intros Hfree. exfalso. unfold keyPresent in Htaken.
        apply existsb_exists in Htaken as (e & He & Hkey).
        unfold hasKey in Hkey. apply andb_true_iff in Hkey as [Hsf' Hln'].
        apply String.eqb_eq in Hsf'. apply Z.eqb_eq in Hln'.
        rewrite Forall_forall in Hfree. apply list_elem_of_In in He.
        specialize (Hfree e He Hsf'). lia.
    + rewrite PassFacts.inserted_entries in Hadded.
      eexists (_ :: added). split; [by rewrite Hadded, <- app_assoc|].
      split.
      { constructor; [|done]. cbn. rewrite Hsf, Hln. split; [done | lia]. }
      exists skipped. split; [done|]. cbn [List.filter length]. rewrite Hm, Hb.
      split; [|split; [lia|]].
      * destruct rep; unfold advanced, incLinesScanned, incRecordsInserted; cbn.
        f_equal; lia.
      * intros Hfree. apply Hfresh. rewrite PassFacts.inserted_entries.
        apply Forall_app. split.
        -- eapply Forall_impl; [exact Hfree|].
           cbn. intros e He Hsf'. specialize (He Hsf'). lia.
        -- constructor; [|constructor]. cbn. intros _. lia.
Qed.

Lemma advanced_advanced rep a b c d a' b' c' d' :
  advanced (advanced rep a b c d) a' b' c' d'
  = advanced rep (a + a') (b + b') (c + c') (d + d').
Proof. unfold advanced; cbn. f_equal; lia. Qed.

Lemma advanced_zero rep : rep = advanced rep 0 0 0 0.
Proof. destruct rep; unfold advanced; cbn. f_equal; lia. Qed.

Lemma fullFiles_report clock files : forall db rep db' rep',
  forEachFile (indexFileFull clock) files (db, rep) = Return (db', rep') ->
  let lines := flat_map linesOf files in
  exists added skipped,
    LogDatabase.log_entries db' = LogDatabase.log_entries db ++ added
    /\ Forall (fun e => exists f, f ∈ files /\ LogDatabase.source_file e = sourceFile f) added
    /\ 0 <= skipped
    /\ rep' = advanced rep (Z.of_nat (length lines)) (Z.of_nat (length added)) skipped
                (Z.of_nat (length (List.filter malformed lines)))
    /\ Z.of_nat (length added) + skipped
       + Z.of_nat (length (List.filter malformed lines))
       + Z.of_nat (length (List.filter isBlank lines))
       = Z.of_nat (length lines)
    /\ (NoDup (map sourceFile files) ->
        Forall (fun e => forall f, f ∈ files -> LogDatabase.source_file e <> sourceFile f)
          (LogDatabase.log_entries db) ->
        skipped = 0).
Proof.
  induction files as [|f rest IH]; intros db rep db' rep' Hrun lines.
  - injection Hrun as <- <-. exists [], 0. rewrite app_nil_r.
    split; [done|]. split; [constructor|]. split; [lia|].
    split; [apply advanced_zero|]. split; [cbn; lia | done].
  - cbn [forEachFile] in Hrun.
    destruct (indexFileFull clock f (db, rep)) as [[db1 rep1]|err] eqn:Hfile; [|done].
    cbn [mbind Outcome_bind] in Hrun.
    unfold indexFileFull in Hfile.
    destruct (scanLines clock f _ 0 (db, rep)) as [[[db1' rep1'] n1]|err] eqn:Hscan; [|done].
    cbn in Hfile. injection Hfile as -> ->.
    apply scanLines_report in Hscan
      as (_ & added1 & Hadded1 & Hplaces1 & skipped1 & Hs1 & -> & Hsum1 & Hfresh1).
    apply IH in Hrun. cbn zeta in Hrun.
    destruct Hrun as (added2 & skipped2 & Hadded2 & Hplaces2 & Hs2 & -> & Hsum2 & Hfresh2).
    exists (added1 ++ added2), (skipped1 + skipped2).
    subst lines. cbn [flat_map]. fold (linesOf f).
    rewrite !List.filter_app, !length_app, !Nat2Z.inj_add.
    split; [by rewrite Hadded2, Hadded1, app_assoc|].
    split.
    { apply Forall_app. split.
      - eapply Forall_impl; [exact Hplaces1|]. cbn. intros e [Hsf _].
        exists f. split; [apply elem_of_cons; by left | done].
      - eapply Forall_impl; [exact Hplaces2|]. cbn. intros e (g & Hg & Hsf).
        exists g. split; [apply elem_of_cons; by right | done]. }
    split; [lia|]. split; [by rewrite advanced_advanced|]. split; [unfold linesOf in *; lia|].
    intros Hnodup Hfree. cbn [map] in Hnodup. apply NoDup_cons in Hnodup as [Hf Hrest].
    rewrite Forall_forall in Hfree.
    rewrite Hfresh1, Hfresh2; [done | done | |].
    + rewrite Hadded1. apply Forall_app. split.
      * apply Forall_forall. intros e He g Hg. apply Hfree; [done|].
        apply elem_of_cons. by right.
      * eapply Forall_impl; [exact Hplaces1|]. cbn. intros e [Hsf _] g Hg Heq.
        apply Hf. rewrite <- Hsf, Heq. by apply list_elem_of_fmap_2.
    + apply Forall_forall. intros e He Hsf. exfalso.
      apply (Hfree e He f); [apply elem_of_cons; by left | done].
Qed.

(** X8. The report of a full pass accounts for every line. When
    [indexDirectory] returns, its report has mode [full], counts the
    files and the lines of the tree, counts in [parseErrors] the lines
    that are not blank and hold no JSON text, and every line is counted
    once: inserted, skipped, parse error or blank. The table of entries
    grew at its end by exactly [recordsInserted] rows, each from one of
    the files. *)
Theorem full_pass_accounts_for_every_line clock files db db' rep' :
  indexDirectory clock files db = Return (db', rep') ->
  Interfaces.mode rep' = Interfaces.full
  /\ Interfaces.filesScanned rep' = Z.of_nat (length files)
  /\ Interfaces.linesScanned rep' = totalLines files
  /\ Interfaces.parseErrors rep' = malformedLines files
  /\ 0 <= Interfaces.recordsSkipped rep'
  /\ Interfaces.recordsInserted rep' + Interfaces.recordsSkipped rep'
     + Interfaces.parseErrors rep' + blankLines files
     = totalLines files
  /\ exists added,
       LogDatabase.log_entries db' = LogDatabase.log_entries db ++ added
       /\ Interfaces.recordsInserted rep' = Z.of_nat (length added)
       /\ Forall (fun e => exists f, f ∈ files /\ LogDatabase.source_file e = sourceFile f)
            added.
Proof.
  unfold indexDirectory. intros Hrun. apply fullFiles_report in Hrun. cbn zeta in Hrun.
  destruct Hrun as (added & skipped & Hadded & Hplaces & Hs & -> & Hsum & _).
  unfold totalLines, blankLines, malformedLines. cbn.
  do 6 (split; [done || lia|]).
  exists added. split; [done|]. split; [lia | done].
Qed.

End WithRuntime.

Import Reference.

Lemma full_pass_accounts_for_every_line_witness :
  exists db' rep',
    indexDirectory sampleClock [gappedFile] LogDatabase.empty = Return (db', rep')
    /\ Interfaces.linesScanned rep' = 3
    /\ Interfaces.recordsInserted rep' = 2
    /\ Interfaces.recordsInserted rep' + Interfaces.recordsSkipped rep'
       + Interfaces.parseErrors rep' + blankLines [gappedFile]
       = totalLines [gappedFile].
Proof.
  destruct (indexDirectory sampleClock [gappedFile] LogDatabase.empty)
    as [[db' rep']|err] eqn:Hrun; [|vm_compute in Hrun; discriminate].
  exists db', rep'. split; [reflexivity|].
  destruct (full_pass_accounts_for_every_line sampleClock [gappedFile] LogDatabase.empty
              db' rep' Hrun) as (_ & _ & _ & _ & _ & Hsum & _).
  vm_compute in Hrun. injection Hrun as <- <-.
  split; [reflexivity|]. split; [reflexivity|]. exact Hsum.
Defined.

End ReportFacts.
(** ** Reindexing *)

Module ReindexFacts.

Import LogIndexer IndexerSpec PassSpec.
Local Open Scope list_scope.

Section WithRuntime.
Context `{Runtime}.



End WithRuntime.

Import Reference.


End ReindexFacts.
(** ** Incremental passes: resuming at the checkpoint *)

Module ResumeFacts.

Import LogIndexer IndexerSpec PassSpec.
Local Open Scope list_scope.

Lemma length_append a b :
  String.length (a +:+ b) = (String.length a + String.length b)%nat.
Proof.
  induction a as [|c a IH]; [done|].
  change (S (String.length (a +:+ b)) = S (String.length a + String.length b)).
  by rewrite IH.
Qed.

Lemma substring_skip a b :
  String.substring (String.length a) (String.length b) (a +:+ b) = b.
Proof.
  induction a as [|c a IH]; [apply IncrementalFacts.substring_all|].
  change (String.substring (String.length a) (String.length b) (a +:+ b) = b).
  exact IH.
Qed.

Lemma substring_none n s : String.substring n 0 s = "".
Proof.
  revert n. induction s as [|c s IH]; intros [|n]; cbn; try done.
Qed.

Lemma substring_rest s : forall n,
  (n <= String.length s)%nat ->
  String.length (String.substring n (String.length s - n) s) = (String.length s - n)%nat.
Proof.
  induction s as [|c s IH]; intros [|n] Hn; cbn in *; try done.
  - by rewrite IncrementalFacts.substring_all.
  - apply IH. lia.
Qed.

Lemma readFrom_appended a b : readFrom (Z.of_nat (String.length a)) (a +:+ b) = b.
Proof.
  unfold readFrom, Js.sliceFrom. rewrite Nat2Z.id, length_append.
  replace (String.length a + String.length b - String.length a)%nat
    with (String.length b) by lia.
  apply substring_skip.
Qed.

Lemma readFrom_end s : readFrom (Z.of_nat (String.length s)) s = "".
Proof.
  unfold readFrom, Js.sliceFrom. rewrite Nat2Z.id, Nat.sub_diag. apply substring_none.
Qed.

Lemma readFrom_length n s :
  0 <= n <= Z.of_nat (String.length s) ->
  n + Z.of_nat (String.length (readFrom n s)) = Z.of_nat (String.length s).
Proof.
  intros Hn. unfold readFrom, Js.sliceFrom. rewrite substring_rest by lia. lia.
Qed.

Section WithRuntime.
Context `{Runtime}.

Lemma scanLines_app clock file l1 : forall l2 n st,
  scanLines clock file (l1 ++ l2) n st
  = (r ← scanLines clock file l1 n st; scanLines clock file l2 (snd r) (fst r)).
Proof.
  induction l1 as [|l l1 IH]; intros l2 n st; [done|].
  cbn [app scanLines]. destruct (processLine _ _ _) as [st1|err]; [|done].
  cbn [mbind Outcome_bind]. apply IH.
Qed.

Lemma scanLines_any_report clock file lines : forall n db rep db' rep' n' rep2,
  scanLines clock file lines n (db, rep) = Return ((db', rep'), n') ->
  exists rep2', scanLines clock file lines n (db, rep2) = Return ((db', rep2'), n').
Proof.
  induction lines as [|l rest IH]; intros n db rep db' rep' n' rep2 Hrun.
  - injection Hrun as <- <- <-. by eexists.
  - cbn [scanLines fst snd] in Hrun |- *.
    destruct (processLine clock db _) as [[db1 rep1]|err] eqn:Hline; [|done].
    cbn [mbind Outcome_bind] in Hrun.
    destruct (ReportFacts.processLine_any_report _ _ _ _ _ (incLinesScanned rep2) Hline)
      as (rep1' & Hline2).
    cbn [pl_filePath line pl_lineNumber pl_sourceFile] in Hline2.
    rewrite Hline2. cbn [mbind Outcome_bind]. by eapply IH.
Qed.

(** What an incremental pass does with a file that has no checkpoint. *)
Lemma incremental_new_file clock file fileStats incrementalState db rep :
  stat file = Some fileStats ->
  incrementalState !! filePath file = None ->
  indexFileIncremental clock file (incrementalState, (db, rep))
  = (r ← scanLines clock file (readLines (content file)) 0 (db, rep);
     Return (<[filePath file := checkpoint file fileStats 0 (snd r)]> incrementalState,
             fst r)).
Proof.
  intros Hstat Hnone. unfold indexFileIncremental, checkpoint. rewrite Hstat, Hnone.
  cbn. by rewrite IncrementalFacts.readFrom_start.
Qed.

(** What it does with a file whose checkpoint lies within the file and
    that was not rewritten in place. *)
Lemma incremental_resume clock file fileStats c incrementalState db rep :
  stat file = Some fileStats ->
  incrementalState !! filePath file = Some c ->
  0 <= byteOffset c <= size fileStats ->
  (byteOffset c = size fileStats -> mtimeMs fileStats = st_mtimeMs c) ->
  indexFileIncremental clock file (incrementalState, (db, rep))
  = (r ← scanLines clock file (readLines (readFrom (byteOffset c) (content file)))
           (st_lineNumber c) (db, rep);
     Return (<[filePath file := checkpoint file fileStats (byteOffset c) (snd r)]>
               incrementalState,
             fst r)).
Proof.
  intros Hstat Hsome Hoffset Hmtime.
  unfold indexFileIncremental, checkpoint. rewrite Hstat, Hsome.
  assert (Hresume : shouldResume fileStats (Some c) = true).
  { unfold shouldResume, hasValidOffset, rewrittenInPlace.
    rewrite !andb_true_iff, negb_true_iff, orb_false_iff, andb_false_iff,
      negb_false_iff, Z.ltb_ge, !Z.leb_le, Z.eqb_eq, Z.eqb_neq.
    repeat split; lia. }
  rewrite Hresume. cbn [negb andb]. rewrite andb_false_r. done.
Qed.

Lemma scanLines_same_names clock f g lines : forall n st,
  filePath f = filePath g -> sourceFile f = sourceFile g ->
  scanLines clock f lines n st = scanLines clock g lines n st.
Proof.
  induction lines as [|l rest IH]; intros n st Hpath Hsf; [done|].
  cbn [scanLines]. rewrite Hpath, Hsf.
  destruct (processLine _ _ _) as [st1|err]; [|done].
  cbn [mbind Outcome_bind]. by apply IH.
Qed.

Lemma empty_length s : String.length s = 0%nat -> s = "".
Proof. by destruct s. Qed.

(** X10. Appended lines are indexed as a full pass would index them. A
    file that an incremental pass has indexed for the first time, and
    that then grew by appended bytes, is resumed at its checkpoint by the
    next incremental pass: only the appended lines are scanned, with line
    numbers that go on where the first pass stopped, and the store after
    the two passes is the store that one full pass over the grown file
    gives, provided the appended bytes begin a new line (the lines of the
    grown file are the lines of the old one followed by the lines of the
    appendix). The new checkpoint stands at the end of the file. *)
Theorem appended_lines_index_like_a_full_pass clock before after appended fileStats
  st0 db0 rep0 st1 db1 rep1 repB st2 db2 rep2 :
  filePath after = filePath before ->
  sourceFile after = sourceFile before ->
  content after = content before +:+ appended ->
  appended <> "" ->
  is_Some (stat before) ->
  stat after = Some fileStats ->
  size fileStats = Z.of_nat (String.length (content after)) ->
  st0 !! filePath before = None ->
  readLines (content after) = readLines (content before) ++ readLines appended ->
  indexFileIncremental clock before (st0, (db0, rep0)) = Return (st1, (db1, rep1)) ->
  indexFileIncremental clock after (st1, (db1, repB)) = Return (st2, (db2, rep2)) ->
  (exists repF, indexFileFull clock after (db0, rep0) = Return (db2, repF))
  /\ Interfaces.linesScanned rep2
     = Interfaces.linesScanned repB + Z.of_nat (length (readLines appended))
  /\ exists c, st2 !! filePath after = Some c
               /\ readToEnd after c
               /\ st_lineNumber c = Z.of_nat (length (readLines (content after))).
Proof.
  intros Hpath Hsf Hcontent Hgrew [stats1 Hstat1] Hstat2 Hsize Hnew Hlines Hfirst Hsecond.
  rewrite (incremental_new_file clock before stats1 st0 db0 rep0 Hstat1 Hnew) in Hfirst.
  destruct (scanLines clock before _ 0 (db0, rep0)) as [[[d1 r1] n1]|err] eqn:Hscan1; [|done].
  cbn in Hfirst. injection Hfirst as <- <- <-.
  apply ReportFacts.scanLines_report in Hscan1 as Hrep1. destruct Hrep1 as (Hn1 & _).
  set (c1 := checkpoint before stats1 0 n1) in *.
  assert (Hoff1 : byteOffset c1 = Z.of_nat (String.length (content before))).
  { subst c1. unfold checkpoint; cbn. by rewrite IncrementalFacts.readFrom_start. }
  assert (Hlen : String.length (content after)
                 = (String.length (content before) + String.length appended)%nat)
    by (by rewrite Hcontent, length_append).
  assert (Hpos : (0 < String.length appended)%nat).
  { destruct (String.length appended) eqn:Hz; [|lia]. by apply empty_length in Hz. }
  rewrite (incremental_resume clock after fileStats c1) in Hsecond; cycle 1.
  { done. }
  { rewrite Hpath. apply lookup_insert_eq. }
  { lia. }
  { lia. }
  rewrite Hoff1 in Hsecond. rewrite Hcontent in Hsecond at 1.
  rewrite readFrom_appended in Hsecond.
  destruct (scanLines clock after (readLines appended) _ _)
    as [[[d2 r2] n2]|err] eqn:Hscan2; [|done].
  cbn in Hsecond. injection Hsecond as <- <- <-.
  apply ReportFacts.scanLines_report in Hscan2 as Hrep2.
  destruct Hrep2 as (Hn2 & added & _ & _ & skipped & _ & Hr2 & _).
  split; [|split].
  - unfold indexFileFull. rewrite Hlines, scanLines_app.
    rewrite (scanLines_same_names clock after before) by done.
    rewrite Hscan1. cbn [mbind Outcome_bind fst snd].
    destruct (scanLines_any_report clock after _ _ _ _ _ _ _ r1 Hscan2)
      as (repF & HscanF).
    change (st_lineNumber c1) with n1 in HscanF. rewrite HscanF. cbn. by eexists.
  - rewrite Hr2. done.
  - eexists. split; [apply lookup_insert_eq|]. split.
    + exists fileStats. unfold checkpoint; cbn. split; [done|].
      split; [|done]. rewrite Hcontent. rewrite readFrom_appended, length_append. lia.
    + cbn. rewrite Hn2. change (st_lineNumber c1) with n1.
      rewrite Hn1, Hlines, length_app. lia.
Qed.

End WithRuntime.

Import Reference.

Example grown_file_passes :
  match indexFileIncremental sampleClock shortFile
          (∅, (LogDatabase.empty, createReport Interfaces.incremental)) with
  | Return (st1, (db1, _)) =>
      match indexFileIncremental sampleClock grownFile
              (st1, (db1, createReport Interfaces.incremental)) with
      | Return (st2, (db2, rep2)) =>
          (map LogDatabase.event (LogDatabase.log_entries db2),
           map LogDatabase.line_number (LogDatabase.log_entries db2),
           Interfaces.linesScanned rep2, st2 !! "/srv/logs/app/a.ndjson")
      | Throw _ => ([], [], 0, None)
      end
  | Throw _ => ([], [], 0, None)
  end
  = (["a"; "b"], [1; 2], 1,
     Some {| byteOffset := 28; fileSize := 28; st_lineNumber := 2; st_mtimeMs := 2000 |}).
Proof. vm_compute. reflexivity. Qed.

Lemma appended_lines_index_like_a_full_pass_witness :
  exists db2 repF,
    indexFileFull sampleClock grownFile (LogDatabase.empty, createReport Interfaces.incremental)
    = Return (db2, repF)
    /\ map LogDatabase.event (LogDatabase.log_entries db2) = ["a"; "b"].
Proof.
  destruct (indexFileIncremental sampleClock shortFile
              (∅, (LogDatabase.empty, createReport Interfaces.incremental)))
    as [[st1 [db1 rep1]]|err] eqn:Hfirst; [|vm_compute in Hfirst; discriminate].
  destruct (indexFileIncremental sampleClock grownFile
              (st1, (db1, createReport Interfaces.incremental)))
    as [[st2 [db2 rep2]]|err] eqn:Hsecond.
  2:{ vm_compute in Hfirst. injection Hfirst as <- <- <-.
      vm_compute in Hsecond. discriminate. }
  destruct (appended_lines_index_like_a_full_pass sampleClock shortFile grownFile
              secondLine {| size := 28; mtimeMs := 2000 |}
              ∅ LogDatabase.empty (createReport Interfaces.incremental)
              st1 db1 rep1 (createReport Interfaces.incremental) st2 db2 rep2)
    as ((repF & Hfull) & _); try done.
  exists db2, repF. split; [exact Hfull|].
  vm_compute in Hfirst. injection Hfirst as <- <- <-.
  vm_compute in Hsecond. injection Hsecond as <- <- <-. reflexivity.
Defined.

End ResumeFacts.
(** ** Incremental passes: the checkpoints they keep *)

Module CheckpointFacts.

Import LogIndexer IndexerSpec PassSpec.
Local Open Scope list_scope.

Lemma dropUnknown_lookup files (s : IncrementalState) p :
  dropUnknown files s !! p = if bool_decide (p ∈ map filePath files) then s !! p else None.
Proof.
  unfold dropUnknown, IncrementalState in *. rewrite map_lookup_filter.
  destruct (s !! p) as [c|]; cbn; [|by destruct (bool_decide _)].
  destruct (bool_decide (p ∈ map filePath files)) eqn:Hp.
  - by rewrite option_guard_True.
  - rewrite option_guard_False; [done|]. by intros [].
Qed.

Lemma dropUnknown_again files s : dropUnknown files (dropUnknown files s) = dropUnknown files s.
Proof.
  apply map_eq. intros p. rewrite !dropUnknown_lookup.
  by destruct (bool_decide _).
Qed.

Section WithRuntime.
Context `{Runtime}.

(** The checkpoint that a pass leaves for one file. *)
Lemma incremental_file_checkpoint clock f s db rep s' db' rep' :
  indexFileIncremental clock f (s, (db, rep)) = Return (s', (db', rep')) ->
  (forall p, p <> filePath f -> s' !! p = s !! p)
  /\ (stat f = None -> s' !! filePath f = None)
  /\ (forall fileStats, stat f = Some fileStats ->
      exists c, s' !! filePath f = Some c
                /\ fileSize c = size fileStats
                /\ st_mtimeMs c = mtimeMs fileStats
                /\ (size fileStats = Z.of_nat (String.length (content f)) ->
                    byteOffset c = Z.of_nat (String.length (content f)))).
Proof.
  unfold indexFileIncremental. intros Hrun.
  destruct (stat f) as [fileStats|].
  2:{ injection Hrun as <- <- <-. split; [|split; [|done]].
      - intros p Hp. by apply lookup_delete_ne.
      - intros _. apply lookup_delete_eq. }
  destruct (scanLines _ _ _ _ _) as [[[db1 rep1] n1]|err]; [|done].
  cbn in Hrun. injection Hrun as <- <- <-.
  split; [|split; [done|]].
  - intros p Hp. by apply lookup_insert_ne.
  - intros fs [= <-]. eexists. split; [apply lookup_insert_eq|]. cbn.
    split; [done|]. split; [done|]. intros Hsize.
    destruct (s !! filePath f) as [c|] eqn:Hc.
    + destruct (shouldResume fileStats (Some c)) eqn:Hresume.
      * apply ResumeFacts.readFrom_length.
        unfold shouldResume, hasValidOffset in Hresume.
        rewrite !andb_true_iff, !Z.leb_le in Hresume. lia.
      * rewrite IncrementalFacts.readFrom_start. lia.
    + rewrite IncrementalFacts.readFrom_start. lia.
Qed.

Lemma incremental_files_checkpoints clock files : forall s db rep s' db' rep',
  NoDup (map filePath files) ->
  forEachFile (indexFileIncremental clock) files (s, (db, rep)) = Return (s', (db', rep')) ->
  (forall p, p ∉ map filePath files -> s' !! p = s !! p)
  /\ forall f, f ∈ files ->
       (stat f = None -> s' !! filePath f = None)
       /\ (forall fileStats, stat f = Some fileStats ->
           exists c, s' !! filePath f = Some c
                     /\ fileSize c = size fileStats
                     /\ st_mtimeMs c = mtimeMs fileStats
                     /\ (size fileStats = Z.of_nat (String.length (content f)) ->
                         byteOffset c = Z.of_nat (String.length (content f)))).
Proof.
  induction files as [|f rest IH]; intros s db rep s' db' rep' Hnodup Hrun.
  - injection Hrun as <- <- <-. split; [done|]. intros f Hf. by apply elem_of_nil in Hf.
  - cbn [forEachFile] in Hrun. cbn [map] in Hnodup.
    apply NoDup_cons in Hnodup as [Hf Hrest].
    destruct (indexFileIncremental clock f _) as [[s1 [db1 rep1]]|err] eqn:Hfile; [|done].
    cbn [mbind Outcome_bind] in Hrun.
    apply incremental_file_checkpoint in Hfile as (Hother & Hnone & Hsome).
    destruct (IH _ _ _ _ _ _ Hrest Hrun) as (Hrest1 & Hrest2).
    split.
    + intros p Hp. cbn [map] in Hp. rewrite elem_of_cons in Hp.
      rewrite Hrest1 by tauto. apply Hother. intros ->. tauto.
    + intros g Hg. apply elem_of_cons in Hg as [->|Hg]; [|by apply Hrest2].
      rewrite (Hrest1 (filePath f) Hf). done.
Qed.

(** X11. The checkpoints an incremental pass keeps. After
    [indexDirectoryIncremental] over files of distinct paths, a path has
    a checkpoint exactly when it is the path of a listed file whose
    [stat] succeeded: checkpoints of files that are gone are dropped. The
    checkpoint records the size and the modification time that [stat]
    gave, and when that size is the length of what was read, its byte
    offset is the end of the file. *)
Theorem incremental_pass_checkpoints clock files st0 db0 st1 db1 rep1 :
  NoDup (map filePath files) ->
  indexDirectoryIncremental clock files st0 db0 = Return (st1, (db1, rep1)) ->
  forall p,
    match st1 !! p with
    | Some c =>
        exists f fileStats,
          f ∈ files /\ filePath f = p /\ stat f = Some fileStats
          /\ fileSize c = size fileStats
          /\ st_mtimeMs c = mtimeMs fileStats
          /\ (size fileStats = Z.of_nat (String.length (content f)) ->
              byteOffset c = Z.of_nat (String.length (content f)))
    | None => forall f, f ∈ files -> filePath f = p -> stat f = None
    end.
Proof.
  intros Hnodup Hrun p. unfold indexDirectoryIncremental in Hrun.
  destruct (forEachFile _ _ _) as [[s1 [d1 r1]]|err] eqn:Hpass; [|done].
  cbn in Hrun. injection Hrun as <- <- <-.
  apply incremental_files_checkpoints in Hpass as [_ Hfiles]; [|done].
  rewrite dropUnknown_lookup.
  destruct (bool_decide (p ∈ map filePath files)) eqn:Hp.
  - apply bool_decide_eq_true in Hp. apply list_elem_of_fmap in Hp as (f & -> & Hf).
    destruct (Hfiles f Hf) as [Hnone Hsome].
    destruct (stat f) as [fileStats|] eqn:Hstat.
    + destruct (Hsome fileStats eq_refl) as (c & -> & Hc). exists f, fileStats. tauto.
    + rewrite Hnone by done. intros g Hg Hpath.
      assert (g = f) as ->; [|done].
      apply list_elem_of_lookup in Hg as (i & Hi). apply list_elem_of_lookup in Hf as (j & Hj).
      assert (i = j) as ->; [|congruence].
      eapply NoDup_lookup; [exact Hnodup | |].
      * rewrite list_lookup_fmap, Hi. done.
      * rewrite list_lookup_fmap, Hj. cbn. by rewrite Hpath.
  - apply bool_decide_eq_false in Hp. intros f Hf Hpath. exfalso. apply Hp.
    rewrite <- Hpath. by apply list_elem_of_fmap_2.
Qed.

(** A file whose checkpoint stands at its end, or that is gone and has
    none, changes nothing. *)
Lemma incremental_file_unchanged clock f s st :
  readLines "" = [] ->
  (stat f = None /\ s !! filePath f = None)
  \/ (exists c fileStats,
        s !! filePath f = Some c /\ stat f = Some fileStats
        /\ size fileStats = Z.of_nat (String.length (content f))
        /\ byteOffset c = Z.of_nat (String.length (content f))
        /\ fileSize c = size fileStats /\ st_mtimeMs c = mtimeMs fileStats) ->
  indexFileIncremental clock f (s, st) = Return (s, st).
Proof.
  intros Hempty [[Hstat Hnone] | (c & fileStats & Hc & Hstat & Hsize & Hoff & Hfs & Hmt)];
    destruct st as [db rep].
  - unfold indexFileIncremental. rewrite Hstat.
    apply (f_equal Return), (f_equal (fun m : IncrementalState => (m, (db, rep)))).
    by apply delete_id.
  - rewrite (ResumeFacts.incremental_resume clock f fileStats c) by (done || lia).
    rewrite Hoff, ResumeFacts.readFrom_end, Hempty. cbn.
    apply (f_equal Return), (f_equal (fun m : IncrementalState => (m, (db, rep)))).
    apply insert_id. etrans; [exact Hc|]. f_equal.
    unfold checkpoint. rewrite ResumeFacts.readFrom_end. cbn.
    destruct c; cbn in *. f_equal; lia.
Qed.

Lemma incremental_files_unchanged clock files s st :
  readLines "" = [] ->
  (forall f, f ∈ files ->
     (stat f = None /\ s !! filePath f = None)
     \/ (exists c fileStats,
           s !! filePath f = Some c /\ stat f = Some fileStats
           /\ size fileStats = Z.of_nat (String.length (content f))
           /\ byteOffset c = Z.of_nat (String.length (content f))
           /\ fileSize c = size fileStats /\ st_mtimeMs c = mtimeMs fileStats)) ->
  forEachFile (indexFileIncremental clock) files (s, st) = Return (s, st).
Proof.
  intros Hempty. induction files as [|f rest IH]; intros Hfiles; [done|].
  cbn [forEachFile]. rewrite incremental_file_unchanged; [| done |].
  - cbn [mbind Outcome_bind]. apply IH. intros g Hg. apply Hfiles, elem_of_cons. by right.
  - apply Hfiles, elem_of_cons. by left.
Qed.

(** X12. An unchanged tree is not read again. When an incremental pass
    over files of distinct paths has returned, each file being gone or
    having the size of its content, a second incremental pass over the
    same files reads no line: it leaves the store and the checkpoints as
    they are, and its report counts the files and nothing else. (The
    line reader gives no line for an empty stream.) *)
Theorem unchanged_tree_is_not_read_again clock1 clock2 files st0 db0 st1 db1 rep1 :
  readLines "" = [] ->
  NoDup (map filePath files) ->
  Forall (fun f => stat f = None \/ Sized f) files ->
  indexDirectoryIncremental clock1 files st0 db0 = Return (st1, (db1, rep1)) ->
  indexDirectoryIncremental clock2 files st1 db1
  = Return (st1, (db1, setFilesScanned (Z.of_nat (length files))
                         (createReport Interfaces.incremental))).
Proof.
  intros Hempty Hnodup Hsized Hrun.
  pose proof (incremental_pass_checkpoints clock1 files st0 db0 st1 db1 rep1 Hnodup Hrun)
    as Hpoints.
  assert (Hst1 : dropUnknown files st1 = st1).
  { unfold indexDirectoryIncremental in Hrun.
    destruct (forEachFile _ _ _) as [[s1 [d1 r1]]|err]; [|done].
    cbn in Hrun. injection Hrun as <- <- <-. apply dropUnknown_again. }
  unfold indexDirectoryIncremental.
  rewrite incremental_files_unchanged; [cbn; by rewrite Hst1 | done |].
  intros f Hf. rewrite Forall_forall in Hsized.
  specialize (Hpoints (filePath f)).
  destruct (st1 !! filePath f) as [c|] eqn:Hc.
  - right. destruct Hpoints as (g & fileStats & Hg & Hpath & Hstat & Hfs & Hmt & Hoff).
    assert (g = f) as ->.
    { apply list_elem_of_lookup in Hg as (i & Hi). apply list_elem_of_lookup in Hf as (j & Hj).
      assert (i = j) as ->; [|congruence].
      eapply NoDup_lookup; [exact Hnodup | |].
      - rewrite list_lookup_fmap, Hi. done.
      - rewrite list_lookup_fmap, Hj. cbn. by rewrite Hpath. }
    destruct (Hsized f Hf) as [Hgone | (fs & Hstat' & Hsize)]; [congruence|].
    assert (fs = fileStats) as -> by congruence.
    exists c, fileStats. repeat split; try done. by apply Hoff.
  - left. split; [|done]. by apply (Hpoints f).
Qed.

End WithRuntime.

Import Reference.

Lemma incremental_pass_checkpoints_witness :
  exists st1 db1 rep1,
    indexDirectoryIncremental sampleClock [rewrittenFile] staleState oldStore
    = Return (st1, (db1, rep1))
    /\ st1 !! "/srv/logs/app/gone.ndjson" = None
    /\ exists c, st1 !! "/srv/logs/app/a.ndjson" = Some c /\ byteOffset c = 14.
Proof.
  destruct (indexDirectoryIncremental sampleClock [rewrittenFile] staleState oldStore)
    as [[st1 [db1 rep1]]|err] eqn:Hrun; [|vm_compute in Hrun; discriminate].
  assert (Hnodup : NoDup (map filePath [rewrittenFile])).
  { apply (bool_decide_unpack _). vm_compute. exact I. }
  pose proof (incremental_pass_checkpoints sampleClock [rewrittenFile] staleState oldStore
                st1 db1 rep1 Hnodup Hrun "/srv/logs/app/a.ndjson") as Hlisted.
  exists st1, db1, rep1. split; [reflexivity|]. split.
  - vm_compute in Hrun. injection Hrun as <- <- <-. reflexivity.
  - destruct (st1 !! "/srv/logs/app/a.ndjson") as [c|].
    + exists c. split; [reflexivity|].
      destruct Hlisted as (f & fileStats & Hf & _ & Hstat & _ & _ & Hoff).
      apply list_elem_of_singleton in Hf as ->.
      injection Hstat as <-. by apply Hoff.
    + exfalso.
      assert (Hin : rewrittenFile ∈ [rewrittenFile]) by (by apply list_elem_of_singleton).
      by specialize (Hlisted rewrittenFile Hin eq_refl).
Defined.

Lemma unchanged_tree_is_not_read_again_witness :
  exists st1 db1 rep1,
    indexDirectoryIncremental sampleClock [gappedFile] ∅ LogDatabase.empty
    = Return (st1, (db1, rep1))
    /\ Interfaces.linesScanned rep1 = 3
    /\ indexDirectoryIncremental sampleClock [gappedFile] st1 db1
       = Return (st1, (db1, setFilesScanned 1 (createReport Interfaces.incremental))).
Proof.
  destruct (indexDirectoryIncremental sampleClock [gappedFile] ∅ LogDatabase.empty)
    as [[st1 [db1 rep1]]|err] eqn:Hrun; [|vm_compute in Hrun; discriminate].
  exists st1, db1, rep1. split; [reflexivity|]. split.
  { vm_compute in Hrun. by injection Hrun as <- <- <-. }
  apply (unchanged_tree_is_not_read_again sampleClock sampleClock [gappedFile]
           ∅ LogDatabase.empty st1 db1 rep1).
  - reflexivity.
  - apply (bool_decide_unpack _). vm_compute. exact I.
  - constructor; [|constructor]. right. eexists. split; reflexivity.
  - exact Hrun.
Defined.

End CheckpointFacts.
(** ** Query parameters *)

Module RequestFacts.

Import HandleRequest.
Local Open Scope list_scope.

Lemma toNumber_bounds value fallback max :
  1 <= fallback <= max -> 1 <= toNumber value fallback max <= max.
Proof.
  intros Hfallback. unfold toNumber.
  destruct (Js.truthy value) as [v|]; [|done].
  destruct (Js.parseInt v) as [parsed|]; [|done].
  destruct (negb _ || (parsed <=? 0)) eqn:Hbad; [done|].
  apply orb_false_iff in Hbad as [_ Hpos]. apply Z.leb_gt in Hpos. lia.
Qed.

Lemma truthy_nonEmpty o : Js.truthy o <> Some "".
Proof. destruct o as [[|c s]|]; done. Qed.

(** X13. The limit of a request. The options that [parseQueryOptions]
    reads from a query string always carry a limit between 1 and 1000,
    100 when the parameter is missing or empty; the query service and the
    store leave that number as it is, for pages (fallback 100) and for
    aggregations (fallback 25, which a request therefore never gets); a
    page answered for these options reports that limit and holds at most
    that many entries. No text option is the empty string. *)
Theorem request_limit_is_clamped searchParams :
  let options := parseQueryOptions searchParams in
  let n := toNumber (get searchParams "limit") 100 1000 in
  Interfaces.q_limit options = Some n
  /\ 1 <= n <= 1000
  /\ (Js.truthy (get searchParams "limit") = None -> n = 100)
  /\ LogQueryService.normalizeLimit (Interfaces.q_limit options) 100 1000 = n
  /\ LogQueryService.normalizeLimit (Interfaces.q_limit options) 25 1000 = n
  /\ (forall (runtime : Runtime) db cursor page,
        LogQueryService.queryLogsPage db options cursor = Return page ->
        Interfaces.limit page = n
        /\ Z.of_nat (length (Interfaces.entries page)) <= n)
  /\ Forall (fun o => o <> Some "")
       [Interfaces.q_cursor options; Interfaces.q_field options; Interfaces.q_from options;
        Interfaces.q_level options; Interfaces.q_to options; Interfaces.q_value options].
Proof.
  intros options n.
  assert (Hn : 1 <= n <= 1000) by (apply toNumber_bounds; lia).
  assert (Hlimit : Interfaces.q_limit options = Some n) by done.
  assert (Hnorm : forall fallback,
            LogQueryService.normalizeLimit (Interfaces.q_limit options) fallback 1000 = n).
  { intros fallback. rewrite Hlimit. unfold LogQueryService.normalizeLimit.
    destruct (n =? 0) eqn:Hz; [apply Z.eqb_eq in Hz; lia | lia]. }
  split; [done|]. split; [done|]. split.
  { intros Hnone. subst n. unfold toNumber. by rewrite Hnone. }
  split; [apply Hnorm|]. split; [apply Hnorm|]. split.
  - intros runtime db cursor page Hrun.
    apply QueryFacts.queryLogsPage_listing in Hrun. cbn zeta in Hrun.
    rewrite (Hnorm 100) in Hrun. destruct Hrun as (Hl & _ & _ & Hkeys & _).
    split; [done|].
    apply (f_equal (@length _)) in Hkeys. rewrite !length_map, length_take in Hkeys. lia.
  - repeat constructor; apply truthy_nonEmpty.
Qed.

Example limits_read :
  map (fun v => toNumber (Some v) 100 1000)
      ["50"; " 0042abc"; "+7"; "-5"; "0"; "abc"; ""; "5000"; "1e3"; "12.9"]
  = [50; 42; 7; 100; 100; 100; 100; 1000; 1; 12].
Proof. vm_compute. reflexivity. Qed.

Example audit_flag_read :
  map (fun v => Interfaces.q_audit (parseQueryOptions [("audit", v)]))
      ["TRUE"; "1"; "False"; "0"; "yes"; ""]
  = [Some true; Some true; Some false; Some false; None; None].
Proof. vm_compute. reflexivity. Qed.

End RequestFacts.
(** ** Cross-origin headers *)

Module HttpFacts.

Import Http.
Local Open Scope list_scope.

Lemma parseAllowedOrigins_nonEmpty value :
  parseAllowedOrigins value <> []
  /\ Forall (fun o => o <> "") (parseAllowedOrigins value).
Proof.
  unfold parseAllowedOrigins.
  destruct (Js.truthy value) as [v|]; [|split; [done | by repeat constructor]].
  destruct (_ =? 0); [split; [done | by repeat constructor]|].
  destruct (List.filter _ _) as [|o origins] eqn:Hkept; [split; [done | by repeat constructor]|].
  split; [done|]. rewrite <- Hkept. apply Forall_forall. intros x Hx.
  apply StoreFacts.elem_of_filter_bool in Hx as [Hx _]. intros ->. done.
Qed.

Lemma find_eqb (l : list string) x :
  find (fun o => (o =? x)%string) l = if bool_decide (x ∈ l) then Some x else None.
Proof.
  induction l as [|y l IH]; cbn; [done|].
  destruct (String.eqb_spec y x) as [->|Hne].
  - rewrite bool_decide_eq_true_2; [done | apply elem_of_cons; by left].
  - rewrite IH. destruct (bool_decide (x ∈ l)) eqn:Hin.
    + apply bool_decide_eq_true in Hin.
      rewrite bool_decide_eq_true_2; [done | apply elem_of_cons; by right].
    + apply bool_decide_eq_false in Hin.
      rewrite bool_decide_eq_false_2; [done|].
      rewrite elem_of_cons. intros [?|?]; [congruence | done].
Qed.

(** X14. Origins that are granted. The list that [parseAllowedOrigins]
    reads is never empty and holds no empty entry; it is the wildcard
    alone when nothing is configured. On a response without earlier
    headers [setCorsHeaders] grants the wildcard when the list holds it,
    grants the origin of the request when that origin is listed, and
    grants nothing otherwise: no origin outside the list is ever echoed.
    [vary: Origin] is set exactly when a listed origin is granted without
    wildcard. *)
Theorem cors_grants_listed_origins_only value origin :
  let allowed := parseAllowedOrigins value in
  let headers := setCorsHeaders origin ∅ allowed in
  allowed <> []
  /\ Forall (fun o => o <> "") allowed
  /\ (Js.truthy value = None -> allowed = ["*"])
  /\ headers !! "access-control-allow-origin"
     = (if bool_decide ("*" ∈ allowed) then Some "*"
        else match origin with
             | Some o => if bool_decide (o ∈ allowed) then Some o else None
             | None => None
             end)
  /\ headers !! "vary"
     = (if bool_decide ("*" ∈ allowed) then None
        else match origin with
             | Some o => if bool_decide (o ∈ allowed) then Some "Origin" else None
             | None => None
             end)
  /\ headers !! "access-control-allow-methods" = Some "GET,POST,PUT,OPTIONS"
  /\ headers !! "access-control-allow-headers" = Some "authorization,content-type".
Proof.
  intros allowed headers.
  destruct (parseAllowedOrigins_nonEmpty value) as [Hne Hentries].
  fold allowed in Hne, Hentries.
  split; [done|]. split; [done|]. split.
  { intros Hnone. subst allowed. unfold parseAllowedOrigins. by rewrite Hnone. }
  assert (Hlisted : forall o, o ∈ allowed -> Js.truthy (Some o) = Some o).
  { intros o Ho. rewrite Forall_forall in Hentries. specialize (Hentries o Ho).
    by destruct o. }
  subst headers. unfold setCorsHeaders.
  destruct (bool_decide ("*" ∈ allowed)) eqn:Hwild; cbn.
  - repeat split; by simplify_map_eq.
  - destruct origin as [o|]; [|repeat split; by simplify_map_eq].
    rewrite find_eqb. destruct (bool_decide (o ∈ allowed)) eqn:Ho.
    + apply bool_decide_eq_true in Ho. rewrite (Hlisted o Ho). cbn.
      repeat split; by simplify_map_eq.
    + cbn. repeat split; by simplify_map_eq.
Qed.

Example origins_read :
  (parseAllowedOrigins (Some " https://a.example , ,https://b.example"),
   parseAllowedOrigins (Some " , "), parseAllowedOrigins None)
  = (["https://a.example"; "https://b.example"], ["*"], ["*"]).
Proof. vm_compute. reflexivity. Qed.

End HttpFacts.

(** ** Who may call the API *)

Module AuthFacts.

Import Auth.
Local Open Scope list_scope.

Lemma indexOfChar_ge c s : -1 <= Js.indexOfChar c s.
Proof.
  induction s as [|d rest IH]; cbn [Js.indexOfChar]; [done|].
  destruct (Ascii.eqb c d); [done|].
  destruct (Z.ltb_spec (Js.indexOfChar c rest) 0); lia.
Qed.

Lemma sliceTo_cons n d rest :
  0 <= n -> Js.sliceTo (n + 1) (String d rest) = String d (Js.sliceTo n rest).
Proof.
  intros Hn. unfold Js.sliceTo.
  replace (Z.to_nat (n + 1)) with (S (Z.to_nat n)) by lia. done.
Qed.

Lemma sliceFrom_cons n d rest :
  0 <= n -> Js.sliceFrom (n + 1) (String d rest) = Js.sliceFrom n rest.
Proof.
  intros Hn. unfold Js.sliceFrom.
  replace (Z.to_nat (n + 1)) with (S (Z.to_nat n)) by lia. done.
Qed.

Lemma sliceFrom_zero s : Js.sliceFrom 0 s = s.
Proof.
  unfold Js.sliceFrom. change (Z.to_nat 0) with 0%nat. rewrite Nat.sub_0_r.
  apply IncrementalFacts.substring_all.
Qed.

(** Where [indexOf] finds the character, the string is what is before it,
    the character, and what is after it; it is not found before. *)
Lemma indexOfChar_found c s :
  0 <= Js.indexOfChar c s ->
  s = Js.sliceTo (Js.indexOfChar c s) s
        +:+ String c (Js.sliceFrom (Js.indexOfChar c s + 1) s)
  /\ Js.indexOfChar c (Js.sliceTo (Js.indexOfChar c s) s) = -1.
Proof.
  induction s as [|d rest IH]; cbn [Js.indexOfChar]; [done|].
  destruct (Ascii.eqb_spec c d) as [<-|Hne].
  - intros _. change (0 + 1) with (0 + 1). rewrite (sliceFrom_cons 0) by done.
    rewrite sliceFrom_zero. done.
  - destruct (Z.ltb_spec (Js.indexOfChar c rest) 0) as [Hlt|Hge]; [done|].
    intros _. destruct (IH Hge) as [Hsplit Hfree].
    rewrite sliceTo_cons, sliceFrom_cons by lia.
    split.
    + change (String d rest = String d (Js.sliceTo (Js.indexOfChar c rest) rest
                +:+ String c (Js.sliceFrom (Js.indexOfChar c rest + 1) rest))).
      by rewrite <- Hsplit.
    + cbn [Js.indexOfChar]. destruct (Ascii.eqb_spec c d); [done|].
      by rewrite Hfree.
Qed.

(** The other way round: behind a part without the character, [indexOf]
    finds it at the length of that part. *)
Lemma indexOfChar_behind c u p :
  Js.indexOfChar c u = -1 ->
  Js.indexOfChar c (u +:+ String c p) = Z.of_nat (String.length u)
  /\ Js.sliceTo (Z.of_nat (String.length u)) (u +:+ String c p) = u
  /\ Js.sliceFrom (Z.of_nat (String.length u) + 1) (u +:+ String c p) = p.
Proof.
  induction u as [|d u IH]; intros Hfree.
  - change ("" +:+ String c p) with (String c p).
    cbn [Js.indexOfChar String.length]. rewrite Ascii.eqb_refl.
    change (Z.of_nat 0) with 0. rewrite (sliceFrom_cons 0), sliceFrom_zero by done.
    done.
  - change (String d u +:+ String c p) with (String d (u +:+ String c p)).
    cbn [Js.indexOfChar] in Hfree |- *.
    destruct (Ascii.eqb c d); [done|].
    destruct (Z.ltb_spec (Js.indexOfChar c u) 0) as [Hlt|Hge]; [|lia].
    pose proof (indexOfChar_ge c u).
    destruct IH as (Hi & Hto & Hfrom); [lia|].
    rewrite Hi. destruct (Z.ltb_spec (Z.of_nat (String.length u)) 0); [lia|].
    cbn [String.length]. rewrite Nat2Z.inj_succ, <- Z.add_1_r.
    rewrite sliceTo_cons, sliceFrom_cons, Hto, Hfrom by lia. done.
Qed.

Lemma sliceTo_length c s :
  0 <= Js.indexOfChar c s ->
  Z.of_nat (String.length (Js.sliceTo (Js.indexOfChar c s) s)) = Js.indexOfChar c s.
Proof.
  induction s as [|d rest IH]; cbn [Js.indexOfChar]; [done|].
  destruct (Ascii.eqb c d); [done|].
  destruct (Z.ltb_spec (Js.indexOfChar c rest) 0) as [Hlt|Hge]; [done|].
  intros _. rewrite sliceTo_cons by done. cbn [String.length].
  rewrite Nat2Z.inj_succ, IH by done. lia.
Qed.

Section WithRuntime.
Context `{Runtime}.

(** The credentials of a header are a user and a password exactly when
    its value decodes to the user, a colon and the password, the user
    being non-empty and without colon. *)
Lemma credentials_iff authorization user pass :
  getBasicAuthCredentials authorization = Some (user, pass) <->
  user <> "" /\ Js.indexOfChar ":" user = -1
  /\ exists encoded,
       schemeAndValue authorization = Some ("basic", Some encoded)
       /\ base64_decode encoded = user +:+ ":" +:+ pass.
Proof.
  unfold getBasicAuthCredentials. split.
  - destruct (schemeAndValue authorization) as [[scheme [encoded|]]|]; try done.
    destruct (String.eqb_spec scheme "basic") as [->|]; [|done]. cbn zeta.
    destruct (Z.leb_spec (Js.indexOfChar ":" (base64_decode encoded)) 0) as [|Hpos]; [done|].
    intros [= <- <-].
    destruct (indexOfChar_found ":" (base64_decode encoded)) as [Hsplit Hfree]; [lia|].
    pose proof (sliceTo_length ":" (base64_decode encoded)) as Hlen.
    split; [|split; [done|]].
    + intros Hempty. rewrite Hempty in Hlen. cbn in Hlen. lia.
    + exists encoded. split; [done|]. exact Hsplit.
  - intros (Hne & Hfree & encoded & -> & Hdecoded).
    rewrite String.eqb_refl. cbn zeta. rewrite Hdecoded.
    change (user +:+ ":" +:+ pass) with (user +:+ String ":" pass).
    destruct (indexOfChar_behind ":" user pass Hfree) as (-> & -> & ->).
    destruct (Z.leb_spec (Z.of_nat (String.length user)) 0) as [Hzero|]; [|done].
    destruct user; [done | cbn in Hzero; lia].
Qed.

Lemma authenticated_iff authorization policy user :
  getAuthenticatedBasicUsername authorization policy = Some user <->
  enabled policy = true /\ username policy = Some user
  /\ user <> "" /\ Js.indexOfChar ":" user = -1
  /\ exists pass encoded,
       password policy = Some pass
       /\ schemeAndValue authorization = Some ("basic", Some encoded)
       /\ base64_decode encoded = user +:+ ":" +:+ pass.
Proof.
  unfold getAuthenticatedBasicUsername. split.
  - destruct (enabled policy); [|done].
    destruct (username policy) as [policyUser|]; [|done]. cbn [Js.truthy].
    destruct (Js.nonEmpty policyUser); [|done].
    destruct (password policy) as [policyPassword|]; [|done].
    destruct (getBasicAuthCredentials authorization) as [[u p]|] eqn:Hcred; [|done].
    destruct (String.eqb_spec u policyUser) as [->|]; [|done].
    destruct (String.eqb_spec p policyPassword) as [->|]; [|done].
    intros [= ->]. apply credentials_iff in Hcred as (Hne & Hfree & encoded & Hheader & Hdec).
    repeat split; try done. by exists policyPassword, encoded.
  - intros (-> & -> & Hne & Hfree & pass & encoded & -> & Hheader & Hdec).
    cbn [Js.truthy]. destruct user as [|c user]; [done|]. cbn [Js.nonEmpty].
    assert (Hcred : getBasicAuthCredentials authorization = Some (String c user, pass)).
    { apply credentials_iff. split; [done|]. split; [done|]. by exists encoded. }
    rewrite Hcred, !String.eqb_refl. done.
Qed.

(** X15. Who passes the gate of the API. [isApiAuthorized] lets a request
    pass in exactly three cases: neither an API token nor basic auth is
    configured; the header is [Bearer] followed by the configured,
    non-empty token; or basic auth is on and the header is [Basic]
    followed by a value that decodes to the configured user, a colon and
    the configured password, where the user is non-empty and holds no
    colon. *)
Theorem api_gate_opens_for authorization apiToken policy :
  isApiAuthorized authorization apiToken policy = true <->
  (Js.truthy apiToken = None /\ enabled policy = false)
  \/ (exists token,
        apiToken = Some token /\ token <> ""
        /\ schemeAndValue authorization = Some ("bearer", Some token))
  \/ (enabled policy = true
      /\ exists user pass encoded,
           username policy = Some user /\ password policy = Some pass
           /\ user <> "" /\ Js.indexOfChar ":" user = -1
           /\ schemeAndValue authorization = Some ("basic", Some encoded)
           /\ base64_decode encoded = user +:+ ":" +:+ pass).
Proof.
  assert (Hbasic :
    is_Some (getAuthenticatedBasicUsername authorization policy) <->
    enabled policy = true
    /\ exists user pass encoded,
         username policy = Some user /\ password policy = Some pass
         /\ user <> "" /\ Js.indexOfChar ":" user = -1
         /\ schemeAndValue authorization = Some ("basic", Some encoded)
         /\ base64_decode encoded = user +:+ ":" +:+ pass).
  { split.
    - intros [user Huser].
      apply authenticated_iff in Huser
        as (He & Hu & Hne & Hfree & pass & encoded & Hp & Hh & Hd).
      split; [done|]. by exists user, pass, encoded.
    - intros (He & user & pass & encoded & Hu & Hp & Hne & Hfree & Hh & Hd).
      exists user. apply authenticated_iff. repeat split; try done.
      by exists pass, encoded. }
  assert (Hbearer :
    forall token, token <> "" ->
      getAuthorizationToken authorization = Some token <->
      schemeAndValue authorization = Some ("bearer", Some token)).
  { intros token Hne. unfold getAuthorizationToken.
    destruct (schemeAndValue authorization) as [[scheme [value|]]|]; try (split; done).
    destruct (String.eqb_spec scheme "bearer") as [->|Hs]; split; try done.
    - by intros [= ->].
    - by intros [= ->].
    - intros [= -> ->]. done. }
  unfold isApiAuthorized.
  destruct apiToken as [[|c token]|]; cbn [Js.truthy Js.nonEmpty].
  - rewrite (bool_decide_eq_false_2 (is_Some None)) by (by intros []).
    cbn [negb andb]. destruct (enabled policy) eqn:He; cbn [negb].
    + rewrite bool_decide_eq_true, Hbasic. split.
      * intros Hb. right. by right.
      * intros [[_ ?]|[(token & [= <-] & ? & _)|Hb]]; done.
    + split; [intros _; by left | done].
  - rewrite (bool_decide_eq_true_2 (is_Some (Some _))) by done. cbn [negb andb].
    destruct (bool_decide (getAuthorizationToken authorization = _)) eqn:Htoken.
    + apply bool_decide_eq_true in Htoken. apply Hbearer in Htoken; [|done].
      split; [|done]. intros _. right. left. by exists (String c token).
    + apply bool_decide_eq_false in Htoken.
      rewrite bool_decide_eq_true, Hbasic. split.
      * intros Hb. right. by right.
      * intros [[? _]|[(t & [= <-] & Hne & Hh)|Hb]]; [done| |done].
        exfalso. apply Htoken. by apply Hbearer.
  - rewrite (bool_decide_eq_false_2 (is_Some None)) by (by intros []).
    cbn [negb andb]. destruct (enabled policy) eqn:He; cbn [negb].
    + rewrite bool_decide_eq_true, Hbasic. split.
      * intros Hb. right. by right.
      * intros [[_ ?]|[(token & ? & _)|Hb]]; done.
    + split; [intros _; by left | done].
Qed.

(** X16. The basic-auth policy. [createBasicAuthPolicy] throws exactly
    when one of user name (after trimming) and password is given without
    the other. The policy it returns is enabled exactly when both are
    given, and then holds the trimmed user name and the password as
    given; a disabled policy holds neither. A request is authenticated
    under the policy only as the trimmed user name, and never when that
    name holds a colon, since the name read from a header ends before the
    first colon. *)
Theorem basic_policy_holds_trimmed_user authUsername authPassword :
  let user := Js.trim (default "" authUsername) in
  let both := Js.nonEmpty user && bool_decide (is_Some (Js.truthy authPassword)) in
  let neither := negb (Js.nonEmpty user) && bool_decide (Js.truthy authPassword = None) in
  match createBasicAuthPolicy authUsername authPassword with
  | Throw message =>
      both = false /\ neither = false
      /\ message = "Basic auth requires both authUsername and authPassword."
  | Return policy =>
      (both = true \/ neither = true)
      /\ enabled policy = both
      /\ (if both
          then username policy = Some user /\ password policy = authPassword
          else username policy = None /\ password policy = None)
      /\ (forall authorization name,
            getAuthenticatedBasicUsername authorization policy = Some name ->
            both = true /\ name = user /\ Js.indexOfChar ":" user = -1)
  end.
Proof.
  intros user both neither. subst both neither.
  destruct (createBasicAuthPolicy authUsername authPassword) as [policy|message] eqn:Hcreate;
    unfold createBasicAuthPolicy in Hcreate; fold user in Hcreate;
    destruct (Js.nonEmpty user) eqn:Huser;
    destruct (Js.truthy authPassword) as [pw|] eqn:Hpw;
    cbn in Hcreate; try done.
  - injection Hcreate as <-.
    split; [by left|]. split; [done|]. split; [done|].
    intros authorization name Hname.
    apply authenticated_iff in Hname as (_ & [= <-] & _ & Hfree & _). done.
  - injection Hcreate as <-.
    split; [by right|]. split; [done|]. split; [done|].
    intros authorization name Hname.
    by apply authenticated_iff in Hname as ([=] & _).
  - by injection Hcreate as <-.
  - by injection Hcreate as <-.
Qed.

End WithRuntime.

Example colon_in_user_name :
  let policy := {| enabled := true; password := Some "pw"; username := Some "a:b" |} in
  (* [Basic] with the base64 text of [a:b:pw] *)
  getBasicAuthCredentials (Some "Basic YTpiOnB3") = Some ("a", "b:pw")
  /\ isApiAuthorized (Some "Basic YTpiOnB3") None policy = false.
Proof. vm_compute. done. Qed.

Example gate_examples :
  let policy := {| enabled := true; password := Some "pw"; username := Some "ops" |} in
  (* [b3BzOnB3] is the base64 text of [ops:pw] *)
  map (fun header => isApiAuthorized header (Some "secret") policy)
      [None; Some ""; Some "Bearer secret"; Some "bearer secret"; Some "Bearer  secret";
       Some "Bearer other"; Some "Basic b3BzOnB3"; Some "BASIC b3BzOnB3"; Some "Basic"]
  = [false; false; true; true; false; false; true; true; false].
Proof. vm_compute. done. Qed.

End AuthFacts.

(** ** Ingest queue: batches of one flush *)

Module MergeFacts.

Import Ingest QueueSpec.
Local Open Scope list_scope.

Lemma recordsFor_absent p items : p ∉ producersOf items -> recordsFor p items = [].
Proof.
  induction items as [|i items IH]; [done|].
  unfold producersOf. cbn [map]. rewrite not_elem_of_cons. intros [Hne Hrest].
  unfold recordsFor. cbn [List.filter].
  destruct (String.eqb_spec (producerId i) p); [congruence|]. by apply IH.
Qed.

Lemma recordsFor_app p l1 l2 : recordsFor p (l1 ++ l2) = recordsFor p l1 ++ recordsFor p l2.
Proof. unfold recordsFor. by rewrite List.filter_app, map_app, concat_app. Qed.

Lemma recordsFor_cons p i items :
  recordsFor p (i :: items)
  = (if (producerId i =? p)%string then records i else []) ++ recordsFor p items.
Proof.
  unfold recordsFor. cbn [List.filter]. by destruct (producerId i =? p)%string.
Qed.

Lemma addToProducer_producers item merged :
  producersOf (addToProducer item merged)
  = if bool_decide (producerId item ∈ producersOf merged)
    then producersOf merged
    else producersOf merged ++ [producerId item].
Proof.
  induction merged as [|m rest IH]; cbn [addToProducer].
  - by rewrite bool_decide_eq_false_2 by apply not_elem_of_nil.
  - destruct (String.eqb_spec (producerId m) (producerId item)) as [Heq|Hne].
    + rewrite bool_decide_eq_true_2; [done|]. apply elem_of_cons. by left.
    + unfold producersOf in *. cbn [map]. rewrite IH.
      destruct (bool_decide (producerId item ∈ map producerId rest)) eqn:Hin.
      * apply bool_decide_eq_true in Hin.
        rewrite bool_decide_eq_true_2; [done|]. apply elem_of_cons. by right.
      * apply bool_decide_eq_false in Hin.
        rewrite bool_decide_eq_false_2; [done|].
        rewrite elem_of_cons. intros [?|?]; [congruence | done].
Qed.

Lemma addToProducer_recordsFor p item merged :
  NoDup (producersOf merged) ->
  recordsFor p (addToProducer item merged) = recordsFor p merged ++ recordsFor p [item].
Proof.
  induction merged as [|m rest IH]; [done|].
  unfold producersOf. cbn [map]. rewrite NoDup_cons. intros [Hfresh Hrest].
  cbn [addToProducer].
  destruct (String.eqb_spec (producerId m) (producerId item)) as [Heq|Hne].
  - rewrite !recordsFor_cons. cbn [producerId records]. rewrite <- Heq.
    destruct (String.eqb_spec (producerId m) p) as [<-|Hp].
    + rewrite (recordsFor_absent _ rest Hfresh). cbn [recordsFor List.filter map concat].
      by rewrite !app_nil_r.
    + cbn [recordsFor List.filter map concat]. by rewrite app_nil_r.
  - rewrite (recordsFor_cons p m (addToProducer item rest)), (recordsFor_cons p m rest).
    rewrite IH by done. by rewrite app_assoc.
Qed.

Lemma addToProducer_NoDup item merged :
  NoDup (producersOf merged) -> NoDup (producersOf (addToProducer item merged)).
Proof.
  intros Hmerged. rewrite addToProducer_producers.
  destruct (bool_decide (producerId item ∈ producersOf merged)) eqn:Hin; [done|].
  apply bool_decide_eq_false in Hin.
  apply NoDup_app. split; [done|]. split; [|apply NoDup_singleton].
  intros x Hx ->%list_elem_of_singleton. done.
Qed.

Lemma merge_from items : forall acc,
  NoDup (producersOf acc) ->
  let merged := fold_left (fun merged item => addToProducer item merged) items acc in
  NoDup (producersOf merged)
  /\ (forall p, recordsFor p merged = recordsFor p acc ++ recordsFor p items)
  /\ exists later, producersOf merged = producersOf acc ++ later
                   /\ sublist later (producersOf items)
                   /\ forall p, p ∈ producersOf items -> p ∈ producersOf acc ++ later.
Proof.
  induction items as [|item items IH]; intros acc Hacc; cbn [fold_left].
  - split; [done|]. split; [intros p; by rewrite app_nil_r|].
    exists []. rewrite app_nil_r. split; [done|]. split; [done|].
    intros p Hp. by apply elem_of_nil in Hp.
  - destruct (IH _ (addToProducer_NoDup item acc Hacc)) as (Hdistinct & Hrecords & later & Hp & Hsub & Hall).
    split; [done|]. split.
    { intros p. rewrite Hrecords, addToProducer_recordsFor by done.
      rewrite <- app_assoc. f_equal. symmetry. apply (recordsFor_app p [item] items). }
    rewrite addToProducer_producers in Hp, Hall.
    destruct (bool_decide (producerId item ∈ producersOf acc)) eqn:Hin.
    + apply bool_decide_eq_true in Hin.
      exists later. split; [done|]. split; [by apply sublist_cons|].
      intros p. unfold producersOf at 1. cbn [map]. rewrite elem_of_cons.
      intros [->|Hrest]; [|by apply Hall].
      apply elem_of_app. by left.
    + exists (producerId item :: later). rewrite <- app_assoc in Hp, Hall.
      split; [done|]. split; [by apply sublist_skip|].
      intros p. unfold producersOf at 1. cbn [map]. rewrite elem_of_cons.
      intros [->|Hrest]; [|by apply Hall].
      apply elem_of_app. right. apply elem_of_cons. by left.
Qed.

(** The producers of the batches: those that were there, then the new
    ones in the order of their first item. *)
Lemma merge_order items : forall acc,
  producersOf (fold_left (fun merged item => addToProducer item merged) items acc)
  = producersOf acc
    ++ List.filter (fun p => bool_decide (p ∉ producersOf acc))
         (firstOccurrences (producersOf items)).
Proof.
  induction items as [|item items IH]; intros acc; cbn [fold_left].
  - cbn. by rewrite app_nil_r.
  - rewrite IH.
    change (producersOf (item :: items)) with (producerId item :: producersOf items).
    cbn [firstOccurrences List.filter].
    destruct (decide (producerId item ∈ producersOf acc)) as [Hin|Hin].
    + assert (Hsame : producersOf (addToProducer item acc) = producersOf acc).
      { rewrite addToProducer_producers. by rewrite bool_decide_eq_true_2. }
      rewrite Hsame.
      rewrite (bool_decide_eq_false_2 (producerId item ∉ producersOf acc)) by tauto.
      f_equal. rewrite QueryFacts.filter_filter. apply filter_ext. intros p.
      destruct (String.eqb_spec p (producerId item)) as [->|Hne]; cbn [negb andb].
      * by rewrite bool_decide_eq_false_2 by tauto.
      * done.
    + assert (Hmore : producersOf (addToProducer item acc)
                      = producersOf acc ++ [producerId item]).
      { rewrite addToProducer_producers. by rewrite bool_decide_eq_false_2. }
      rewrite Hmore.
      rewrite (bool_decide_eq_true_2 (producerId item ∉ producersOf acc)) by done.
      rewrite <- app_assoc. cbn [app]. do 2 f_equal.
      rewrite QueryFacts.filter_filter. apply filter_ext. intros p.
      destruct (String.eqb_spec p (producerId item)) as [->|Hne]; cbn [negb andb].
      * rewrite bool_decide_eq_false_2; [done|].
        intros Hout. apply Hout, elem_of_app. right. by apply list_elem_of_singleton.
      * apply bool_decide_ext. rewrite not_elem_of_app, list_elem_of_singleton. tauto.
Qed.

Lemma merge_first_occurrences items :
  producersOf (mergeIngestQueueItems items) = firstOccurrences (producersOf items).
Proof.
  unfold mergeIngestQueueItems. rewrite merge_order. cbn [producersOf map app].
  apply QueryFacts.filter_all, Forall_forall. intros p _.
  apply bool_decide_eq_true_2, not_elem_of_nil.
Qed.

Lemma sumRecords_from items : forall n,
  fold_left (fun sum item => sum + Z.of_nat (length (records item))) items n
  = n + Z.of_nat (length (concat (map records items))).
Proof.
  induction items as [|i items IH]; intros n; cbn [fold_left map concat].
  - cbn. lia.
  - rewrite IH, length_app. lia.
Qed.

Lemma sumRecords_length items :
  sumRecords items = Z.of_nat (length (concat (map records items))).
Proof. unfold sumRecords. rewrite sumRecords_from. lia. Qed.

Lemma length_concat_split p (items : list IngestQueueItem) :
  length (concat (map records items))
  = (length (recordsFor p items)
     + length (concat (map records
                 (List.filter (fun i => negb (producerId i =? p)%string) items))))%nat.
Proof.
  induction items as [|i items IH]; [done|].
  rewrite recordsFor_cons. cbn [map concat List.filter].
  destruct (producerId i =? p)%string; cbn [negb map concat];
    rewrite !length_app, IH; cbn [length]; lia.
Qed.

Lemma sum_by_producer (merged : list IngestQueueItem) :
  NoDup (producersOf merged) ->
  forall items,
    (forall p, recordsFor p merged = recordsFor p items) ->
    (forall p, p ∈ producersOf items -> p ∈ producersOf merged) ->
    length (concat (map records merged)) = length (concat (map records items)).
Proof.
  induction merged as [|m rest IH]; intros Hdistinct items Hrecords Hall.
  - destruct items as [|i items]; [done|].
    exfalso. eapply elem_of_nil, (Hall (producerId i)). apply elem_of_cons. by left.
  - unfold producersOf in Hdistinct. cbn [map] in Hdistinct.
    apply NoDup_cons in Hdistinct as [Hfresh Hrest].
    rewrite (length_concat_split (producerId m) items), <- Hrecords.
    rewrite recordsFor_cons, String.eqb_refl, (recordsFor_absent _ rest Hfresh), app_nil_r.
    cbn [map concat]. rewrite length_app. f_equal.
    apply IH; [done| |].
    + intros p. destruct (String.eqb_spec (producerId m) p) as [<-|Hp].
      * rewrite (recordsFor_absent _ rest Hfresh). symmetry. apply recordsFor_absent.
        unfold producersOf. rewrite list_elem_of_fmap.
        intros (i & Hi & Hin%list_elem_of_In%filter_In). destruct Hin as [_ Hin].
        rewrite <- Hi, String.eqb_refl in Hin. done.
      * specialize (Hrecords p). rewrite recordsFor_cons in Hrecords.
        destruct (String.eqb_spec (producerId m) p); [done|]. cbn [app] in Hrecords.
        rewrite Hrecords. unfold recordsFor. rewrite QueryFacts.filter_filter.
        f_equal. f_equal. apply filter_ext. intros i.
        destruct (String.eqb_spec (producerId i) p) as [->|]; [|by rewrite andb_false_r].
        destruct (String.eqb_spec p (producerId m)); [congruence | done].
    + intros p. unfold producersOf. rewrite list_elem_of_fmap.
      intros (i & -> & Hin%list_elem_of_In%filter_In). destruct Hin as [Hin Hother].
      assert (Hp : producerId i ∈ producersOf (m :: rest)).
      { apply Hall. apply list_elem_of_fmap. exists i. split; [done|]. by apply list_elem_of_In. }
      unfold producersOf in Hp. cbn [map] in Hp. apply elem_of_cons in Hp as [Hm|Hp]; [|done].
      rewrite Hm, String.eqb_refl in Hother. done.
Qed.

Lemma merge_sum items : sumRecords (mergeIngestQueueItems items) = sumRecords items.
Proof.
  destruct (merge_from items [] (NoDup_nil_2 : NoDup (producersOf [])))
    as (Hdistinct & Hrecords & later & Hp & Hsub & Hall).
  fold (mergeIngestQueueItems items) in Hdistinct, Hrecords, Hp.
  cbn [producersOf map app] in Hp, Hall. rewrite <- Hp in Hall.
  rewrite !sumRecords_length. f_equal. by apply sum_by_producer.
Qed.

(** X17. What one flush writes. [mergeIngestQueueItems] gives one batch
    per producer: the producers of the batches are distinct, and they
    are the producers of the items in the order in which each first
    occurs; the batch of a producer holds the records of all its items
    in the order in which they were queued. No record is lost or added. *)
Theorem merged_batches_group_by_producer items :
  let merged := mergeIngestQueueItems items in
  NoDup (producersOf merged)
  /\ producersOf merged = firstOccurrences (producersOf items)
  /\ sublist (producersOf merged) (producersOf items)
  /\ (forall p, p ∈ producersOf items -> p ∈ producersOf merged)
  /\ Forall (fun m => records m = recordsFor (producerId m) items) merged
  /\ (forall p, recordsFor p merged = recordsFor p items)
  /\ sumRecords merged = sumRecords items.
Proof.
  intros merged.
  destruct (merge_from items [] (NoDup_nil_2 : NoDup (producersOf [])))
    as (Hdistinct & Hrecords & later & Hp & Hsub & Hall).
  fold (mergeIngestQueueItems items) in Hdistinct, Hrecords, Hp. fold merged in Hdistinct, Hrecords, Hp.
  cbn [producersOf map app] in Hp, Hall. cbn [recordsFor List.filter map concat app] in Hrecords.
  rewrite <- Hp in Hall, Hsub.
  split; [done|]. split; [apply merge_first_occurrences|].
  split; [done|]. split; [done|]. split; [|split; [done|]].
  - apply Forall_forall. intros m Hm. rewrite <- Hrecords.
    apply list_elem_of_split in Hm as (l1 & l2 & Hsplit). rewrite Hsplit in Hdistinct |- *.
    unfold producersOf in Hdistinct. rewrite map_app in Hdistinct. cbn [map] in Hdistinct.
    apply NoDup_app in Hdistinct as (_ & Hapart & [Hfresh _]%NoDup_cons).
    rewrite recordsFor_app, recordsFor_cons, String.eqb_refl.
    rewrite (recordsFor_absent _ l2 Hfresh), app_nil_r.
    rewrite (recordsFor_absent _ l1); [done|].
    intros Hin. apply (Hapart _ Hin). apply elem_of_cons. by left.
  - apply merge_sum.
Qed.

Example two_producers_merged :
  let item p r := {| producerId := p; records := [[("n", JNum r)]] |} in
  mergeIngestQueueItems [item "a" 1; item "b" 2; item "a" 3; item "b" 4; item "c" 5]
  = [ {| producerId := "a"; records := [[("n", JNum 1)]; [("n", JNum 3)]] |};
      {| producerId := "b"; records := [[("n", JNum 2)]; [("n", JNum 4)]] |};
      {| producerId := "c"; records := [[("n", JNum 5)]] |} ].
Proof. vm_compute. reflexivity. Qed.

Example producers_in_order_of_first_item :
  let item p := {| producerId := p; records := [[("n", JNum 1)]] |} in
  producersOf (mergeIngestQueueItems [item "b"; item "a"; item "b"; item "c"; item "a"])
  = ["b"; "a"; "c"]
  /\ firstOccurrences ["b"; "a"; "b"; "c"; "a"] = ["b"; "a"; "c"].
Proof. vm_compute. done. Qed.

End MergeFacts.

(** ** Ingest: what a request is answered and what it changes *)

Module IngestAnswerFacts.

Import HandleRequest IngestSpec QueueSpec.
Local Open Scope list_scope.

Section WithRuntime.
Context `{Runtime}.

Lemma normalizeAll_counts logs producer now :
  Z.of_nat (length (fst (normalizeAll logs producer now)))
  = Z.of_nat (length (List.filter isRecord logs))
  /\ snd (normalizeAll logs producer now)
     = Z.of_nat (length (List.filter (fun v => negb (isRecord v)) logs)).
Proof.
  induction logs as [|log rest [IHa IHr]]; [done|].
  cbn [normalizeAll]. destruct (normalizeAll rest producer now) as [accepted rejected].
  cbn [fst snd] in IHa, IHr.
  destruct log; cbn [Ingest.normalizeIngestRecord isRecord List.filter negb fst snd length];
    lia.
Qed.

(** X18. The answer to an ingest request. An error answer (404, 401, 413
    or 400) changes nothing. A report answers a payload that was read:
    the accepted count is the number of its elements that are objects,
    the rejected count the number of the others, so every element is
    counted once. The request is queued (202) exactly when the queue is
    on and something was accepted, and then the queue counters grow by
    the accepted count while nothing is flushed; it is answered 200
    otherwise, and then the flush counters grow by the accepted count
    while nothing is queued. A request with nothing accepted changes
    nothing. *)
Theorem ingest_answer_counts_every_element context req now :
  let context' := fst (handleIngest context req now) in
  let response := snd (handleIngest context req now) in
  let q := ingestQueueState context in
  let q' := ingestQueueState context' in
  match body response with
  | ErrorBody _ =>
      context' = context /\ statusCode response ∈ [404; 401; 413; 400]
  | IngestBody r =>
      exists logs,
        payloadOf context req = Some logs
        /\ accepted r = Z.of_nat (length (List.filter isRecord logs))
        /\ rejected r = Z.of_nat (length (List.filter (fun v => negb (isRecord v)) logs))
        /\ accepted r + rejected r = Z.of_nat (length logs)
        /\ receivedAt r = now
        /\ queued r = Ingest.queueEnabled (ingestQueuePolicy context) && (0 <? accepted r)
        /\ statusCode response = (if queued r then 202 else 200)
        /\ (accepted r = 0 -> context' = context)
        /\ (if queued r
            then Ingest.batchesQueued q' = Ingest.batchesQueued q + 1
                 /\ Ingest.recordsQueued q' = Ingest.recordsQueued q + accepted r
                 /\ Ingest.pendingRecords q' = Ingest.pendingRecords q + accepted r
                 /\ Ingest.batchesFlushed q' = Ingest.batchesFlushed q
                 /\ Ingest.recordsFlushed q' = Ingest.recordsFlushed q
            else Ingest.batchesFlushed q' = Ingest.batchesFlushed q + (if 0 <? accepted r then 1 else 0)
                 /\ Ingest.recordsFlushed q' = Ingest.recordsFlushed q + accepted r
                 /\ Ingest.batchesQueued q' = Ingest.batchesQueued q
                 /\ Ingest.recordsQueued q' = Ingest.recordsQueued q
                 /\ Ingest.pendingRecords q' = Ingest.pendingRecords q)
  end.
Proof.
  cbn zeta. unfold payloadOf, handleIngest.
  destruct (negb (Ingest.enabled (ingestAuthPolicy context))
            && negb (Auth.enabled (basicAuth context))).
  { cbn. split; [done|]. set_solver. }
  destruct (Js.truthy _) as [producer|]; [|cbn; split; [done | set_solver]].
  destruct (readJsonBody _ _) as [payload|message].
  2:{ cbn. split; [done|]. destruct (String.prefix _ _); set_solver. }
  destruct (Ingest.parseIngestPayload payload) as [logs|]; [|cbn; split; [done | set_solver]].
  destruct (normalizeAll_counts logs producer now) as [Haccepted Hrejected].
  pose proof (filter_length isRecord logs) as Hall.
  destruct (normalizeAll logs producer now) as [acceptedRecords rejectedCount].
  cbn [fst snd] in Haccepted, Hrejected.
  destruct acceptedRecords as [|record records].
  - cbn. exists logs. rewrite <- Haccepted, <- Hrejected. cbn.
    rewrite andb_false_r. cbn in Haccepted.
    change (Z.of_nat 0) with 0 in *. change (0 <? 0) with false. cbn iota.
    repeat split; try done; try lia.
  - destruct (Ingest.queueEnabled (ingestQueuePolicy context)) eqn:Hqueue.
    + cbn. exists logs. rewrite <- Haccepted, <- Hrejected.
      cbn [length] in *.
      assert (Hpos : (0 <? Z.of_nat (S (length records))) = true) by (apply Z.ltb_lt; lia).
      rewrite Hpos. cbn. repeat split; try done; lia.
    + cbn. exists logs. rewrite <- Haccepted, <- Hrejected.
      cbn [length] in *.
      assert (Hpos : (0 <? Z.of_nat (S (length records))) = true) by (apply Z.ltb_lt; lia).
      rewrite Hpos. cbn. repeat split; try done; lia.
Qed.

End WithRuntime.

Example mixed_payload_answer :
  let body := ("[{" +:+ Js.quoted "event" +:+ ":" +:+ Js.quoted "x" +:+ "},7,null,{}]") in
  snd (handleIngest syncContext {| authorization := Some "Bearer tokenA"; rawBody := body |}
         receivedAt0)
  = {| statusCode := 200;
       body := IngestBody {| accepted := 2; queued := false; producerId := "frontend-web";
                             receivedAt := receivedAt0; rejected := 2 |} |}.
Proof. vm_compute. reflexivity. Qed.

End IngestAnswerFacts.

(** ** Ingest queue: draining *)

Module DrainFacts.

Import Ingest QueueSpec.
Local Open Scope list_scope.

Lemma sumRecords_snoc items item :
  sumRecords (items ++ [item]) = sumRecords items + Z.of_nat (length (records item)).
Proof.
  rewrite !MergeFacts.sumRecords_length, map_app, concat_app, length_app.
  cbn [map concat]. rewrite app_nil_r. lia.
Qed.

Ltac queue_fields :=
  cbn [pending pendingRecords draining recordsQueued batchesQueued recordsFlushed
       batchesFlushed withPending withDraining fst snd] in *.

Section WithRuntime.
Context `{Runtime}.

Lemma enqueue_effect queue item :
  Balanced queue ->
  let queue' := enqueueIngestQueueBatch queue item in
  Balanced queue'
  /\ draining queue' = draining queue
  /\ recordsFlushed queue' = recordsFlushed queue
  /\ batchesFlushed queue' = batchesFlushed queue
  /\ pendingRecords queue' = pendingRecords queue + Z.of_nat (length (records item))
  /\ recordsQueued queue' = recordsQueued queue + Z.of_nat (length (records item))
  /\ pending queue' = if bool_decide (records item = []) then pending queue
                      else pending queue ++ [item].
Proof.
  unfold Balanced, enqueueIngestQueueBatch. intros Hbalanced.
  destruct (records item) as [|r rest] eqn:Hrecords; cbn zeta; queue_fields.
  - cbn [length]. repeat split; try done; lia.
  - rewrite sumRecords_snoc, Hrecords. cbn [length]. repeat split; try done; lia.
Qed.

Lemma enqueue_all arrived : forall queue,
  Balanced queue ->
  let queue' := fold_left enqueueIngestQueueBatch arrived queue in
  Balanced queue'
  /\ draining queue' = draining queue
  /\ recordsFlushed queue' = recordsFlushed queue
  /\ batchesFlushed queue' = batchesFlushed queue
  /\ pendingRecords queue' = pendingRecords queue + sumRecords arrived
  /\ recordsQueued queue' = recordsQueued queue + sumRecords arrived.
Proof.
  induction arrived as [|item arrived IH]; intros queue Hbalanced; cbn [fold_left].
  - change (sumRecords []) with 0. repeat split; try done; lia.
  - destruct (enqueue_effect queue item Hbalanced) as (Hb & Hd & Hf & Hbf & Hp & Hq & _).
    destruct (IH _ Hb) as (Hb' & Hd' & Hf' & Hbf' & Hp' & Hq').
    change (item :: arrived) with ([item] ++ arrived).
    rewrite !MergeFacts.sumRecords_length in *.
    rewrite map_app, concat_app, length_app. cbn [map concat]. rewrite app_nil_r.
    repeat split; try done; try congruence; lia.
Qed.

Lemma flush_effect disk logsPath dayLabel queue items :
  let queue' := snd (flushIngestQueueBatch disk logsPath dayLabel queue items) in
  pending queue' = pending queue
  /\ pendingRecords queue' = pendingRecords queue
  /\ draining queue' = draining queue
  /\ recordsQueued queue' = recordsQueued queue
  /\ batchesQueued queue' = batchesQueued queue
  /\ recordsFlushed queue' = recordsFlushed queue + sumRecords items
  /\ batchesFlushed queue <= batchesFlushed queue'.
Proof.
  unfold flushIngestQueueBatch. destruct items as [|item items].
  - cbn. change (sumRecords []) with 0. repeat split; try done; lia.
  - cbn [snd pending pendingRecords draining recordsQueued batchesQueued recordsFlushed
         batchesFlushed].
    rewrite MergeFacts.merge_sum. repeat split; try done; lia.
Qed.

Lemma drainLoop_effect turns : forall disk logsPath dayLabel queue,
  Balanced queue ->
  let queue' := snd (drainLoop disk logsPath dayLabel queue turns) in
  pending queue' = []
  /\ pendingRecords queue' = 0
  /\ draining queue' = draining queue
  /\ recordsQueued queue <= recordsQueued queue'
  /\ batchesFlushed queue <= batchesFlushed queue'
  /\ recordsFlushed queue'
     = recordsFlushed queue + pendingRecords queue
       + (recordsQueued queue' - recordsQueued queue).
Proof.
  induction turns as [|[arrived nextLabel] turns IH]; intros disk logsPath dayLabel queue Hbalanced.
  - cbn [drainLoop]. unfold Balanced in Hbalanced.
    destruct (pending queue) as [|item items] eqn:Hpending.
    + cbn [snd]. rewrite Hpending, Hbalanced. change (sumRecords []) with 0.
      repeat split; try done; lia.
    + cbn zeta.
      pose proof (flush_effect disk logsPath dayLabel
                    (withPending queue [] (pendingRecords queue - sumRecords (item :: items)))
                    (item :: items)) as Hflush.
      destruct (flushIngestQueueBatch _ _ _ _ _) as [disk1 queue1].
      cbn [snd] in Hflush |- *. cbn [withPending pending pendingRecords draining recordsQueued
        batchesQueued recordsFlushed batchesFlushed] in Hflush.
      destruct Hflush as (Hp & Hn & Hd & Hq & _ & Hf & Hbf).
      repeat split; try done; lia.
  - cbn [drainLoop]. unfold Balanced in Hbalanced.
    destruct (pending queue) as [|item items] eqn:Hpending.
    + cbn [snd]. rewrite Hpending, Hbalanced. change (sumRecords []) with 0.
      repeat split; try done; lia.
    + cbn zeta.
      pose proof (flush_effect disk logsPath dayLabel
                    (withPending queue [] (pendingRecords queue - sumRecords (item :: items)))
                    (item :: items)) as Hflush.
      destruct (flushIngestQueueBatch _ _ _ _ _) as [disk1 queue1].
      cbn [snd] in Hflush. cbn [withPending pending pendingRecords draining recordsQueued
        batchesQueued recordsFlushed batchesFlushed] in Hflush.
      destruct Hflush as (Hp & Hn & Hd & Hq & _ & Hf & Hbf).
      assert (Hb1 : Balanced queue1).
      { unfold Balanced. rewrite Hp, Hn, Hbalanced. change (sumRecords []) with 0. lia. }
      destruct (enqueue_all arrived queue1 Hb1) as (Hb2 & Hd2 & Hf2 & Hbf2 & Hp2 & Hq2).
      specialize (IH disk1 logsPath nextLabel _ Hb2). cbn zeta in IH.
      destruct IH as (Ip & In' & Id & Iq & Ibf & If).
      pose proof (MergeFacts.sumRecords_length arrived) as Harrived.
      repeat split; try done; try congruence; lia.
Qed.

(** X19. Draining the queue. Putting an item on the queue keeps the
    count of pending records equal to the records of the pending items,
    and an item without records is not queued. A drain that starts on
    such a queue and is not already running ends with nothing pending,
    the count at zero and the running flag cleared, whatever arrives
    while its flushes are awaited; the records it has flushed are those
    that were pending at its start and those that arrived meanwhile. A
    drain that finds another one running changes nothing. *)
Theorem drain_leaves_nothing_pending disk logsPath dayLabel queue turns :
  Balanced queue ->
  let queue' := snd (drainIngestQueue disk logsPath dayLabel queue turns) in
  (forall item,
     Balanced (enqueueIngestQueueBatch queue item)
     /\ pending (enqueueIngestQueueBatch queue item)
        = if bool_decide (records item = []) then pending queue else pending queue ++ [item])
  /\ (draining queue = true ->
      drainIngestQueue disk logsPath dayLabel queue turns = (disk, queue))
  /\ (draining queue = false ->
      pending queue' = []
      /\ pendingRecords queue' = 0
      /\ draining queue' = false
      /\ recordsQueued queue <= recordsQueued queue'
      /\ batchesFlushed queue <= batchesFlushed queue'
      /\ recordsFlushed queue'
         = recordsFlushed queue + pendingRecords queue
           + (recordsQueued queue' - recordsQueued queue)).
Proof.
  intros Hbalanced queue'. split; [|split].
  - intros item. by destruct (enqueue_effect queue item Hbalanced) as (? & _ & _ & _ & _ & _ & ?).
  - intros Hrunning. unfold drainIngestQueue. by rewrite Hrunning.
  - intros Hidle. subst queue'. unfold drainIngestQueue. rewrite Hidle.
    pose proof (drainLoop_effect turns disk logsPath dayLabel (withDraining queue true)) as Hloop.
    cbn zeta in Hloop.
    destruct (drainLoop _ _ _ _ _) as [disk1 queue1]. cbn [snd] in Hloop |- *.
    destruct Hloop as (Hp & Hn & _ & Hq & Hbf & Hf); [exact Hbalanced|].
    cbn [withDraining pending pendingRecords draining recordsQueued recordsFlushed
         batchesFlushed] in *.
    done.
Qed.

End WithRuntime.

Import Reference.

Lemma drain_leaves_nothing_pending_witness :
  Balanced busyQueue
  /\ pending (snd (drainIngestQueue ∅ "/srv/logs" "2024-05-01" busyQueue
                     [([oneRecord "a" 3], "2024-05-02")])) = [].
Proof.
  assert (Hbalanced : Balanced busyQueue) by (vm_compute; reflexivity).
  split; [exact Hbalanced|].
  destruct (drain_leaves_nothing_pending ∅ "/srv/logs" "2024-05-01" busyQueue
              [([oneRecord "a" 3], "2024-05-02")] Hbalanced) as (_ & _ & Hdrain).
  destruct (Hdrain eq_refl) as (Hpending & _). exact Hpending.
Defined.

Example drain_across_midnight :
  let result := drainIngestQueue ∅ "/srv/logs" "2024-05-01" busyQueue
                  [([oneRecord "a" 3], "2024-05-02")] in
  map fst (map_to_list (fst result))
    ≡ₚ ["/srv/logs/ingest/a/2024-05-01.ndjson"; "/srv/logs/ingest/b/2024-05-01.ndjson";
        "/srv/logs/ingest/a/2024-05-02.ndjson"]
  /\ (recordsQueued (snd result), recordsFlushed (snd result), batchesFlushed (snd result))
     = (3, 3, 3).
Proof.
  split; [|vm_compute; reflexivity].
  apply (bool_decide_unpack _). vm_compute. exact I.
Qed.

End DrainFacts.

(** ** Ingest: where the batch of a mapped producer is written *)

Module PathFacts.

Import Ingest PathSpec.
Local Open Scope list_scope.

Lemma splitChar_app c a b :
  Js.splitChar c (a +:+ String c b) = Js.splitChar c a ++ Js.splitChar c b.
Proof.
  induction a as [|d a IH].
  - change ("" +:+ String c b) with (String c b). cbn [Js.splitChar].
    by rewrite Ascii.eqb_refl.
  - change (String d a +:+ String c b) with (String d (a +:+ String c b)).
    cbn [Js.splitChar]. rewrite IH.
    destruct (Ascii.eqb c d); [done|].
    by destruct (AuditFacts.splitChar_cons c a) as (hd & tl & ->).
Qed.

Lemma splitChar_plain s : noSlash s = true -> Js.splitChar "/" s = [s].
Proof.
  unfold noSlash. induction s as [|d s IH]; [done|].
  cbn [Js.allChars Js.splitChar]. intros [Hd Hs]%andb_true_iff.
  apply negb_true_iff in Hd. rewrite Hd, (IH Hs). done.
Qed.

Lemma plainSegment_noSlash s : plainSegment s = true -> noSlash s = true.
Proof. unfold plainSegment. by intros [_ ?]%andb_true_iff. Qed.

Lemma splitChar_joined a xs :
  Forall (fun s => plainSegment s = true) xs ->
  Js.splitChar "/" (String.concat "/" (a :: xs)) = Js.splitChar "/" a ++ xs.
Proof.
  revert a. induction xs as [|x xs IH]; intros a Hxs.
  - cbn [String.concat]. by rewrite app_nil_r.
  - apply Forall_cons in Hxs as [Hx Hxs].
    change (String.concat "/" (a :: x :: xs))
      with (a +:+ String "/" (String.concat "/" (x :: xs))).
    rewrite splitChar_app, (IH x Hxs), (splitChar_plain x (plainSegment_noSlash x Hx)).
    done.
Qed.

(** Empty segments vanish and plain segments are kept. *)
Lemma pushSegment_plain absolute l : forall acc,
  Forall (fun s => s = "" \/ plainSegment s = true) l ->
  fold_left (Path.pushSegment absolute) l acc = rev (List.filter Js.nonEmpty l) ++ acc.
Proof.
  induction l as [|s l IH]; intros acc Hl; [done|].
  apply Forall_cons in Hl as [Hs Hl]. cbn [fold_left List.filter].
  rewrite (IH _ Hl). destruct Hs as [->|Hs]; [done|].
  unfold plainSegment in Hs.
  apply andb_true_iff in Hs as [[[Hne Hdot]%andb_true_iff Hdots]%andb_true_iff _].
  apply negb_true_iff in Hdot, Hdots.
  unfold Path.pushSegment. rewrite Hdot, Hdots, Hne.
  destruct s; [done|]. cbn [String.eqb orb rev]. by rewrite <- app_assoc.
Qed.

Lemma filter_plain xs :
  Forall (fun s => plainSegment s = true) xs -> List.filter Js.nonEmpty xs = xs.
Proof.
  induction 1 as [|x xs Hx _ IH]; [done|]. cbn [List.filter].
  unfold plainSegment in Hx.
  apply andb_true_iff in Hx as [[[Hne _]%andb_true_iff _]%andb_true_iff _].
  by rewrite Hne, IH.
Qed.

Lemma splitChar_rooted segs :
  Forall (fun s => plainSegment s = true) segs ->
  Forall (fun s => s = "" \/ plainSegment s = true) (Js.splitChar "/" (rooted segs))
  /\ List.filter Js.nonEmpty (Js.splitChar "/" (rooted segs)) = segs.
Proof.
  intros Hsegs. unfold rooted.
  change ("/" +:+ String.concat "/" segs) with (String "/" (String.concat "/" segs)).
  cbn [Js.splitChar Ascii.eqb Bool.eqb]. cbn [List.filter Js.nonEmpty].
  destruct segs as [|a segs]; [split; [repeat constructor; by left | done]|].
  apply Forall_cons in Hsegs as [Ha Hsegs].
  rewrite (splitChar_joined a segs Hsegs), (splitChar_plain a (plainSegment_noSlash a Ha)).
  split.
  - constructor; [by left|]. constructor; [by right|].
    eapply Forall_impl; [exact Hsegs|]. intros s Hs. by right.
  - change ([a] ++ segs) with (a :: segs). apply filter_plain. by constructor.
Qed.

Lemma prefix_rooted segs : String.prefix "/" (rooted segs) = true.
Proof. unfold rooted. cbn. by destruct (String.concat "/" segs). Qed.

(** Joining plain segments to an absolute path of plain segments appends
    them. *)
Lemma join_rooted segs xs :
  Forall (fun s => plainSegment s = true) segs ->
  Forall (fun s => plainSegment s = true) xs ->
  Path.join (rooted segs :: xs) = rooted (segs ++ xs).
Proof.
  intros Hsegs Hxs. unfold Path.join. cbn [List.filter].
  replace (Js.nonEmpty (rooted segs)) with true by done.
  rewrite (filter_plain xs Hxs).
  assert (Hprefix : String.prefix "/" (String.concat "/" (rooted segs :: xs)) = true).
  { destruct xs; [apply prefix_rooted|].
    change (String.concat "/" (rooted segs :: s :: xs))
      with (String "/" (String.concat "/" segs +:+ String "/" (String.concat "/" (s :: xs)))).
    cbn. by destruct (_ +:+ _). }
  unfold Path.normalize. rewrite Hprefix, (splitChar_joined _ xs Hxs).
  destruct (splitChar_rooted segs Hsegs) as [Hparts Hkept].
  rewrite pushSegment_plain.
  2:{ apply Forall_app. split; [done|].
      eapply Forall_impl; [exact Hxs|]. intros s Hs. by right. }
  rewrite app_nil_r, rev_involutive, List.filter_app, Hkept, (filter_plain xs Hxs). done.
Qed.

Lemma isIdChar_noSlash c : isIdChar c = true -> negb (Ascii.eqb "/" c) = true.
Proof. destruct (Ascii.eqb_spec "/" c) as [<-|]; [by vm_compute | done]. Qed.

Lemma allChars_impl (p q : ascii -> bool) s :
  (forall c, p c = true -> q c = true) -> Js.allChars p s = true -> Js.allChars q s = true.
Proof.
  intros Hpq. induction s as [|c s IH]; [done|]. cbn [Js.allChars].
  intros [Hc Hs]%andb_true_iff. by rewrite (Hpq c Hc), (IH Hs).
Qed.

(** A producer id of the accepted form is a plain segment. *)
Lemma pattern_plain producer :
  PRODUCER_ID_PATTERN producer = true -> plainSegment producer = true.
Proof.
  destruct producer as [|c rest]; [done|]. cbn [PRODUCER_ID_PATTERN].
  intros [[Hc _]%andb_true_iff Hrest]%andb_true_iff.
  assert (Hid : isIdChar c = true).
  { unfold isIdChar. by rewrite Hc. }
  unfold plainSegment, noSlash. cbn [Js.nonEmpty Js.allChars andb].
  rewrite (isIdChar_noSlash c Hid), (allChars_impl _ _ rest isIdChar_noSlash Hrest).
  destruct (Ascii.eqb_spec c ".") as [->|Hdot]; [by vm_compute in Hc|].
  cbn [String.eqb].
  destruct (Ascii.eqb_spec c "."); [done|]. done.
Qed.

Lemma allChars_append p a b :
  Js.allChars p (a +:+ b) = Js.allChars p a && Js.allChars p b.
Proof.
  induction a as [|c a IH]; [done|].
  change (String c a +:+ b) with (String c (a +:+ b)). cbn [Js.allChars].
  by rewrite IH, andb_assoc.
Qed.

Lemma fileName_plain day : noSlash day = true -> plainSegment (day +:+ ".ndjson") = true.
Proof.
  intros Hday. unfold plainSegment, noSlash in *. rewrite allChars_append, Hday.
  assert (Hlen : (7 <= String.length (day +:+ ".ndjson"))%nat).
  { rewrite ResumeFacts.length_append. cbn. lia. }
  destruct (day +:+ ".ndjson") as [|c1 [|c2 [|c3 rest]]] eqn:Hname; cbn in Hlen; try lia.
  cbn [Js.nonEmpty andb].
  replace (String c1 (String c2 (String c3 rest)) =? ".")%string with false
    by (cbn; by destruct (Ascii.eqb c1 ".")).
  replace (String c1 (String c2 (String c3 rest)) =? "..")%string with false
    by (cbn; by destruct (Ascii.eqb c1 "."), (Ascii.eqb c2 ".")).
  done.
Qed.

Lemma targetFileOf_rooted segs producer day :
  Forall (fun s => plainSegment s = true) segs ->
  plainSegment producer = true ->
  noSlash day = true ->
  targetFileOf (rooted segs) producer day
  = rooted (segs ++ ["ingest"; producer; day +:+ ".ndjson"]).
Proof.
  intros Hsegs Hproducer Hday. unfold targetFileOf.
  rewrite (join_rooted segs ["ingest"; producer]) by (by repeat constructor).
  rewrite join_rooted.
  - by rewrite <- app_assoc.
  - apply Forall_app. split; [done|]. by repeat constructor.
  - repeat constructor. by apply fileName_plain.
Qed.

Lemma rooted_inj l1 l2 :
  Forall (fun s => plainSegment s = true) l1 ->
  Forall (fun s => plainSegment s = true) l2 ->
  rooted l1 = rooted l2 -> l1 = l2.
Proof.
  intros H1 H2 Heq.
  destruct (splitChar_rooted l1 H1) as [_ <-].
  destruct (splitChar_rooted l2 H2) as [_ <-]. by rewrite Heq.
Qed.

Lemma parseMapping_keeps (P : string -> string -> Prop) mappings entry mappings' :
  (forall token producer,
     token <> "" -> PRODUCER_ID_PATTERN producer = true -> P token producer) ->
  map_Forall P mappings ->
  parseMapping mappings entry = Return mappings' ->
  map_Forall P mappings'.
Proof.
  intros HP Hall. unfold parseMapping.
  destruct (_ || _); [done|]. cbn zeta.
  destruct (Js.nonEmpty (Js.trim (Js.sliceTo _ entry))) eqn:Htoken; [|done].
  destruct (Js.nonEmpty (Js.trim (Js.sliceFrom _ entry))) eqn:Hproducer; [|done].
  cbn [negb orb].
  destruct (PRODUCER_ID_PATTERN _) eqn:Hpattern; [|done]. cbn [negb].
  destruct (bool_decide _); [done|]. intros [= <-].
  apply map_Forall_insert_2; [|done]. apply HP; [|done].
  intros Hempty. by rewrite Hempty in Htoken.
Qed.

Lemma parseMappings_keeps (P : string -> string -> Prop) entries : forall mappings mappings',
  (forall token producer,
     token <> "" -> PRODUCER_ID_PATTERN producer = true -> P token producer) ->
  map_Forall P mappings ->
  parseMappings mappings entries = Return mappings' ->
  map_Forall P mappings'.
Proof.
  induction entries as [|entry entries IH]; intros mappings mappings' HP Hall.
  - by intros [= <-].
  - cbn [parseMappings].
    destruct (parseMapping mappings entry) as [m|] eqn:Hentry; [|done].
    cbn [mbind Outcome_bind]. apply IH; [done|].
    by apply (parseMapping_keeps P mappings entry).
Qed.

Lemma mapped_producers value producers :
  parseIngestProducerMappings value = Return producers ->
  map_Forall (fun token producer => token <> "" /\ PRODUCER_ID_PATTERN producer = true)
    producers.
Proof.
  unfold parseIngestProducerMappings. destruct value as [v|].
  - destruct (negb _).
    + intros [= <-]. apply map_Forall_empty.
    + apply parseMappings_keeps; [done | apply map_Forall_empty].
  - intros [= <-]. apply map_Forall_empty.
Qed.

(** X20. Where mapped producers are written. Every producer id that
    [parseIngestProducerMappings] accepts has the checked form and its
    token is not empty. For such a producer and a resolved logs root the
    batch file is the day file in the directory [ingest/<producer>]
    directly below the root, so it lies inside the ingest directory, and
    the batch files of two mapped producers differ. *)
Theorem mapped_producers_write_below_ingest value producers token producer segs day :
  parseIngestProducerMappings value = Return producers ->
  producers !! token = Some producer ->
  Forall (fun s => plainSegment s = true) segs ->
  noSlash day = true ->
  token <> ""
  /\ PRODUCER_ID_PATTERN producer = true
  /\ targetFileOf (rooted segs) producer day
     = rooted (segs ++ ["ingest"; producer; day +:+ ".ndjson"])
  /\ forall token2 producer2,
       producers !! token2 = Some producer2 ->
       targetFileOf (rooted segs) producer2 day = targetFileOf (rooted segs) producer day ->
       producer2 = producer.
Proof.
  intros Hparsed Htoken Hsegs Hday.
  pose proof (mapped_producers value producers Hparsed) as Hall.
  destruct (Hall token producer Htoken) as [Hne Hpattern].
  split; [done|]. split; [done|].
  pose proof (pattern_plain producer Hpattern) as Hplain.
  split; [by apply targetFileOf_rooted|].
  intros token2 producer2 Htoken2.
  destruct (Hall token2 producer2 Htoken2) as [_ Hpattern2].
  pose proof (pattern_plain producer2 Hpattern2) as Hplain2.
  rewrite !targetFileOf_rooted by done. intros Hsame.
  apply rooted_inj in Hsame.
  - apply app_inv_head in Hsame. by injection Hsame.
  - apply Forall_app. split; [done|]. repeat constructor; [done|]. by apply fileName_plain.
  - apply Forall_app. split; [done|]. repeat constructor; [done|]. by apply fileName_plain.
Qed.

Lemma mapped_producers_write_below_ingest_witness :
  targetFileOf "/srv/logs" "frontend-web" "2024-05-01"
  = "/srv/logs/ingest/frontend-web/2024-05-01.ndjson".
Proof.
  destruct (parseIngestProducerMappings (Some " tokenA = frontend-web , tokenB=api.v2 "))
    as [producers|] eqn:Hparsed; [|vm_compute in Hparsed; discriminate].
  assert (Htoken : producers !! "tokenA" = Some "frontend-web").
  { vm_compute in Hparsed. injection Hparsed as <-. vm_compute. reflexivity. }
  assert (Hsegs : Forall (fun s => plainSegment s = true) ["srv"; "logs"]).
  { repeat constructor. }
  destruct (mapped_producers_write_below_ingest _ producers "tokenA" "frontend-web"
              ["srv"; "logs"] "2024-05-01" Hparsed Htoken Hsegs eq_refl)
    as (_ & _ & Htarget & _).
  exact Htarget.
Defined.

Example producer_ids_checked :
  map PRODUCER_ID_PATTERN ["frontend-web"; "api.v2"; "../x"; ".hidden"; "a/b"; ""]
  = [true; true; false; false; false; false].
Proof. vm_compute. reflexivity. Qed.

End PathFacts.

(** ** Alert cycles: what a cycle counts *)

Module CycleFacts.

Import Alerting AlertingSpec CycleSpec.
Local Open Scope list_scope.







Example suppressed_cycle :
  let s1 := snd (runCycle eagerPolicy (cycleAt 1000) createAlertState) in
  let s2 := snd (runCycle eagerPolicy (cycleAt 1040) s1) in
  (runs s2, sent s2, suppressed s2, running s2, lastError s2) = (2, 1, 1, false, None).
Proof. vm_compute. reflexivity. Qed.

End CycleFacts.

(** ** Webhook delivery: how a delivery ends *)

Module DeliveryFacts.

Import Alerting AlertingSpec CycleSpec.
Local Open Scope list_scope.






Example flaky_delivery_sleeps :
  sleptMs (fst (sendAlertWebhook "error_threshold" flakyTarget defaultPolicy)) = 750
  /\ snd (sendAlertWebhook "error_threshold" (fun _ => Response 503 "down") defaultPolicy)
     = Throw "Alert webhook failed (503): down".
Proof. vm_compute. done. Qed.

End DeliveryFacts.
